(** * AgentMarKB: the knowledge-base mutation engine of the service worker

    A shallow embedding of [background/service-worker.js] and
    [utils/deduplication.js]: URL and handle normalisation, author and
    content upserts on the index document, the topic index, slug generation
    and the bookmark save sequence.

    Conventions of the model.
    - A JavaScript string is a [string], the sequence of its bytes in
      UTF-8.  Case mapping and white space are those of the ASCII range: the
      functions of the model are those of the code on strings that hold no
      capital letter and no white space from outside that range (and no
      character beyond U+FFFF, where [sort()] leaves the order of the
      bytes).
    - A JavaScript object used as a dictionary is an association list in
      enumeration order ([Object.keys]): array-index keys first, in
      ascending numeric order, then the other keys in insertion order.
      A read of a key that the object does not own falls through to
      [Object.prototype].  A document is what [JSON.parse] builds from the
      file: its objects have [Object.prototype] for prototype.  The one
      object of the program that gets another prototype is the topic index
      that [updateTopicIndex] rebuilds from a document with a topic
      [__proto__]; [InMemory] follows that prototype through a second call
      on the same object.  Nothing else in the program reads the topic
      index through its prototype: [getExistingTopics] enumerates the own
      keys, and [saveToKB] starts every update from a document read anew.
    - Platform services that are not code of the repository (the URL
      parser, the Date parser, the clock, the native host, the HTML to
      Markdown converter) are parameters of the functions that call them. *)

From Stdlib Require Import Strings.String Strings.Ascii NArith ZArith Lia.
From stdpp Require Import base option list strings sorting.

Local Open Scope list_scope.

(** ** JavaScript strings *)

Module JsString.

Definition is_upper (c : ascii) : bool :=
  let n := N_of_ascii c in (65 <=? n)%N && (n <=? 90)%N.

Definition is_lower (c : ascii) : bool :=
  let n := N_of_ascii c in (97 <=? n)%N && (n <=? 122)%N.

Definition lower_char (c : ascii) : ascii :=
  if is_upper c then ascii_of_N (N_of_ascii c + 32) else c.

(** [String.prototype.toLowerCase]: the letters [A] to [Z] are mapped,
    every other byte is kept, as the code does for every character that is
    no capital letter. *)
Fixpoint toLowerCase (s : string) : string :=
  match s with
  | EmptyString => EmptyString
  | String c r => String (lower_char c) (toLowerCase r)
  end.

(** White space and line terminators of the ASCII range. *)
Definition is_ws (c : ascii) : bool :=
  let n := N_of_ascii c in ((9 <=? n)%N && (n <=? 13)%N) || (n =? 32)%N.

Fixpoint trimStart (s : string) : string :=
  match s with
  | EmptyString => EmptyString
  | String c r => if is_ws c then trimStart r else s
  end.

Fixpoint trimEnd (s : string) : string :=
  match s with
  | EmptyString => EmptyString
  | String c r =>
      match trimEnd r with
      | EmptyString => if is_ws c then EmptyString else String c EmptyString
      | r' => String c r'
      end
  end.

(** [String.prototype.trim] *)
Definition trim (s : string) : string := trimEnd (trimStart s).

(** [s.replace(/^@/, '')] *)
Definition stripLeadingAt (s : string) : string :=
  match s with
  | String "@" r => r
  | _ => s
  end.

(** [s.replace(/\/+$/, '')] *)
Fixpoint stripTrailingSlashes (s : string) : string :=
  match s with
  | EmptyString => EmptyString
  | String c r =>
      match stripTrailingSlashes r with
      | EmptyString => if Ascii.eqb c "/" then EmptyString else String c EmptyString
      | r' => String c r'
      end
  end.

(** [s.replace(pat, rep)] with a string pattern: the first occurrence
    only.  The replacement strings of the program contain no [$]. *)
Fixpoint replaceFirst (pat rep s : string) : string :=
  if String.prefix pat s
  then rep +:+ String.substring (String.length pat) (String.length s - String.length pat) s
  else match s with
       | EmptyString => EmptyString
       | String c r => String c (replaceFirst pat rep r)
       end.

(** [s.replace(/(p1|p2|...)/, rep)] for literal alternatives of which at
    most one can match at a position: the leftmost match is replaced. *)
Definition matchAt (pats : list string) (s : string) : option string :=
  list_find (fun p => String.prefix p s = true) pats ≫= fun '(_, p) => Some p.

Fixpoint replaceFirstOf (pats : list string) (rep s : string) : string :=
  match matchAt pats s with
  | Some p => rep +:+ String.substring (String.length p) (String.length s - String.length p) s
  | None => match s with
            | EmptyString => EmptyString
            | String c r => String c (replaceFirstOf pats rep r)
            end
  end.

(** [s.includes(pat)] *)
Fixpoint includes (pat s : string) : bool :=
  String.prefix pat s ||
  match s with
  | EmptyString => false
  | String _ r => includes pat r
  end.

(** [s.endsWith(suffix)] *)
Definition endsWith (suffix s : string) : bool :=
  let n := String.length s in
  let k := String.length suffix in
  (k <=? n)%nat && String.eqb (String.substring (n - k) k s) suffix.

(** [s.substring(0, n)] *)
Definition take (n : nat) (s : string) : string := String.substring 0 n s.

End JsString.

Import JsString.

Example toLowerCase_ex : toLowerCase "@Bob_42 Z" = "@bob_42 z".
Proof. reflexivity. Qed.
Example trim_ex : trim "  a b  " = "a b".
Proof. reflexivity. Qed.
Example stripTrailingSlashes_ex : stripTrailingSlashes "https://x.com/a//" = "https://x.com/a".
Proof. reflexivity. Qed.
Example replaceFirst_ex :
  replaceFirst "//x.com/" "//twitter.com/" "https://x.com/a//x.com/b" = "https://twitter.com/a//x.com/b".
Proof. reflexivity. Qed.
Example replaceFirstOf_ex :
  replaceFirstOf ["//www.x.com/"; "//x.com/"] "//x.com/" "https://www.x.com/a" = "https://x.com/a".
Proof. reflexivity. Qed.
Example endsWith_ex : endsWith "x.com" "https://x.com" = true.
Proof. reflexivity. Qed.

(** ** Handle normalisation *)

Module ServiceWorkerHandle.

(** [normalizeHandle] of background/service-worker.js:
    [handle.replace(/^@/, '').toLowerCase().trim()] *)
Definition normalizeHandle (handle : string) : string :=
  trim (toLowerCase (stripLeadingAt handle)).

End ServiceWorkerHandle.

Module DedupHandle.

(** [normalizeHandle] of utils/deduplication.js.  The argument may be
    missing ([None]); a missing or empty handle is falsy. *)
Definition normalizeHandle (handle : option string) : string :=
  match handle with
  | None => ""
  | Some "" => ""
  | Some h => trim (toLowerCase (stripLeadingAt h))
  end.

End DedupHandle.

(** Two characters that differ at most by letter case. *)
Definition swap_case (c : ascii) : ascii :=
  if is_upper c then ascii_of_N (N_of_ascii c + 32)
  else if is_lower c then ascii_of_N (N_of_ascii c - 32)
  else c.

Definition case_variant (a b : ascii) : Prop := b = a ∨ b = swap_case a.

Inductive case_variants : string → string → Prop :=
  | cvs_nil : case_variants "" ""
  | cvs_cons a b s t :
      case_variant a b → case_variants s t → case_variants (String a s) (String b t).

(** A handle, written with or without its leading [@]. *)
Definition written_as (bare h : string) : Prop := h = bare ∨ h = String "@" bare.

Definition starts_with_at (s : string) : bool :=
  match s with
  | String "@" _ => true
  | _ => false
  end.

(** Handles that differ only by the one leading [@] that the code removes
    or by the case of the letters [A] to [Z]: the same handle proper (which
    carries no [@] of its own) up to case, each written with or without the
    [@]. *)
Definition handle_variants (h1 h2 : string) : Prop :=
  ∃ b1 b2, starts_with_at b1 = false ∧ case_variants b1 b2 ∧
           written_as b1 h1 ∧ written_as b2 h2.

Lemma case_variant_lower a b : case_variant a b → lower_char a = lower_char b.
Proof.
  intros [-> | ->]; [reflexivity|].
  destruct a as [[] [] [] [] [] [] [] []]; reflexivity.
Qed.

Lemma case_variant_at a b : case_variant a b → a = "@"%char ↔ b = "@"%char.
Proof.
  intros [-> | ->]; [tauto|].
  destruct a as [[] [] [] [] [] [] [] []]; vm_compute; split; congruence.
Qed.

Lemma case_variants_lower s t : case_variants s t → toLowerCase s = toLowerCase t.
Proof.
  induction 1 as [|a b s t Hab _ IH]; simpl; [reflexivity|].
  by rewrite (case_variant_lower a b Hab), IH.
Qed.

Lemma starts_with_at_other c r : c ≠ "@"%char → starts_with_at (String c r) = false.
Proof.
  intros Hc. destruct c as [[] [] [] [] [] [] [] []]; try reflexivity. by destruct Hc.
Qed.

Lemma case_variants_no_at s t :
  case_variants s t → starts_with_at s = false → starts_with_at t = false.
Proof.
  destruct 1 as [|a b s t Hab _]; [done|].
  destruct (ascii_dec b "@") as [->|Hb].
  - assert (a = "@"%char) as -> by by apply (case_variant_at a "@" Hab).
    discriminate.
  - intros _. by apply starts_with_at_other.
Qed.

Lemma stripLeadingAt_bare b : starts_with_at b = false → stripLeadingAt b = b.
Proof.
  destruct b as [|c r]; [reflexivity|].
  destruct c as [[] [] [] [] [] [] [] []]; try reflexivity. discriminate.
Qed.

Lemma stripLeadingAt_written b h :
  starts_with_at b = false → written_as b h → stripLeadingAt h = b.
Proof. intros Hb [-> | ->]; [by apply stripLeadingAt_bare | reflexivity]. Qed.

Lemma dedup_normalizeHandle_string h :
  DedupHandle.normalizeHandle (Some h) = ServiceWorkerHandle.normalizeHandle h.
Proof. by destruct h. Qed.

(** C9, as the code has it.  Handles that differ only by one leading [@]
    before a handle that does not begin with [@] itself, or by the case of
    the letters [A] to [Z], have the same normal form, under
    [normalizeHandle] of the service worker and under [normalizeHandle] of
    the deduplication utility. *)
Theorem normalizeHandle_at_and_case_insensitive (h1 h2 : string) :
  handle_variants h1 h2 →
  ServiceWorkerHandle.normalizeHandle h1 = ServiceWorkerHandle.normalizeHandle h2 ∧
  DedupHandle.normalizeHandle (Some h1) = DedupHandle.normalizeHandle (Some h2).
Proof.
  intros (b1 & b2 & Hb1 & Hcase & Hw1 & Hw2).
  pose proof (case_variants_no_at _ _ Hcase Hb1) as Hb2.
  rewrite !dedup_normalizeHandle_string.
  unfold ServiceWorkerHandle.normalizeHandle.
  rewrite (stripLeadingAt_written b1 h1 Hb1 Hw1), (stripLeadingAt_written b2 h2 Hb2 Hw2).
  by rewrite (case_variants_lower _ _ Hcase).
Qed.

Lemma handle_variants_ex : handle_variants "@ElonMusk" "elonmusk".
Proof.
  exists "ElonMusk", "elonmusk". split; [reflexivity|]. split.
  - repeat (first [apply cvs_nil | apply cvs_cons; [first [by left | by right]|]]).
  - split; [by right | by left].
Defined.

Lemma normalizeHandle_at_and_case_insensitive_witness :
  ServiceWorkerHandle.normalizeHandle "@ElonMusk" = ServiceWorkerHandle.normalizeHandle "elonmusk" ∧
  DedupHandle.normalizeHandle (Some "@ElonMusk") = DedupHandle.normalizeHandle (Some "elonmusk").
Proof. exact (normalizeHandle_at_and_case_insensitive _ _ handle_variants_ex). Defined.

(** C9, against the claim: the regular expression [/^@/] removes one [@]
    only, so two handles that differ only by a leading [@] keep apart when
    the shorter one begins with [@] already.  And lower-casing does not
    bring every pair of letters of one case pair together: the capital of
    the dotless [ı] (U+0131) is [I], which is lower-cased to [i]. *)
Lemma normalizeHandle_keeps_second_at :
  String "@" "@bob" = "@@bob" ∧
  ServiceWorkerHandle.normalizeHandle "@@bob" = "@bob" ∧
  ServiceWorkerHandle.normalizeHandle "@bob" = "bob" ∧
  ServiceWorkerHandle.normalizeHandle "@@bob" ≠ ServiceWorkerHandle.normalizeHandle "@bob" ∧
  DedupHandle.normalizeHandle (Some "@@bob") ≠ DedupHandle.normalizeHandle (Some "@bob") ∧
  ServiceWorkerHandle.normalizeHandle "I" = "i" ∧
  ServiceWorkerHandle.normalizeHandle "ı" = "ı" ∧
  DedupHandle.normalizeHandle (Some "I") ≠ DedupHandle.normalizeHandle (Some "ı").
Proof. vm_compute. repeat split; discriminate. Qed.

Example normalizeHandle_trims :
  ServiceWorkerHandle.normalizeHandle "@Bob " = "bob" ∧
  ServiceWorkerHandle.normalizeHandle " @bob" = "@bob".
Proof. split; reflexivity. Qed.

(** ** The URL object of the platform

    A parsed URL with an authority, as [new URL(s)] yields it: the components
    are those of the WHATWG URL record.  [searchParams] is the list of
    decoded name-value pairs behind [url.searchParams]. *)

Record URL := mkURL {
  protocol : string;                      (* "https:" *)
  userinfo : string;                      (* "" or "user:password@" *)
  hostname : string;
  port : string;                          (* "" for the default port *)
  pathname : string;
  searchParams : list (string * string);
  fragment : option string
}.

Module Url.

Definition hex_digit (n : N) : ascii :=
  if (n <? 10)%N then ascii_of_N (48 + n) else ascii_of_N (55 + n).

Definition is_digit (c : ascii) : bool :=
  let n := N_of_ascii c in (48 <=? n)%N && (n <=? 57)%N.

Definition is_alnum (c : ascii) : bool := is_digit c || is_upper c || is_lower c.

(** The application/x-www-form-urlencoded byte serializer. *)
Definition formEncodeByte (c : ascii) : string :=
  if Ascii.eqb c " " then "+"
  else if is_alnum c || Ascii.eqb c "*" || Ascii.eqb c "-" || Ascii.eqb c "." || Ascii.eqb c "_"
  then String c ""
  else String "%" (String (hex_digit (N_of_ascii c / 16)) (String (hex_digit (N_of_ascii c mod 16)) "")).

Fixpoint formEncode (s : string) : string :=
  match s with
  | EmptyString => EmptyString
  | String c r => formEncodeByte c +:+ formEncode r
  end.

Definition serializeParams (l : list (string * string)) : string :=
  String.concat "&" (map (fun '(n, v) => formEncode n +:+ "=" +:+ formEncode v) l).

(** [url.searchParams.delete(name)]: the pairs named [name] are removed
    and the query of the URL is rewritten from the list. *)
Definition deleteParam (name : string) (u : URL) : URL :=
  mkURL (protocol u) (userinfo u) (hostname u) (port u) (pathname u)
        (filter (fun p => p.1 ≠ name) (searchParams u)) (fragment u).

(** [names.forEach(param => url.searchParams.delete(param))] *)
Definition deleteParams (names : list string) (u : URL) : URL :=
  fold_left (fun u name => deleteParam name u) names u.

(** [url.search] once the query has been rewritten from the list: an empty
    serialization makes the query null. *)
Definition search (u : URL) : string :=
  match serializeParams (searchParams u) with
  | EmptyString => EmptyString
  | q => "?" +:+ q
  end.

(** [url.hash] *)
Definition hash (u : URL) : string :=
  match fragment u with
  | None | Some EmptyString => EmptyString
  | Some f => "#" +:+ f
  end.

(** [url.href], after at least one [searchParams.delete]. *)
Definition href (u : URL) : string :=
  protocol u +:+ "//" +:+ userinfo u +:+ hostname u +:+
  (if String.eqb (port u) "" then "" else ":" +:+ port u) +:+
  pathname u +:+ search u +:+
  (match fragment u with None => "" | Some f => "#" +:+ f end).

End Url.

Example href_ex :
  Url.href (mkURL "https:" "" "example.com" "" "/a b"
              [("q", "c d"); ("utm_source", "x&y")] (Some "top"))
  = "https://example.com/a b?q=c+d&utm_source=x%26y#top".
Proof. reflexivity. Qed.

Example deleteParams_ex :
  Url.href (Url.deleteParams ["utm_source"; "ref"]
              (mkURL "https:" "" "example.com" "" "/a"
                 [("utm_source", "x"); ("utm_source", "y")] None))
  = "https://example.com/a".
Proof. reflexivity. Qed.

(** ** URL normalisation *)

Module ServiceWorkerUrl.
Section with_parser.

(** [new URL(url)]: [None] when the constructor throws. *)
Variable parseURL : string → option URL.

Definition trackingParams : list string :=
  ["utm_source"; "utm_medium"; "utm_campaign"; "utm_term"; "utm_content";
   "ref"; "source"; "fbclid"; "gclid"].

(** [normalizeUrl] of background/service-worker.js *)
Definition normalizeUrl (url : string) : string :=
  match parseURL url with
  | Some parsed =>
      let parsed := Url.deleteParams trackingParams parsed in
      let normalized := stripTrailingSlashes (Url.href parsed) in
      let normalized := replaceFirst "//x.com/" "//twitter.com/" normalized in
      let normalized := replaceFirst "//www.x.com/" "//twitter.com/" normalized in
      toLowerCase normalized
  | None => toLowerCase url
  end.

End with_parser.
End ServiceWorkerUrl.

Module DedupUrl.
Section with_parser.

Variable parseURL : string → option URL.

Definition TRACKING_PARAMS : list string :=
  ["utm_source"; "utm_medium"; "utm_campaign"; "utm_term"; "utm_content";
   "ref"; "source"; "fbclid"; "gclid"; "mc_cid"; "mc_eid"; "_hsenc"; "_hsmi";
   "trk"; "trkInfo"].

(** [normalizeUrl] of utils/deduplication.js.  A missing or empty
    argument is falsy. *)
Definition normalizeUrl (url : option string) : string :=
  match url with
  | None | Some EmptyString => ""
  | Some url =>
      match parseURL url with
      | Some parsed =>
          let parsed := Url.deleteParams TRACKING_PARAMS parsed in
          let normalized := Url.href parsed in
          let normalized := stripTrailingSlashes normalized in
          let normalized :=
            if endsWith (hostname parsed) normalized then normalized +:+ "/" else normalized in
          let normalized :=
            replaceFirstOf ["//www.twitter.com/"; "//www.x.com/"; "//twitter.com/"; "//x.com/"]
                           "//x.com/" normalized in
          let normalized :=
            replaceFirstOf ["//www.linkedin.com/"; "//linkedin.com/"]
                           "//www.linkedin.com/" normalized in
          let hash := Url.hash parsed in
          let normalized :=
            if negb (String.eqb hash "") && negb (includes "=" hash) && negb (String.prefix "#!" hash)
            then replaceFirst hash "" normalized
            else normalized in
          toLowerCase normalized
      | None => stripTrailingSlashes (toLowerCase url)
      end
  end.

End with_parser.
End DedupUrl.

(** ** A URL parser for plain web addresses

    The theorems on [normalizeUrl] hold for every parser.  To run the
    functions on concrete addresses, [parseHttpUrl] parses the addresses on
    which the platform parser does no more than split and lower-case:
    [http(s)://host/path?query#fragment] over letters, digits and [-._~/=&],
    without credentials, port, escapes or dot segments, with a host name that
    ends in a label of letters.  Everything else is refused. *)

Module PlainUrl.

Definition plain_char (c : ascii) : bool :=
  Url.is_alnum c ||
  existsb (Ascii.eqb c) ["-"; "."; "_"; "~"; "/"; "="; "&"; "?"; "#"]%char.

Definition host_char (c : ascii) : bool :=
  Url.is_alnum c || Ascii.eqb c "-" || Ascii.eqb c ".".

Fixpoint all_chars (p : ascii → bool) (s : string) : bool :=
  match s with
  | EmptyString => true
  | String c r => p c && all_chars p r
  end.

(** Split at the first occurrence of [sep]. *)
Fixpoint cut (sep : ascii) (s : string) : string * option string :=
  match s with
  | EmptyString => (EmptyString, None)
  | String c r =>
      if Ascii.eqb c sep then (EmptyString, Some r)
      else let '(a, b) := cut sep r in (String c a, b)
  end.

Fixpoint split (sep : ascii) (s : string) : list string :=
  match s with
  | EmptyString => [EmptyString]
  | String c r =>
      if Ascii.eqb c sep then EmptyString :: split sep r
      else match split sep r with
           | [] => [String c EmptyString]
           | w :: ws => String c w :: ws
           end
  end.

(** The part after the last dot. *)
Definition last_label (host : string) : string := List.last (split "." host) EmptyString.

Definition parseQuery (q : string) : list (string * string) :=
  map (fun w => let '(n, v) := cut "=" w in (n, default EmptyString v))
      (filter (fun w => w ≠ EmptyString) (split "&" q)).

Definition parseAfterScheme (proto rest : string) : option URL :=
  let '(r1, frag) := cut "#" rest in
  let '(r2, query) := cut "?" r1 in
  let '(host, path) := cut "/" r2 in
  let host := toLowerCase host in
  if all_chars plain_char rest && all_chars host_char host
     && negb (String.eqb (last_label host) EmptyString) && all_chars is_lower (last_label host)
     && negb (includes "--" host)
     && negb (includes "/." ("/" +:+ default EmptyString path))
  then Some (mkURL proto "" host "" ("/" +:+ default EmptyString path)
                   (parseQuery (default EmptyString query)) frag)
  else None.

Definition parseHttpUrl (s : string) : option URL :=
  if String.prefix "https://" (toLowerCase s)
  then parseAfterScheme "https:" (String.substring 8 (String.length s - 8) s)
  else if String.prefix "http://" (toLowerCase s)
  then parseAfterScheme "http:" (String.substring 7 (String.length s - 7) s)
  else None.

End PlainUrl.

Import PlainUrl.

Example parseHttpUrl_ex1 :
  parseHttpUrl "https://X.com/Some/Path/?utm_source=a&q=1#top"
  = Some (mkURL "https:" "" "x.com" "" "/Some/Path/" [("utm_source", "a"); ("q", "1")] (Some "top")).
Proof. reflexivity. Qed.
Example parseHttpUrl_ex2 :
  parseHttpUrl "https://x.com" = Some (mkURL "https:" "" "x.com" "" "/" [] None).
Proof. reflexivity. Qed.
Example parseHttpUrl_ex3 : parseHttpUrl "not a url" = None.
Proof. reflexivity. Qed.

Example sw_normalizeUrl_ex1 :
  ServiceWorkerUrl.normalizeUrl parseHttpUrl "https://x.com/Alice/status/1/?utm_source=a&ref=b"
  = "https://twitter.com/alice/status/1".
Proof. vm_compute. reflexivity. Qed.
Example sw_normalizeUrl_ex2 :
  ServiceWorkerUrl.normalizeUrl parseHttpUrl "https://www.x.com/alice?q=1&fbclid=zz"
  = "https://twitter.com/alice?q=1".
Proof. vm_compute. reflexivity. Qed.
Example dedup_normalizeUrl_ex1 :
  DedupUrl.normalizeUrl parseHttpUrl (Some "https://twitter.com/Alice/status/1/?utm_source=a&trk=b#frag")
  = "https://x.com/alice/status/1/".
Proof. vm_compute. reflexivity. Qed.
Example dedup_normalizeUrl_ex2 :
  DedupUrl.normalizeUrl parseHttpUrl (Some "https://linkedin.com/") = "https://www.linkedin.com/".
Proof. vm_compute. reflexivity. Qed.

(** Addresses that differ only by tracking parameters. *)
Definition same_but_params (names : list string) (u1 u2 : URL) : Prop :=
  protocol u1 = protocol u2 ∧ userinfo u1 = userinfo u2 ∧ hostname u1 = hostname u2 ∧
  port u1 = port u2 ∧ pathname u1 = pathname u2 ∧ fragment u1 = fragment u2 ∧
  filter (fun p => p.1 ∉ names) (searchParams u1) = filter (fun p => p.1 ∉ names) (searchParams u2).

Lemma deleteParams_filter names u :
  Url.deleteParams names u =
  mkURL (protocol u) (userinfo u) (hostname u) (port u) (pathname u)
        (filter (fun p => p.1 ∉ names) (searchParams u)) (fragment u).
Proof.
  unfold Url.deleteParams. revert u.
  induction names as [|n names IH]; intros [pr ui h po pa sp fr]; simpl.
  - f_equal. induction sp as [|p sp IHsp]; [done|].
    rewrite filter_cons. destruct (decide (p.1 ∉ [])) as [_|Hn]; [by f_equal|].
    destruct Hn. apply not_elem_of_nil.
  - rewrite IH. unfold Url.deleteParam. simpl. f_equal.
    induction sp as [|p sp IHsp]; [done|].
    rewrite !filter_cons.
    destruct (decide (p.1 ≠ n)) as [Hne|Heq].
    + rewrite filter_cons.
      destruct (decide (p.1 ∉ names)) as [Hni|Hi];
        destruct (decide (p.1 ∉ n :: names)) as [Hni'|Hi']; try by f_equal.
      * destruct Hi'. rewrite not_elem_of_cons. done.
      * destruct Hi. by apply not_elem_of_cons in Hni' as [_ ?].
    + destruct (decide (p.1 ∉ n :: names)) as [Hni'|Hi']; [|done].
      destruct Heq. by apply not_elem_of_cons in Hni' as [? _].
Qed.

Lemma deleteParams_same_but_params names u1 u2 :
  same_but_params names u1 u2 → Url.deleteParams names u1 = Url.deleteParams names u2.
Proof.
  intros (? & ? & ? & ? & ? & ? & ?). rewrite !deleteParams_filter. congruence.
Qed.

(** Tracking parameters do not matter, for either implementation and for
    every parser. *)
Lemma sw_normalizeUrl_tracking parseURL u1 u2 p1 p2 :
  parseURL u1 = Some p1 → parseURL u2 = Some p2 →
  same_but_params ServiceWorkerUrl.trackingParams p1 p2 →
  ServiceWorkerUrl.normalizeUrl parseURL u1 = ServiceWorkerUrl.normalizeUrl parseURL u2.
Proof.
  intros H1 H2 Hs. unfold ServiceWorkerUrl.normalizeUrl. rewrite H1, H2.
  by rewrite (deleteParams_same_but_params _ _ _ Hs).
Qed.

Lemma dedup_normalizeUrl_tracking parseURL u1 u2 p1 p2 :
  u1 ≠ "" → u2 ≠ "" →
  parseURL u1 = Some p1 → parseURL u2 = Some p2 →
  same_but_params DedupUrl.TRACKING_PARAMS p1 p2 →
  DedupUrl.normalizeUrl parseURL (Some u1) = DedupUrl.normalizeUrl parseURL (Some u2).
Proof.
  intros Hn1 Hn2 H1 H2 Hs. unfold DedupUrl.normalizeUrl.
  destruct u1; [done|]. destruct u2; [done|]. rewrite H1, H2.
  by rewrite (deleteParams_same_but_params _ _ _ Hs).
Qed.

(** C4. At the root of the site the service worker does not bring
    [x.com] and [twitter.com] to one form: the trailing slash is removed
    before the host is rewritten, and the rewrite looks for the host followed
    by a slash.  The deduplication utility restores the slash of the root
    and yields one form. *)
Theorem normalizeUrl_root_host_form :
  ServiceWorkerUrl.normalizeUrl parseHttpUrl "https://x.com/" = "https://x.com" ∧
  ServiceWorkerUrl.normalizeUrl parseHttpUrl "https://twitter.com/" = "https://twitter.com" ∧
  DedupUrl.normalizeUrl parseHttpUrl (Some "https://x.com/") = "https://x.com/" ∧
  DedupUrl.normalizeUrl parseHttpUrl (Some "https://twitter.com/") = "https://x.com/".
Proof. vm_compute. done. Qed.

(** ** JavaScript objects used as dictionaries *)

Module JsObject.

Definition jsobj (V : Type) : Type := list (string * V).

(** What a property read yields: an own value, a member inherited from
    [Object.prototype] (a function, or the prototype itself for
    [__proto__]), or [undefined]. *)
Inductive property (V : Type) : Type :=
  | Own (v : V)
  | Inherited
  | Undefined.
Global Arguments Own {V} v.
Global Arguments Inherited {V}.
Global Arguments Undefined {V}.

Definition objectPrototypeKeys : list string :=
  ["constructor"; "__proto__"; "hasOwnProperty"; "isPrototypeOf";
   "propertyIsEnumerable"; "toLocaleString"; "toString"; "valueOf";
   "__defineGetter__"; "__defineSetter__"; "__lookupGetter__"; "__lookupSetter__"].

Fixpoint own {V} (o : jsobj V) (k : string) : option V :=
  match o with
  | [] => None
  | (k', v) :: r => if String.eqb k' k then Some v else own r k
  end.

(** [o[k]] *)
Definition get {V} (o : jsobj V) (k : string) : property V :=
  match own o k with
  | Some v => Own v
  | None => if bool_decide (k ∈ objectPrototypeKeys) then Inherited else Undefined
  end.

(** [Object.keys(o)] *)
Definition keys {V} (o : jsobj V) : list string := o.*1.

Fixpoint digits_value (s : string) (acc : N) : N :=
  match s with
  | EmptyString => acc
  | String c r => digits_value r (10 * acc + (N_of_ascii c - 48))
  end.

(** An array index: the canonical decimal numeral of an integer below
    [2^32 - 1].  Such keys are enumerated first, in numeric order. *)
Definition array_index (k : string) : option N :=
  match k with
  | EmptyString => None
  | String c r =>
      if all_chars Url.is_digit k
         && (negb (Ascii.eqb c "0") || String.eqb r "")
         && (String.length k <=? 10)%nat
         && (digits_value k 0 <? 4294967295)%N
      then Some (digits_value k 0)
      else None
  end.

Fixpoint replace_own {V} (k : string) (v : V) (o : jsobj V) : jsobj V :=
  match o with
  | [] => []
  | (k', v') :: r => if String.eqb k' k then (k', v) :: r else (k', v') :: replace_own k v r
  end.

Fixpoint insert_index {V} (n : N) (k : string) (v : V) (o : jsobj V) : jsobj V :=
  match o with
  | [] => [(k, v)]
  | (k', v') :: r =>
      match array_index k' with
      | Some m => if (m <? n)%N then (k', v') :: insert_index n k v r else (k, v) :: o
      | None => (k, v) :: o
      end
  end.

(** [o[k] = v], for every key but a [__proto__] that [o] does not own:
    that one assignment reaches the setter of [Object.prototype]. *)
Definition set {V} (o : jsobj V) (k : string) (v : V) : jsobj V :=
  match own o k with
  | Some _ => replace_own k v o
  | None =>
      match array_index k with
      | Some n => insert_index n k v o
      | None => o ++ [(k, v)]
      end
  end.

(** An object that owns no key [__proto__]. *)
Definition plain {V} (o : jsobj V) : Prop := own o "__proto__" = None.

End JsObject.

Import JsObject.

Example array_index_ex :
  array_index "2024" = Some 2024%N ∧ array_index "007" = None ∧ array_index "0" = Some 0%N ∧
  array_index "4294967295" = None ∧ array_index "c++" = None ∧ array_index "3d" = None.
Proof. vm_compute. done. Qed.

Example set_order_ex :
  keys (set (set (set (set [] "b" 1) "10" 2) "a" 3) "9" 4) = ["9"; "10"; "b"; "a"].
Proof. reflexivity. Qed.

Example get_ex :
  get (set [] "ai" [1]) "ai" = Own [1] ∧
  get (set [] "ai" [1]) "ml" = Undefined ∧
  get (set [] "ai" [1]) "constructor" = Inherited.
Proof. vm_compute. done. Qed.

(** ** Exceptions *)

Inductive exn : Type :=
  | TypeError
  | Error (message : string).

Inductive result (A : Type) : Type :=
  | Ok (a : A)
  | Throw (e : exn).
Global Arguments Ok {A} a.
Global Arguments Throw {A} e.

Global Instance result_bind : MBind result := fun A B f m =>
  match m with
  | Ok a => f a
  | Throw e => Throw e
  end.

(** ** The index document *)

(** An entry of a topic's reference list: a string, or [undefined] when
    [getAuthorRef] finds no name. *)
Definition reference : Type := option string.

Record Content := mkContent {
  c_url : string;
  c_title : option string;
  c_text : option string;
  c_summary : option string;
  c_date_published : option string;
  c_date : option string;
  c_date_saved : option string;
  c_topics : option (list string)
}.

Record Author := mkAuthor {
  handle : option string;
  profile_url : option string;
  url : option string;
  name : option string;
  source : option string;
  author : option string;
  topics : option (list string);
  saved_posts : option (list Content);
  saved_articles : option (list Content)
}.

Record KB := mkKB {
  version : option N;
  last_updated : option string;
  favorite_authors : option (jsobj (list Author));
  topic_index : option (jsobj (list reference))
}.

Definition set_date_saved (c : Content) (d : string) : Content :=
  mkContent (c_url c) (c_title c) (c_text c) (c_summary c) (c_date_published c) (c_date c)
            (Some d) (c_topics c).

Definition set_content_topics (c : Content) (t : option (list string)) : Content :=
  mkContent (c_url c) (c_title c) (c_text c) (c_summary c) (c_date_published c) (c_date c)
            (c_date_saved c) t.

Definition set_topics (a : Author) (t : list string) : Author :=
  mkAuthor (handle a) (profile_url a) (url a) (name a) (source a) (author a) (Some t)
           (saved_posts a) (saved_articles a).

Definition set_saved_posts (a : Author) (l : list Content) : Author :=
  mkAuthor (handle a) (profile_url a) (url a) (name a) (source a) (author a) (topics a)
           (Some l) (saved_articles a).

Definition set_saved_articles (a : Author) (l : list Content) : Author :=
  mkAuthor (handle a) (profile_url a) (url a) (name a) (source a) (author a) (topics a)
           (saved_posts a) (Some l).

Definition set_favorite_authors (kb : KB) (fa : jsobj (list Author)) : KB :=
  mkKB (version kb) (last_updated kb) (Some fa) (topic_index kb).

Definition set_topic_index (kb : KB) (ti : jsobj (list reference)) : KB :=
  mkKB (version kb) (last_updated kb) (favorite_authors kb) (Some ti).

(** The order of [Array.prototype.sort()] without a comparator: strings by
    code unit, [undefined] last. *)
Definition ref_le (a b : reference) : Prop :=
  match a, b with
  | _, None => True
  | None, Some _ => False
  | Some x, Some y => String.le x y
  end.

Global Instance ref_le_dec : RelDecision ref_le.
Proof. intros [x|] [y|]; simpl; apply _. Defined.

(** [Array.prototype.sort()] on strings. *)
Definition sortStrings (l : list string) : list string := merge_sort String.le l.

(** [Array.prototype.sort()] on references. *)
Definition sortRefs (l : list reference) : list reference := merge_sort ref_le l.

(** [Array.from(new Set(l))]: the elements in order of first occurrence. *)
Definition arrayFromSet (l : list string) : list string :=
  fold_left (fun acc x => if bool_decide (x ∈ acc) then acc else acc ++ [x]) l [].

Example sortStrings_ex : sortStrings ["b"; "10"; "a"; "9"; ".net"] = [".net"; "10"; "9"; "a"; "b"].
Proof. vm_compute. reflexivity. Qed.
Example sortRefs_ex : sortRefs [None; Some "b"; Some "@a"] = [Some "@a"; Some "b"; None].
Proof. vm_compute. reflexivity. Qed.
Example arrayFromSet_ex : arrayFromSet ["ai"; "ml"; "ai"; "rust"; "ml"] = ["ai"; "ml"; "rust"].
Proof. vm_compute. reflexivity. Qed.

(** ** The mutation engine of background/service-worker.js *)

(** The value handed to [findAuthor] as the identity to look for. *)
Inductive identifier : Type :=
  | IdString (s : string)
  | IdUndefined
  | IdNull
  | IdObject (id_name id_source : option string).

Record outcome := mkOutcome { success : bool; reason : option string }.

Module ServiceWorker.
Section engine.

Variable parseURL : string → option URL.

Definition normalizeUrl : string → string := ServiceWorkerUrl.normalizeUrl parseURL.
Definition normalizeHandle : string → string := ServiceWorkerHandle.normalizeHandle.

(** A field read that must be a string for the method call on it to
    succeed: [undefined.replace] and [undefined.toLowerCase] throw. *)
Definition field (f : option string) : result string :=
  match f with
  | Some s => Ok s
  | None => Throw TypeError
  end.

Definition id_string (id : identifier) : result string :=
  match id with
  | IdString s => Ok s
  | _ => Throw TypeError
  end.

(** The test of one author in the loop of [findAuthor]. *)
Definition sameAuthor (platform : string) (a : Author) (id : identifier) : result bool :=
  if String.eqb platform "x" then
    l ← field (handle a); r ← id_string id;
    Ok (String.eqb (normalizeHandle l) (normalizeHandle r))
  else if String.eqb platform "linkedin" then
    l ← field (profile_url a); r ← id_string id;
    Ok (String.eqb (normalizeUrl l) (normalizeUrl r))
  else if String.eqb platform "substack" then
    l ← field (url a); r ← id_string id;
    Ok (String.eqb (normalizeUrl l) (normalizeUrl r))
  else if String.eqb platform "generic_web" then
    match id with
    | IdObject n s =>
        Ok (bool_decide (toLowerCase <$> name a = toLowerCase <$> n)
            && bool_decide (toLowerCase <$> source a = toLowerCase <$> s))
    | IdString _ =>
        Ok (bool_decide (toLowerCase <$> name a = None)
            && bool_decide (toLowerCase <$> source a = None))
    | IdUndefined | IdNull => Throw TypeError
    end
  else Ok false.

Fixpoint findFrom (platform : string) (id : identifier) (authors : list Author) (i : nat)
  : result (option nat) :=
  match authors with
  | [] => Ok None
  | a :: rest =>
      match sameAuthor platform a id with
      | Ok true => Ok (Some i)
      | Ok false => findFrom platform id rest (S i)
      | Throw e => Throw e
      end
  end.

(** [kb.favorite_authors?.[platform] || []], then iterated: an inherited
    member is not iterable. *)
Definition authorsOf (kb : KB) (platform : string) : result (list Author) :=
  match favorite_authors kb with
  | None => Ok []
  | Some fa =>
      match get fa platform with
      | Own l => Ok l
      | Undefined => Ok []
      | Inherited => Throw TypeError
      end
  end.

(** [findAuthor]: the position of the author found in the list of the
    platform, for the reference to the author object that the code returns. *)
Definition findAuthor (kb : KB) (platform : string) (id : identifier) : result (option nat) :=
  authors ← authorsOf kb platform;
  findFrom platform id authors 0.

Definition contentKey (platform : string) : bool :=
  String.eqb platform "x" || String.eqb platform "linkedin".

(** [author[contentKey]], [true] for [saved_posts]. *)
Definition contentOf (platform : string) (a : Author) : option (list Content) :=
  if contentKey platform then saved_posts a else saved_articles a.

Definition set_contentOf (platform : string) (a : Author) (l : list Content) : Author :=
  if contentKey platform then set_saved_posts a l else set_saved_articles a l.

(** [contentExists] *)
Definition contentExists (a : Author) (url : string) (platform : string) : bool :=
  let savedContent := default [] (contentOf platform a) in
  let normalizedUrl := normalizeUrl url in
  existsb (fun item => String.eqb (normalizeUrl (c_url item)) normalizedUrl) savedContent.

(** [getAuthorIdentifier] *)
Definition getAuthorIdentifier (platform : string) (authorData : Author) : identifier :=
  let read f := match f with Some s => IdString s | None => IdUndefined end in
  if String.eqb platform "x" then read (handle authorData)
  else if String.eqb platform "linkedin" then read (profile_url authorData)
  else if String.eqb platform "substack" then read (url authorData)
  else if String.eqb platform "generic_web" then IdObject (name authorData) (source authorData)
  else IdNull.

(** [addOrUpdateAuthor].  The document is changed in place, so it is
    returned also when the call throws; the author of the result is given
    by its position in the list of the platform. *)
Definition addOrUpdateAuthor (kb : KB) (platform : string) (authorData : Author)
  : KB * result (nat * bool) :=
  let fa := default [] (favorite_authors kb) in
  let fa := match get fa platform with
            | Undefined => set fa platform []
            | _ => fa
            end in
  let kb := set_favorite_authors kb fa in
  match findAuthor kb platform (getAuthorIdentifier platform authorData) with
  | Throw e => (kb, Throw e)
  | Ok (Some i) =>
      let authors := default [] (own fa platform) in
      match authors !! i, topics authorData with
      | Some existingAuthor, Some incoming =>
          let allTopics := arrayFromSet (default [] (topics existingAuthor) ++ incoming) in
          (set_favorite_authors kb
             (set fa platform (<[i := set_topics existingAuthor allTopics]> authors)),
           Ok (i, false))
      | _, _ => (kb, Ok (i, false))
      end
  | Ok None =>
      let authors := default [] (own fa platform) in
      (set_favorite_authors kb (set fa platform (authors ++ [authorData])),
       Ok (length authors, true))
  end.

(** [addContent], at the date [today]. *)
Definition addContent (today : string) (a : Author) (platform : string) (contentData : Content)
  : Author * outcome :=
  let a := match contentOf platform a with
           | None => set_contentOf platform a []
           | Some _ => a
           end in
  if contentExists a (c_url contentData) platform
  then (a, mkOutcome false (Some "duplicate"))
  else (set_contentOf platform a
          (default [] (contentOf platform a) ++ [set_date_saved contentData today]),
        mkOutcome true None).

(** One round of the loop of [updateTopicIndex]. *)
Definition addReference (authorRef : reference) (ti : jsobj (list reference)) (topic : string)
  : result (jsobj (list reference)) :=
  let ti := match get ti topic with
            | Undefined => set ti topic []
            | _ => ti
            end in
  match get ti topic with
  | Own refs =>
      if bool_decide (authorRef ∈ refs) then Ok ti
      else Ok (set ti topic (sortRefs (refs ++ [authorRef])))
  | _ => Throw TypeError
  end.

Fixpoint addReferences (authorRef : reference) (ti : jsobj (list reference)) (topics : list string)
  : jsobj (list reference) * result unit :=
  match topics with
  | [] => (ti, Ok ())
  | topic :: rest =>
      match addReference authorRef ti topic with
      | Ok ti' => addReferences authorRef ti' rest
      | Throw e => (ti, Throw e)
      end
  end.

(** The own properties of the object rebuilt key by key, in the order of
    the sorted keys.  On the fresh object, [sortedIndex['__proto__'] = refs]
    sets the prototype and defines no key; the prototype that the object
    has from then on is followed by [InMemory.updateTopicIndex]. *)
Definition sortKeys (ti : jsobj (list reference)) : jsobj (list reference) :=
  fold_left (fun sortedIndex key =>
               match own ti key with
               | Some refs =>
                   if String.eqb key "__proto__" then sortedIndex
                   else set sortedIndex key refs
               | None => sortedIndex
               end)
            (sortStrings (keys ti)) [].

(** [updateTopicIndex] on a document, as every call of the program
    receives it from [readKB]: the document that the call leaves, and how
    it completes. *)
Definition updateTopicIndex (kb : KB) (topics : list string) (authorRef : reference)
  : KB * result unit :=
  let ti := default [] (topic_index kb) in
  match addReferences authorRef ti topics with
  | (ti, Throw e) => (set_topic_index kb ti, Throw e)
  | (ti, Ok _) => (set_topic_index kb (sortKeys ti), Ok ())
  end.

(** [getAuthorRef] *)
Definition getAuthorRef (platform : string) (a : Author) : reference :=
  let truthy f := match f with Some EmptyString | None => None | Some s => Some s end in
  if String.eqb platform "x" then Some ("@" +:+ default "undefined" (handle a))
  else if String.eqb platform "linkedin" then name a
  else if String.eqb platform "substack" then
    match truthy (name a) with Some n => Some n | None => author a end
  else if String.eqb platform "generic_web" then name a
  else match truthy (name a) with Some n => Some n | None => Some "Unknown" end.

End engine.
End ServiceWorker.

(** ** Properties of objects *)

Section jsobj_facts.
Context {V : Type}.
Implicit Types (o : jsobj V) (k : string) (v : V).

Lemma own_app o1 o2 k :
  own (o1 ++ o2) k = match own o1 k with Some v => Some v | None => own o2 k end.
Proof.
  induction o1 as [|[k' v'] o1 IH]; simpl; [done|].
  destruct (String.eqb k' k); [done|apply IH].
Qed.

Lemma own_replace_own_eq o k v : is_Some (own o k) → own (replace_own k v o) k = Some v.
Proof.
  induction o as [|[k' v'] o IH]; simpl; [by intros [? ?]|].
  destruct (String.eqb k' k) eqn:E; simpl; rewrite E; [done|apply IH].
Qed.

Lemma own_replace_own_ne o k k' v : k ≠ k' → own (replace_own k v o) k' = own o k'.
Proof.
  intros Hne. induction o as [|[k0 v0] o IH]; simpl; [done|].
  destruct (String.eqb k0 k) eqn:E; simpl.
  - apply String.eqb_eq in E as ->. apply String.eqb_neq in Hne. by rewrite Hne.
  - destruct (String.eqb k0 k'); [done|apply IH].
Qed.

Lemma own_insert_index_eq n o k v : own o k = None → own (insert_index n k v o) k = Some v.
Proof.
  induction o as [|[k' v'] o IH]; simpl.
  - by rewrite String.eqb_refl.
  - destruct (String.eqb k' k) eqn:E; [done|]. intros Ho.
    destruct (array_index k') as [m|]; [destruct (m <? n)%N|]; simpl;
      rewrite ?E, ?String.eqb_refl; auto.
Qed.

Lemma own_insert_index_ne n o k k' v : k ≠ k' → own (insert_index n k v o) k' = own o k'.
Proof.
  intros Hne. apply String.eqb_neq in Hne.
  induction o as [|[k0 v0] o IH]; simpl.
  - by rewrite Hne.
  - destruct (array_index k0) as [m|]; [destruct (m <? n)%N|]; simpl; rewrite ?Hne; try done.
    by rewrite IH.
Qed.

Lemma own_set_eq o k v : own (set o k v) k = Some v.
Proof.
  unfold set. destruct (own o k) as [v0|] eqn:E.
  - apply own_replace_own_eq. by rewrite E.
  - destruct (array_index k) as [n|].
    + by apply own_insert_index_eq.
    + rewrite own_app, E. simpl. by rewrite String.eqb_refl.
Qed.

Lemma own_set_ne o k k' v : k ≠ k' → own (set o k v) k' = own o k'.
Proof.
  intros Hne. unfold set. destruct (own o k) as [v0|] eqn:E.
  - by apply own_replace_own_ne.
  - destruct (array_index k) as [n|].
    + by apply own_insert_index_ne.
    + rewrite own_app. destruct (own o k'); [done|]. simpl.
      apply String.eqb_neq in Hne. by rewrite Hne.
Qed.

Lemma get_set_eq o k v : get (set o k v) k = Own v.
Proof. unfold get. by rewrite own_set_eq. Qed.

Lemma get_set_ne o k k' v : k ≠ k' → get (set o k v) k' = get o k'.
Proof. intros. unfold get. by rewrite own_set_ne. Qed.

Lemma get_Own o k v : get o k = Own v ↔ own o k = Some v.
Proof.
  unfold get. destruct (own o k); [|case_bool_decide]; split; congruence.
Qed.

Lemma replace_own_same o k v : own o k = Some v → replace_own k v o = o.
Proof.
  induction o as [|[k' v'] o IH]; simpl; [done|].
  destruct (String.eqb k' k) eqn:E; [congruence|]. intros. by rewrite IH.
Qed.

Lemma set_same o k v : own o k = Some v → set o k v = o.
Proof. intros H. unfold set. rewrite H. by apply replace_own_same. Qed.

End jsobj_facts.

(** ** Upsert of an author *)

(** The platforms of the index document. *)
Definition platforms : list string := ["x"; "linkedin"; "substack"; "generic_web"].

Section upsert.

Variable parseURL : string → option URL.
Abbreviation findFrom := (ServiceWorker.findFrom parseURL).
Abbreviation sameAuthor := (ServiceWorker.sameAuthor parseURL).
Abbreviation addOrUpdateAuthor := (ServiceWorker.addOrUpdateAuthor parseURL).

Lemma unknown_platform_eqb p :
  p ∉ platforms →
  String.eqb p "x" = false ∧ String.eqb p "linkedin" = false ∧
  String.eqb p "substack" = false ∧ String.eqb p "generic_web" = false.
Proof.
  unfold platforms. rewrite !not_elem_of_cons. intros (? & ? & ? & ? & _).
  by rewrite !String.eqb_neq.
Qed.

Lemma sameAuthor_unknown p a id : p ∉ platforms → sameAuthor p a id = Ok false.
Proof.
  intros (H1 & H2 & H3 & H4)%unknown_platform_eqb.
  unfold ServiceWorker.sameAuthor. by rewrite H1, H2, H3, H4.
Qed.

Lemma findFrom_unknown p id authors i : p ∉ platforms → findFrom p id authors i = Ok None.
Proof.
  intros Hp. revert i. induction authors as [|a rest IH]; intros i; simpl; [done|].
  by rewrite sameAuthor_unknown.
Qed.

(** C1, as the code has it.  No platform is refused as unknown.  For a
    platform outside the four of the document, no author is ever found:
    the list of the platform is created when it is missing and the author
    is appended to it, with [isNew: true].  Only a platform named like a
    member of [Object.prototype] ends in a [TypeError], since the member
    read in place of the list is not iterable. *)
Theorem addOrUpdateAuthor_unknown_platform (kb : KB) (platform : string) (authorData : Author) :
  platform ∉ platforms →
  let fa := default [] (favorite_authors kb) in
  addOrUpdateAuthor kb platform authorData =
  match get fa platform with
  | Own authors =>
      (set_favorite_authors kb (set fa platform (authors ++ [authorData])),
       Ok (length authors, true))
  | Undefined =>
      (set_favorite_authors kb (set (set fa platform []) platform [authorData]),
       Ok (0, true))
  | Inherited => (set_favorite_authors kb fa, Throw TypeError)
  end.
Proof.
  intros Hp fa. unfold ServiceWorker.addOrUpdateAuthor. fold fa.
  unfold ServiceWorker.findAuthor, ServiceWorker.authorsOf. simpl.
  destruct (get fa platform) as [authors| |] eqn:Hget.
  - rewrite Hget. simpl. rewrite findFrom_unknown by done.
    apply get_Own in Hget. by rewrite Hget.
  - by rewrite Hget.
  - rewrite get_set_eq. simpl. by rewrite own_set_eq.
Qed.

End upsert.

Definition emptyKB : KB := mkKB (Some 1%N) (Some "2026-01-12") None None.

Definition anAuthor (n : string) : Author :=
  mkAuthor None None None (Some n) None None (Some ["ai"]) None None.

Lemma addOrUpdateAuthor_unknown_platform_witness :
  ServiceWorker.addOrUpdateAuthor parseHttpUrl emptyKB "mastodon" (anAuthor "Ada") =
  (set_favorite_authors emptyKB [("mastodon", [anAuthor "Ada"])], Ok (0, true)).
Proof.
  refine (addOrUpdateAuthor_unknown_platform parseHttpUrl emptyKB "mastodon" (anAuthor "Ada") _).
  apply (bool_decide_unpack _). vm_compute. exact I.
Defined.

(** C1, against the claim: the platform [mastodon] is not refused, and the
    author is stored under it. *)
Lemma addOrUpdateAuthor_accepts_mastodon :
  ("mastodon" ∉ platforms) ∧
  (ServiceWorker.addOrUpdateAuthor parseHttpUrl emptyKB "mastodon" (anAuthor "Ada")).2 = Ok (0, true) ∧
  own (default [] (favorite_authors
        (ServiceWorker.addOrUpdateAuthor parseHttpUrl emptyKB "mastodon" (anAuthor "Ada")).1))
      "mastodon" = Some [anAuthor "Ada"].
Proof. split; [apply (bool_decide_unpack _); vm_compute; exact I|]. vm_compute. done. Qed.

Example addOrUpdateAuthor_constructor :
  (ServiceWorker.addOrUpdateAuthor parseHttpUrl emptyKB "constructor" (anAuthor "Ada")).2
  = Throw TypeError.
Proof. reflexivity. Qed.

(** ** Appending content *)

Section content.

Variable parseURL : string → option URL.
Variable today : string.
Abbreviation normalizeUrl := (ServiceWorker.normalizeUrl parseURL).
Abbreviation contentExists := (ServiceWorker.contentExists parseURL).
Abbreviation addContent := (ServiceWorker.addContent parseURL today).
Abbreviation contentOf := ServiceWorker.contentOf.
Abbreviation set_contentOf := ServiceWorker.set_contentOf.

(** The stored items of the author whose address has the normal form of [url]. *)
Definition storedAs (url : string) (platform : string) (a : Author) : list Content :=
  filter (fun item => normalizeUrl (c_url item) = normalizeUrl url)
         (default [] (contentOf platform a)).

Lemma contentOf_set platform a l : contentOf platform (set_contentOf platform a l) = Some l.
Proof.
  unfold ServiceWorker.contentOf, ServiceWorker.set_contentOf.
  by destruct (ServiceWorker.contentKey platform).
Qed.

Lemma contentExists_iff a url platform :
  contentExists a url platform = true ↔
  ∃ item, item ∈ default [] (contentOf platform a) ∧ normalizeUrl (c_url item) = normalizeUrl url.
Proof.
  unfold ServiceWorker.contentExists. rewrite existsb_exists. split.
  - intros (item & Hin & Heq). exists item. split; [by apply list_elem_of_In|by apply String.eqb_eq].
  - intros (item & Hin & Heq). exists item. split; [by apply list_elem_of_In|by apply String.eqb_eq].
Qed.

Lemma contentExists_same_form a u1 u2 platform :
  normalizeUrl u1 = normalizeUrl u2 → contentExists a u1 platform = contentExists a u2 platform.
Proof. intros H. unfold ServiceWorker.contentExists. by rewrite H. Qed.

(** A duplicate leaves the author as it is. *)
Lemma addContent_duplicate a platform c :
  contentExists a (c_url c) platform = true →
  addContent a platform c = (a, mkOutcome false (Some "duplicate")).
Proof.
  intros Hex. unfold ServiceWorker.addContent.
  destruct (contentOf platform a) as [l|] eqn:Hl.
  - by rewrite Hex.
  - exfalso. apply contentExists_iff in Hex as (item & Hin & _).
    rewrite Hl in Hin. simpl in Hin. by apply elem_of_nil in Hin.
Qed.

(** A new address is stamped with the date and appended. *)
Lemma addContent_new a platform c :
  contentExists a (c_url c) platform = false →
  addContent a platform c =
  (set_contentOf platform a (default [] (contentOf platform a) ++ [set_date_saved c today]),
   mkOutcome true None).
Proof.
  intros Hex. unfold ServiceWorker.addContent.
  destruct (contentOf platform a) as [l|] eqn:Hl.
  - rewrite Hex. simpl. by rewrite Hl.
  - assert (contentExists (set_contentOf platform a []) (c_url c) platform = false) as ->.
    { unfold ServiceWorker.contentExists. by rewrite contentOf_set. }
    rewrite contentOf_set. simpl.
    unfold ServiceWorker.set_contentOf. by destruct (ServiceWorker.contentKey platform).
Qed.

(** C2. Two calls of [addContent] for the same normal form of the address,
    under the same author.  The second call answers [duplicate] and leaves
    the author as the first call left it.  When the address was not stored
    before, the first call answers success, appends the item stamped with
    the current date, and after both calls exactly one stored item has
    that address. *)
Theorem addContent_twice (a : Author) (platform : string) (c1 c2 : Content) :
  normalizeUrl (c_url c1) = normalizeUrl (c_url c2) →
  let first := addContent a platform c1 in
  let second := addContent first.1 platform c2 in
  (second.2 = mkOutcome false (Some "duplicate") ∧ second.1 = first.1) ∧
  (contentExists a (c_url c1) platform = false →
   first.2 = mkOutcome true None ∧
   contentOf platform first.1
     = Some (default [] (contentOf platform a) ++ [set_date_saved c1 today]) ∧
   c_date_saved (set_date_saved c1 today) = Some today ∧
   length (storedAs (c_url c1) platform second.1) = 1).
Proof.
  intros Hsame first second.
  assert (contentExists first.1 (c_url c2) platform = true) as Hdup.
  { subst first. destruct (contentExists a (c_url c1) platform) eqn:Hex.
    - rewrite addContent_duplicate by done. simpl.
      by rewrite <- (contentExists_same_form a _ _ platform Hsame).
    - rewrite addContent_new by done. simpl.
      apply contentExists_iff. exists (set_date_saved c1 today).
      rewrite contentOf_set. simpl. split; [|done].
      apply elem_of_app. right. apply list_elem_of_singleton. done. }
  assert (second = (first.1, mkOutcome false (Some "duplicate"))) as Hsecond.
  { subst second. by apply addContent_duplicate. }
  split; [by rewrite Hsecond|].
  intros Hnew. rewrite Hsecond. subst first. rewrite addContent_new by done. simpl.
  rewrite contentOf_set. repeat split.
  unfold storedAs. rewrite contentOf_set. simpl.
  rewrite filter_app, length_app.
  assert (filter (fun item => normalizeUrl (c_url item) = normalizeUrl (c_url c1))
            (default [] (contentOf platform a)) = []) as ->.
  { destruct (filter _ _) as [|item rest] eqn:Hf; [done|]. exfalso.
    assert (item ∈ item :: rest) as Hin by apply list_elem_of_here.
    rewrite <- Hf in Hin. apply list_elem_of_filter in Hin as [Heq Hin].
    assert (contentExists a (c_url c1) platform = true) as Hex; [|congruence].
    apply contentExists_iff. by exists item. }
  by rewrite (filter_singleton_True _ _ []).
Qed.

End content.

Definition alice : Author :=
  mkAuthor (Some "alice") None None (Some "Alice") None None (Some ["ai"]) None None.

Definition tweet (u : string) : Content :=
  mkContent u None (Some "hello") None None None None (Some ["ai"]).

Lemma addContent_twice_witness :
  let first := ServiceWorker.addContent parseHttpUrl "2026-02-22" alice "x"
                 (tweet "https://x.com/alice/status/1?utm_source=share") in
  let second := ServiceWorker.addContent parseHttpUrl "2026-02-22" first.1 "x"
                  (tweet "https://twitter.com/Alice/status/1/") in
  first.2 = mkOutcome true None ∧
  second.2 = mkOutcome false (Some "duplicate") ∧
  second.1 = first.1 ∧
  saved_posts second.1
    = Some [set_date_saved (tweet "https://x.com/alice/status/1?utm_source=share") "2026-02-22"].
Proof.
  destruct (addContent_twice parseHttpUrl "2026-02-22" alice "x"
              (tweet "https://x.com/alice/status/1?utm_source=share")
              (tweet "https://twitter.com/Alice/status/1/")) as [[Hr2 Ha2] Hnew].
  { vm_compute. reflexivity. }
  destruct Hnew as (Hr1 & Hl1 & _ & _).
  { vm_compute. reflexivity. }
  repeat split; assumption.
Defined.

(** ** The union of topics *)

Lemma arrayFromSet_fold_elem (l acc : list string) (x : string) :
  x ∈ fold_left (fun acc x => if bool_decide (x ∈ acc) then acc else acc ++ [x]) l acc
  ↔ x ∈ acc ∨ x ∈ l.
Proof.
  revert acc. induction l as [|y l IH]; intros acc; simpl.
  - rewrite elem_of_nil. tauto.
  - rewrite IH, elem_of_cons. case_bool_decide as Hy.
    + split; [tauto|]. intros [?|[->|?]]; auto.
    + rewrite elem_of_app, list_elem_of_singleton. tauto.
Qed.

Lemma elem_of_arrayFromSet (l : list string) (x : string) : x ∈ arrayFromSet l ↔ x ∈ l.
Proof.
  unfold arrayFromSet. rewrite arrayFromSet_fold_elem, elem_of_nil. tauto.
Qed.

Lemma arrayFromSet_fold_NoDup (l acc : list string) :
  NoDup acc →
  NoDup (fold_left (fun acc x => if bool_decide (x ∈ acc) then acc else acc ++ [x]) l acc).
Proof.
  revert acc. induction l as [|y l IH]; intros acc Hacc; simpl; [done|].
  apply IH. case_bool_decide as Hy; [done|].
  apply NoDup_app. split; [done|]. split; [|apply NoDup_singleton].
  intros x Hx ->%list_elem_of_singleton. done.
Qed.

Lemma NoDup_arrayFromSet (l : list string) : NoDup (arrayFromSet l).
Proof. apply arrayFromSet_fold_NoDup, NoDup_nil_2. Qed.

(** ** Finding and upserting an author *)

(** The authors stored under a platform. *)
Definition authorsAt (kb : KB) (platform : string) : list Author :=
  default [] (own (default [] (favorite_authors kb)) platform).

Section find.

Variable parseURL : string → option URL.
Abbreviation findFrom := (ServiceWorker.findFrom parseURL).
Abbreviation sameAuthor := (ServiceWorker.sameAuthor parseURL).
Abbreviation findAuthor := (ServiceWorker.findAuthor parseURL).
Abbreviation addOrUpdateAuthor := (ServiceWorker.addOrUpdateAuthor parseURL).
Abbreviation getAuthorIdentifier := ServiceWorker.getAuthorIdentifier.

(** The loop of [findAuthor] reads the authors through [sameAuthor] only. *)
Fixpoint firstTrue (tests : list (result bool)) (i : nat) : result (option nat) :=
  match tests with
  | [] => Ok None
  | Ok true :: _ => Ok (Some i)
  | Ok false :: rest => firstTrue rest (S i)
  | Throw e :: _ => Throw e
  end.

Lemma findFrom_firstTrue p id authors i :
  findFrom p id authors i = firstTrue ((fun a => sameAuthor p a id) <$> authors) i.
Proof.
  revert i. induction authors as [|a rest IH]; intros i; simpl; [done|].
  destruct (sameAuthor p a id) as [[|]|e]; auto.
Qed.

Lemma firstTrue_Some tests i0 i :
  firstTrue tests i0 = Ok (Some i) →
  i0 ≤ i ∧ tests !! (i - i0) = Some (Ok true) ∧
  ∀ j, j < i - i0 → tests !! j = Some (Ok false).
Proof.
  revert i0. induction tests as [|[[|]|e] rest IH]; intros i0; simpl; try done.
  - intros [= <-]. rewrite Nat.sub_diag. split; [lia|]. split; [done|]. intros j ?. lia.
  - intros (Hle & Hi & Hbefore)%IH.
    replace (i - i0) with (S (i - S i0)) by lia.
    split; [lia|]. split; [done|].
    intros [|j] ?; [done|]. simpl. apply Hbefore. lia.
Qed.

Lemma firstTrue_None tests i0 :
  firstTrue tests i0 = Ok None ↔ Forall (fun t => t = Ok false) tests.
Proof.
  revert i0. induction tests as [|[[|]|e] rest IH]; intros i0; simpl.
  - split; [constructor|done].
  - split; [done|]. by intros [? _]%Forall_cons.
  - rewrite IH. split; [by constructor|]. by intros [_ ?]%Forall_cons.
  - split; [done|]. by intros [? _]%Forall_cons.
Qed.

Lemma firstTrue_app_false tests rest i0 :
  Forall (fun t => t = Ok false) tests →
  firstTrue (tests ++ rest) i0 = firstTrue rest (i0 + length tests).
Proof.
  intros H. revert i0. induction H as [|t tests -> _ IH]; intros i0; simpl.
  - f_equal. lia.
  - rewrite IH. f_equal. lia.
Qed.

Lemma sameAuthor_set_topics p a t id : sameAuthor p (set_topics a t) id = sameAuthor p a id.
Proof. by destruct a. Qed.

Lemma findAuthor_authorsAt kb p id :
  get (default [] (favorite_authors kb)) p ≠ Inherited →
  findAuthor kb p id = findFrom p id (authorsAt kb p) 0.
Proof.
  intros Hget. unfold ServiceWorker.findAuthor, ServiceWorker.authorsOf, authorsAt.
  destruct (favorite_authors kb) as [fa|]; simpl in *; [|done].
  unfold get in *. destruct (own fa p); simpl; [done|].
  by case_bool_decide.
Qed.

Lemma findAuthor_found_not_inherited kb p id i :
  findAuthor kb p id = Ok (Some i) → get (default [] (favorite_authors kb)) p ≠ Inherited.
Proof.
  unfold ServiceWorker.findAuthor, ServiceWorker.authorsOf.
  destruct (favorite_authors kb) as [fa|]; simpl; [|done].
  by destruct (get fa p).
Qed.

(** The document once [favorite_authors] and the list of the platform
    have been created. *)
Definition ensured (kb : KB) (platform : string) : jsobj (list Author) :=
  let fa := default [] (favorite_authors kb) in
  match get fa platform with
  | Undefined => set fa platform []
  | _ => fa
  end.

Lemma own_ensured kb p :
  get (default [] (favorite_authors kb)) p ≠ Inherited →
  own (ensured kb p) p = Some (authorsAt kb p).
Proof.
  unfold ensured, authorsAt. intros Hget.
  destruct (get (default [] (favorite_authors kb)) p) as [l| |] eqn:E; [|done|].
  - apply get_Own in E. by rewrite E.
  - rewrite own_set_eq. unfold get in E.
    destruct (own (default [] (favorite_authors kb)) p); [done|]. done.
Qed.

Lemma authorsAt_set kb fa p l : authorsAt (set_favorite_authors kb (set fa p l)) p = l.
Proof. unfold authorsAt. simpl. by rewrite own_set_eq. Qed.

(** [addOrUpdateAuthor], in terms of the list of the platform. *)
Lemma addOrUpdateAuthor_unfold kb p a :
  get (default [] (favorite_authors kb)) p ≠ Inherited →
  addOrUpdateAuthor kb p a =
  let fa := ensured kb p in
  let l := authorsAt kb p in
  match findFrom p (getAuthorIdentifier p a) l 0 with
  | Throw e => (set_favorite_authors kb fa, Throw e)
  | Ok (Some i) =>
      match l !! i, topics a with
      | Some existingAuthor, Some incoming =>
          (set_favorite_authors kb
             (set fa p (<[i := set_topics existingAuthor
                                 (arrayFromSet (default [] (topics existingAuthor) ++ incoming))]> l)),
           Ok (i, false))
      | _, _ => (set_favorite_authors kb fa, Ok (i, false))
      end
  | Ok None => (set_favorite_authors kb (set fa p (l ++ [a])), Ok (length l, true))
  end.
Proof.
  intros Hget. unfold ServiceWorker.addOrUpdateAuthor. cbv zeta.
  change (match get (default [] (favorite_authors kb)) p with
          | Undefined => set (default [] (favorite_authors kb)) p []
          | _ => default [] (favorite_authors kb)
          end) with (ensured kb p).
  assert (get (default [] (favorite_authors (set_favorite_authors kb (ensured kb p)))) p
          ≠ Inherited) as Hget'.
  { simpl. unfold get. by rewrite own_ensured. }
  rewrite (findAuthor_authorsAt _ _ _ Hget').
  assert (authorsAt (set_favorite_authors kb (ensured kb p)) p = authorsAt kb p) as ->.
  { unfold authorsAt at 1. simpl. by rewrite own_ensured. }
  rewrite own_ensured by done. simpl.
  destruct (findFrom p (getAuthorIdentifier p a) (authorsAt kb p) 0) as [[i|]|e]; try done.
Qed.

End find.

(** ** The address of a LinkedIn profile *)

Definition linkedinProfile (slug tail : string) : URL :=
  mkURL "https:" "" "www.linkedin.com" "" ("/in/" +:+ slug +:+ tail) [] None.

Definition no_slash (s : string) : Prop :=
  all_chars (fun c => negb (Ascii.eqb c "/")) s = true.

(** Two addresses of one profile that differ by letter case or by a
    trailing slash.  (The parser has already lower-cased scheme and host.) *)
Definition profile_variants (parseURL : string → option URL) (u1 u2 : string) : Prop :=
  ∃ s1 s2 t1 t2,
    parseURL u1 = Some (linkedinProfile s1 t1) ∧ parseURL u2 = Some (linkedinProfile s2 t2) ∧
    s1 ≠ "" ∧ no_slash s1 ∧ case_variants s1 s2 ∧
    (t1 = "" ∨ t1 = "/") ∧ (t2 = "" ∨ t2 = "/").


Lemma toLowerCase_app (a b : string) : toLowerCase (a +:+ b) = toLowerCase a +:+ toLowerCase b.
Proof.
  unfold String.app. induction a as [|x a IH]; simpl; [done|]. by rewrite IH.
Qed.










Section linkedin.

Variable parseURL : string → option URL.



End linkedin.

(** ** Upsert: found or appended *)

Section upsert_known.

Variable parseURL : string → option URL.
Abbreviation findFrom := (ServiceWorker.findFrom parseURL).
Abbreviation sameAuthor := (ServiceWorker.sameAuthor parseURL).
Abbreviation findAuthor := (ServiceWorker.findAuthor parseURL).
Abbreviation addOrUpdateAuthor := (ServiceWorker.addOrUpdateAuthor parseURL).
Abbreviation getAuthorIdentifier := ServiceWorker.getAuthorIdentifier.

(** The topics of the author found, merged with the incoming ones. *)
Definition merged (existingAuthor authorData : Author) : Author :=
  match topics authorData with
  | Some incoming =>
      set_topics existingAuthor (arrayFromSet (default [] (topics existingAuthor) ++ incoming))
  | None => existingAuthor
  end.

Lemma upsert_view kb p a :
  get (default [] (favorite_authors kb)) p ≠ Inherited →
  let l := authorsAt kb p in
  let r := addOrUpdateAuthor kb p a in
  get (default [] (favorite_authors r.1)) p ≠ Inherited ∧
  match findFrom p (getAuthorIdentifier p a) l 0 with
  | Throw e => r.2 = Throw e ∧ authorsAt r.1 p = l
  | Ok (Some i) =>
      r.2 = Ok (i, false) ∧
      authorsAt r.1 p = match l !! i with
                        | Some existingAuthor => <[i := merged existingAuthor a]> l
                        | None => l
                        end
  | Ok None => r.2 = Ok (length l, true) ∧ authorsAt r.1 p = l ++ [a]
  end.
Proof.
  intros Hget l r. subst r. rewrite addOrUpdateAuthor_unfold by done. cbv zeta. fold l.
  assert (∀ kb', authorsAt (set_favorite_authors kb' (ensured kb p)) p = l) as Hens.
  { intros kb'. unfold authorsAt at 1. simpl. by rewrite own_ensured. }
  assert (∀ fa : jsobj (list Author), is_Some (own fa p) → get fa p ≠ Inherited) as Hinh.
  { intros fa [v Hv]. unfold get. by rewrite Hv. }
  destruct (findFrom p (getAuthorIdentifier p a) l 0) as [[i|]|e].
  - unfold merged. destruct (l !! i) as [ex|] eqn:Hi; [destruct (topics a) as [inc|]|]; simpl.
    + split; [apply Hinh; by rewrite own_set_eq|]. by rewrite authorsAt_set.
    + split; [apply Hinh; by rewrite own_ensured|].
      rewrite Hens. split; [done|]. by rewrite list_insert_id.
    + split; [apply Hinh; by rewrite own_ensured|]. by rewrite Hens.
  - simpl. split; [apply Hinh; by rewrite own_set_eq|]. by rewrite authorsAt_set.
  - simpl. split; [apply Hinh; by rewrite own_ensured|]. by rewrite Hens.
Qed.

Lemma get_not_inherited {V} (o : jsobj V) p : p ∉ objectPrototypeKeys → get o p ≠ Inherited.
Proof. intros Hp. unfold get. destruct (own o p); [done|]. by case_bool_decide. Qed.

Lemma merged_topics ex a t :
  t ∈ default [] (topics (merged ex a)) ↔
  t ∈ default [] (topics ex) ∨ t ∈ default [] (topics a).
Proof.
  unfold merged. destruct (topics a) as [inc|]; simpl.
  - by rewrite elem_of_arrayFromSet, elem_of_app.
  - rewrite elem_of_nil. tauto.
Qed.

Lemma merged_identity ex a :
  handle (merged ex a) = handle ex ∧ profile_url (merged ex a) = profile_url ex ∧
  url (merged ex a) = url ex ∧ name (merged ex a) = name ex ∧
  source (merged ex a) = source ex ∧ author (merged ex a) = author ex ∧
  saved_posts (merged ex a) = saved_posts ex ∧ saved_articles (merged ex a) = saved_articles ex.
Proof. unfold merged. by destruct (topics a). Qed.

Lemma sameAuthor_merged p ex a id : sameAuthor p (merged ex a) id = sameAuthor p ex id.
Proof. unfold merged. destruct (topics a); [apply sameAuthor_set_topics|done]. Qed.


Lemma findFrom_found_lookup p id l i :
  findFrom p id l 0 = Ok (Some i) →
  ∃ a, l !! i = Some a ∧ sameAuthor p a id = Ok true.
Proof.
  rewrite findFrom_firstTrue. intros (_ & Hi & _)%firstTrue_Some.
  rewrite Nat.sub_0_r in Hi. rewrite list_lookup_fmap in Hi.
  destruct (l !! i) as [a|]; [|done]. exists a. split; [done|]. by injection Hi.
Qed.


End upsert_known.

Definition ada (address : string) (tags : list string) : Author :=
  mkAuthor None (Some address) None (Some "Ada Lovelace") None None (Some tags) None None.

Lemma profile_variants_ex :
  profile_variants parseHttpUrl
    "https://www.linkedin.com/in/Ada-Lovelace/" "https://WWW.LinkedIn.com/in/ada-lovelace".
Proof.
  exists "Ada-Lovelace", "ada-lovelace", "/", "".
  split; [vm_compute; reflexivity|]. split; [vm_compute; reflexivity|].
  split; [discriminate|]. split; [reflexivity|]. split; [|by auto].
  repeat (first [apply cvs_nil | apply cvs_cons; [first [by left | by right]|]]).
Defined.

(** ** The identity of an author *)

(** The identity of an author in normal form, as the spec has it: the
    handle on [x], the address of the profile on [linkedin], the address of
    the publication on [substack], the name and the source on
    [generic_web], each normalised as [findAuthor] compares it.  An author
    without the field of its platform has none, as has every author on
    another platform. *)
Inductive identity : Type :=
  | Handle (normalized : string)
  | Address (normalized : string)
  | NameAndSource (lowerName lowerSource : option string).

Global Instance identity_eq_dec : EqDecision identity.
Proof. solve_decision. Defined.

Section upsert_identity.

Variable parseURL : string → option URL.
Abbreviation findFrom := (ServiceWorker.findFrom parseURL).
Abbreviation sameAuthor := (ServiceWorker.sameAuthor parseURL).
Abbreviation addOrUpdateAuthor := (ServiceWorker.addOrUpdateAuthor parseURL).
Abbreviation getAuthorIdentifier := ServiceWorker.getAuthorIdentifier.

Definition normalizedIdentity (platform : string) (a : Author) : option identity :=
  if String.eqb platform "x" then
    (fun h => Handle (ServiceWorkerHandle.normalizeHandle h)) <$> handle a
  else if String.eqb platform "linkedin" then
    (fun u => Address (ServiceWorkerUrl.normalizeUrl parseURL u)) <$> profile_url a
  else if String.eqb platform "substack" then
    (fun u => Address (ServiceWorkerUrl.normalizeUrl parseURL u)) <$> url a
  else if String.eqb platform "generic_web" then
    Some (NameAndSource (toLowerCase <$> name a) (toLowerCase <$> source a))
  else None.

(** Two authors with an identity, and the same one. *)
Definition sameIdentity (platform : string) (stored incoming : Author) : Prop :=
  is_Some (normalizedIdentity platform stored) ∧
  normalizedIdentity platform stored = normalizedIdentity platform incoming.

#[local] Instance sameIdentity_dec platform stored incoming :
  Decision (sameIdentity platform stored incoming).
Proof. unfold sameIdentity. apply _. Defined.








End upsert_identity.





Example addOrUpdateAuthor_merges_topics :
  topics <$> authorsAt
    (ServiceWorker.addOrUpdateAuthor parseHttpUrl
       (ServiceWorker.addOrUpdateAuthor parseHttpUrl emptyKB "linkedin"
          (ada "https://www.linkedin.com/in/Ada-Lovelace/" ["math"; "ai"])).1
       "linkedin" (ada "https://WWW.LinkedIn.com/in/ada-lovelace" ["engines"; "ai"])).1
    "linkedin"
  = [Some ["math"; "ai"; "engines"]].
Proof. vm_compute. reflexivity. Qed.

(** ** Keys of objects *)

Section jsobj_keys.
Context {V : Type}.
Implicit Types (o : jsobj V) (k : string) (v : V).

Lemma own_None_keys o k : own o k = None ↔ k ∉ keys o.
Proof.
  unfold keys. induction o as [|[k' v'] o IH]; simpl.
  - split; [intros _; apply not_elem_of_nil|done].
  - rewrite not_elem_of_cons, <- IH.
    destruct (String.eqb_spec k' k) as [->|Hne]; [|split; [intros ?; split; [congruence|done]|tauto]].
    split; [done|]. intros [? _]. done.
Qed.

Lemma own_Some_keys o k : is_Some (own o k) ↔ k ∈ keys o.
Proof.
  destruct (own o k) as [v|] eqn:E.
  - split; [|by eauto]. intros _. destruct (decide (k ∈ keys o)) as [|Hn]; [done|].
    apply own_None_keys in Hn. congruence.
  - split; [by intros [? ?]|]. intros Hin. by apply own_None_keys in E.
Qed.

Lemma keys_replace_own o k v : keys (replace_own k v o) = keys o.
Proof.
  unfold keys. induction o as [|[k' v'] o IH]; [done|]. cbn [replace_own].
  destruct (String.eqb k' k); rewrite !fmap_cons; [done|]. by rewrite IH.
Qed.

Lemma keys_insert_index n o k v : keys (insert_index n k v o) ≡ₚ k :: keys o.
Proof.
  unfold keys. induction o as [|[k' v'] o IH]; [done|]. cbn [insert_index].
  destruct (array_index k') as [m|]; [destruct (m <? n)%N|]; rewrite ?fmap_cons; try done.
  rewrite IH. apply Permutation_swap.
Qed.

Lemma keys_set_old o k v : is_Some (own o k) → keys (set o k v) = keys o.
Proof. intros [v0 H]. unfold set. rewrite H. apply keys_replace_own. Qed.

Lemma keys_set_new o k v : own o k = None → keys (set o k v) ≡ₚ k :: keys o.
Proof.
  intros H. unfold set. rewrite H. destruct (array_index k) as [n|].
  - apply keys_insert_index.
  - unfold keys. rewrite fmap_app. simpl. by rewrite Permutation_app_comm.
Qed.

(** A key that is not an array index goes to the end. *)
Lemma keys_set_new_string o k v :
  own o k = None → array_index k = None → keys (set o k v) = keys o ++ [k].
Proof. intros H Hk. unfold set. rewrite H, Hk. unfold keys. by rewrite fmap_app. Qed.

Lemma NoDup_keys_set o k v : NoDup (keys o) → NoDup (keys (set o k v)).
Proof.
  intros Hnd. destruct (own o k) as [v0|] eqn:E.
  - rewrite keys_set_old by (by rewrite E). done.
  - rewrite keys_set_new by done. apply NoDup_cons. split; [|done]. by apply own_None_keys.
Qed.

End jsobj_keys.

(** ** The topic index *)

Global Instance ref_le_total : Total ref_le.
Proof.
  intros [x|] [y|]; simpl; auto.
  destruct (String.le_total x y); auto.
Qed.

Global Instance ref_le_trans : Transitive ref_le.
Proof.
  intros [x|] [y|] [z|]; simpl; try done.
  apply (@transitivity _ String.le _).
Qed.

Global Instance ref_le_antisym : AntiSymm (=) ref_le.
Proof.
  intros [x|] [y|]; simpl; try done.
  intros H1 H2. f_equal. by apply (anti_symm String.le).
Qed.

(** The reference list of a topic. *)
Definition refsOf (kb : KB) (topic : string) : option (list reference) :=
  own (default [] (topic_index kb)) topic.

Section topic_index.

Variable parseURL : string → option URL.
Abbreviation addReference := (ServiceWorker.addReference).
Abbreviation addReferences := (ServiceWorker.addReferences).
Abbreviation sortKeys := (ServiceWorker.sortKeys).
Abbreviation updateTopicIndex := (ServiceWorker.updateTopicIndex).

Implicit Types (ti : jsobj (list reference)) (ref r : reference) (topic k : string).

Lemma addReference_cases ref ti topic :
  addReference ref ti topic =
  match get ti topic with
  | Inherited => Throw TypeError
  | Undefined => Ok (set (set ti topic []) topic (sortRefs [ref]))
  | Own refs =>
      Ok (if bool_decide (ref ∈ refs) then ti else set ti topic (sortRefs (refs ++ [ref])))
  end.
Proof.
  unfold ServiceWorker.addReference.
  destruct (get ti topic) as [refs| |] eqn:E.
  - rewrite E. by case_bool_decide.
  - by rewrite E.
  - rewrite get_set_eq. rewrite bool_decide_eq_false_2 by apply not_elem_of_nil. reflexivity.
Qed.

Lemma elem_of_sortRefs (l : list reference) r : r ∈ sortRefs l ↔ r ∈ l.
Proof. unfold sortRefs. by rewrite merge_sort_Permutation. Qed.

(** A topic that carries the reference is left alone. *)
Lemma addReference_present ref ti topic refs :
  own ti topic = Some refs → ref ∈ refs → addReference ref ti topic = Ok ti.
Proof.
  intros Ho Hin. rewrite addReference_cases.
  apply get_Own in Ho. rewrite Ho. by rewrite bool_decide_eq_true_2.
Qed.

(** After a round the topic carries the reference. *)
Lemma addReference_adds ref ti topic ti' :
  addReference ref ti topic = Ok ti' → ∃ refs, own ti' topic = Some refs ∧ ref ∈ refs.
Proof.
  rewrite addReference_cases. destruct (get ti topic) as [refs| |] eqn:E; [|discriminate|].
  - intros [= <-]. case_bool_decide as Hin.
    + exists refs. split; [by apply get_Own|done].
    + exists (sortRefs (refs ++ [ref])). rewrite own_set_eq. split; [done|].
      apply elem_of_sortRefs, elem_of_app. right. by apply list_elem_of_singleton.
  - intros [= <-]. exists (sortRefs [ref]). rewrite own_set_eq. split; [done|].
    apply elem_of_sortRefs. by apply list_elem_of_singleton.
Qed.

(** A round removes no key and no reference. *)
Lemma addReference_grows ref ti topic ti' k refs :
  addReference ref ti topic = Ok ti' → own ti k = Some refs →
  ∃ refs', own ti' k = Some refs' ∧ ∀ r, r ∈ refs → r ∈ refs'.
Proof.
  rewrite addReference_cases. intros Hstep Hk.
  destruct (get ti topic) as [l| |] eqn:E; [|discriminate|].
  - injection Hstep as <-. case_bool_decide as Hin; [by eauto|].
    destruct (decide (topic = k)) as [->|Hne].
    + rewrite own_set_eq. apply get_Own in E. rewrite Hk in E. injection E as <-.
      eexists. split; [done|]. intros r Hr. apply elem_of_sortRefs, elem_of_app. by left.
    + rewrite own_set_ne by done. eauto.
  - injection Hstep as <-. destruct (decide (topic = k)) as [->|Hne].
    + unfold get in E. rewrite Hk in E. done.
    + rewrite !own_set_ne by done. eauto.
Qed.

Lemma addReferences_grows ref topics ti ti' c k refs :
  addReferences ref ti topics = (ti', c) → own ti k = Some refs →
  ∃ refs', own ti' k = Some refs' ∧ ∀ r, r ∈ refs → r ∈ refs'.
Proof.
  revert ti refs. induction topics as [|topic rest IH]; intros ti refs; simpl.
  - intros [= <- <-] ?. eauto.
  - destruct (addReference ref ti topic) as [ti1|e] eqn:E.
    + intros Hrest Hk.
      destruct (addReference_grows _ _ _ _ _ _ E Hk) as (refs1 & Hk1 & Hsub1).
      destruct (IH _ _ Hrest Hk1) as (refs' & Hk' & Hsub').
      exists refs'. split; [done|]. auto.
    + intros [= <- <-] ?. eauto.
Qed.

(** After a loop that completes, every topic of the call carries the
    reference. *)
Lemma addReferences_adds ref topics ti ti' :
  addReferences ref ti topics = (ti', Ok ()) →
  ∀ topic, topic ∈ topics → ∃ refs, own ti' topic = Some refs ∧ ref ∈ refs.
Proof.
  revert ti. induction topics as [|t rest IH]; intros ti; simpl.
  - intros _ topic Hin. by apply elem_of_nil in Hin.
  - destruct (addReference ref ti t) as [ti1|e] eqn:E; [|done].
    intros Hrest topic [->|Hin]%elem_of_cons; [|by eapply IH].
    destruct (addReference_adds _ _ _ _ E) as (refs1 & Hk1 & Hin1).
    destruct (addReferences_grows _ _ _ _ _ _ _ Hrest Hk1) as (refs' & Hk' & Hsub).
    eauto.
Qed.

(** A loop over topics that all carry the reference changes nothing. *)
Lemma addReferences_present ref topics ti :
  (∀ topic, topic ∈ topics → ∃ refs, own ti topic = Some refs ∧ ref ∈ refs) →
  addReferences ref ti topics = (ti, Ok ()).
Proof.
  induction topics as [|t rest IH]; intros Hall; simpl; [done|].
  destruct (Hall t) as (refs & Hk & Hin); [by left|].
  rewrite (addReference_present _ _ _ _ Hk Hin). apply IH.
  intros topic Ht. apply Hall. by right.
Qed.

(** Running the loop again from its final state reproduces that state and
    its completion. *)
Lemma addReferences_again ref topics ti ti' c :
  addReferences ref ti topics = (ti', c) → addReferences ref ti' topics = (ti', c).
Proof.
  revert ti. induction topics as [|t rest IH]; intros ti; simpl.
  - by intros [= <- <-].
  - destruct (addReference ref ti t) as [ti1|e] eqn:E.
    + intros Hrest.
      destruct (addReference_adds _ _ _ _ E) as (refs1 & Hk1 & Hin1).
      destruct (addReferences_grows _ _ _ _ _ _ _ Hrest Hk1) as (refs' & Hk' & Hsub).
      rewrite (addReference_present _ _ _ _ Hk' (Hsub _ Hin1)). by eapply IH.
    + intros [= <- <-]. by rewrite E.
Qed.

(** The loop defines no key [__proto__]: on an object that owns none, the
    read of that key yields the prototype and the round throws. *)
Lemma addReference_plain ref ti topic ti' :
  addReference ref ti topic = Ok ti' → plain ti → plain ti'.
Proof.
  rewrite addReference_cases. unfold plain. intros Hstep Hp.
  destruct (decide (topic = "__proto__")) as [->|Hne].
  - unfold get in Hstep. rewrite Hp in Hstep. discriminate.
  - destruct (get ti topic) as [l| |]; [|discriminate|]; injection Hstep as <-.
    + case_bool_decide; [done|]. by rewrite own_set_ne.
    + by rewrite !own_set_ne.
Qed.

Lemma addReferences_plain ref topics ti ti' c :
  addReferences ref ti topics = (ti', c) → plain ti → plain ti'.
Proof.
  revert ti. induction topics as [|topic rest IH]; intros ti; simpl.
  - by intros [= <- <-].
  - destruct (addReference ref ti topic) as [ti1|e] eqn:E.
    + intros Hrest Hp. eapply IH; [done|]. by eapply addReference_plain.
    + by intros [= <- <-].
Qed.

End topic_index.

(** ** Sorting the keys of the topic index *)

Section sort_keys.

Implicit Types (ti acc : jsobj (list reference)) (k key : string) (ks : list string).

(** The loop of [sortKeys] over keys other than [__proto__], from any
    object under construction. *)
Definition rebuild ti ks acc : jsobj (list reference) :=
  fold_left (fun sortedIndex key =>
               match own ti key with
               | Some refs => set sortedIndex key refs
               | None => sortedIndex
               end) ks acc.

Lemma sortKeys_rebuild ti :
  plain ti → ServiceWorker.sortKeys ti = rebuild ti (sortStrings (keys ti)) [].
Proof.
  intros Hp. unfold ServiceWorker.sortKeys, rebuild.
  generalize (sortStrings (keys ti)) ([] : jsobj (list reference)).
  intros ks. induction ks as [|key ks IH]; intros acc; [done|]. simpl.
  destruct (String.eqb_spec key "__proto__") as [->|_]; [|apply IH].
  unfold plain in Hp. rewrite Hp. apply IH.
Qed.

Lemma own_rebuild ti ks acc k :
  own (rebuild ti ks acc) k =
  if decide (k ∈ ks) then match own ti k with Some v => Some v | None => own acc k end
  else own acc k.
Proof.
  revert acc. induction ks as [|key ks IH]; intros acc.
  - simpl. destruct (decide (k ∈ [])) as [Hin|_]; [|done]. by apply elem_of_nil in Hin.
  - change (rebuild ti (key :: ks) acc)
      with (rebuild ti ks (match own ti key with Some refs => set acc key refs | None => acc end)).
    rewrite IH. destruct (decide (key = k)) as [->|Hne].
    + destruct (decide (k ∈ k :: ks)) as [_|Hn]; [|destruct Hn; by left].
      destruct (own ti k) as [v|] eqn:E.
      * rewrite own_set_eq. by destruct (decide (k ∈ ks)).
      * by destruct (decide (k ∈ ks)).
    + assert (own (match own ti key with Some refs => set acc key refs | None => acc end) k
              = own acc k) as ->.
      { destruct (own ti key); [by apply own_set_ne|done]. }
      destruct (decide (k ∈ ks)) as [Hin|Hni].
      * destruct (decide (k ∈ key :: ks)) as [_|Hn]; [done|]. destruct Hn. by right.
      * destruct (decide (k ∈ key :: ks)) as [Hin|_]; [|done].
        apply elem_of_cons in Hin as [->|?]; done.
Qed.

Lemma elem_of_sortStrings ks k : k ∈ sortStrings ks ↔ k ∈ ks.
Proof. unfold sortStrings. by rewrite merge_sort_Permutation. Qed.

(** Sorting the keys changes no reference list. *)
Lemma own_sortKeys ti k : plain ti → own (ServiceWorker.sortKeys ti) k = own ti k.
Proof.
  intros Hp. rewrite sortKeys_rebuild, own_rebuild by done. simpl.
  destruct (decide (k ∈ sortStrings (keys ti))) as [Hin|Hni].
  - by destruct (own ti k).
  - rewrite elem_of_sortStrings in Hni. apply own_None_keys in Hni. by rewrite Hni.
Qed.

Lemma rebuild_ext ti1 ti2 ks acc :
  (∀ k, own ti1 k = own ti2 k) → rebuild ti1 ks acc = rebuild ti2 ks acc.
Proof.
  intros Hext. revert acc. induction ks as [|key ks IH]; intros acc; [done|].
  simpl. rewrite Hext. apply IH.
Qed.

Lemma keys_rebuild ti ks acc :
  NoDup ks → (∀ k, k ∈ ks → is_Some (own ti k)) → (∀ k, k ∈ ks → own acc k = None) →
  keys (rebuild ti ks acc) ≡ₚ keys acc ++ ks.
Proof.
  revert acc. induction ks as [|key ks IH]; intros acc Hnd Hti Hacc.
  - simpl. by rewrite app_nil_r.
  - apply NoDup_cons in Hnd as [Hkey Hnd].
    destruct (Hti key) as [v Hv]; [by left|].
    simpl. rewrite Hv. rewrite IH.
    + rewrite keys_set_new by (apply Hacc; by left).
      simpl. apply Permutation_middle.
    + done.
    + intros k Hk. apply Hti. by right.
    + intros k Hk. rewrite own_set_ne; [apply Hacc; by right|]. intros ->. done.
Qed.

(** When no key is an array index the keys come out in the order of
    insertion. *)
Lemma keys_rebuild_strings ti ks acc :
  NoDup ks → (∀ k, k ∈ ks → is_Some (own ti k)) → (∀ k, k ∈ ks → own acc k = None) →
  (∀ k, k ∈ ks → array_index k = None) →
  keys (rebuild ti ks acc) = keys acc ++ ks.
Proof.
  revert acc. induction ks as [|key ks IH]; intros acc Hnd Hti Hacc Hstr.
  - simpl. by rewrite app_nil_r.
  - apply NoDup_cons in Hnd as [Hkey Hnd].
    destruct (Hti key) as [v Hv]; [by left|].
    simpl. rewrite Hv. rewrite IH.
    + rewrite keys_set_new_string; [|apply Hacc; by left|apply Hstr; by left].
      by rewrite <- app_assoc.
    + done.
    + intros k Hk. apply Hti. by right.
    + intros k Hk. rewrite own_set_ne; [apply Hacc; by right|]. intros ->. done.
    + intros k Hk. apply Hstr. by right.
Qed.

(** The keys in the order of their first occurrence, without those of
    [seen]: a key met again is assigned the value it has already. *)
Fixpoint unseen (seen ks : list string) : list string :=
  match ks with
  | [] => []
  | k :: rest =>
      if bool_decide (k ∈ seen) then unseen seen rest else k :: unseen (k :: seen) rest
  end.

Lemma elem_of_unseen seen ks k : k ∈ unseen seen ks ↔ k ∈ ks ∧ k ∉ seen.
Proof.
  revert seen. induction ks as [|x ks IH]; intros seen; simpl.
  - rewrite elem_of_nil. tauto.
  - case_bool_decide as Hx.
    + rewrite IH, elem_of_cons. split; [tauto|]. intros [[->|?] ?]; tauto.
    + rewrite !elem_of_cons, IH, not_elem_of_cons.
      destruct (decide (k = x)) as [->|Hne]; [tauto|]. tauto.
Qed.

Lemma NoDup_unseen seen ks : NoDup (unseen seen ks).
Proof.
  revert seen. induction ks as [|x ks IH]; intros seen; simpl; [apply NoDup_nil_2|].
  case_bool_decide; [apply IH|]. apply NoDup_cons. split; [|apply IH].
  rewrite elem_of_unseen, not_elem_of_cons. tauto.
Qed.

Lemma unseen_ext seen1 seen2 ks :
  (∀ k, k ∈ seen1 ↔ k ∈ seen2) → unseen seen1 ks = unseen seen2 ks.
Proof.
  revert seen1 seen2. induction ks as [|x ks IH]; intros seen1 seen2 Hext; simpl; [done|].
  rewrite (bool_decide_ext _ _ (Hext x)). case_bool_decide; [by apply IH|].
  f_equal. apply IH. intros k. rewrite !elem_of_cons, Hext. done.
Qed.

Lemma Sorted_unseen seen ks : Sorted String.le ks → Sorted String.le (unseen seen ks).
Proof.
  intros Hs. apply Sorted_StronglySorted in Hs; [|apply _].
  apply StronglySorted_Sorted. revert seen.
  induction Hs as [|x ks Hks IH Hx]; intros seen; simpl; [constructor|].
  case_bool_decide; [apply IH|]. constructor; [apply IH|].
  apply Forall_forall. intros k [Hk _]%elem_of_unseen.
  by apply (proj1 (Forall_forall _ _) Hx).
Qed.

(** The object under construction holds values of [ti] only. *)
Definition agrees acc ti : Prop := ∀ k v, own acc k = Some v → own ti k = Some v.

Lemma rebuild_unseen ti ks acc :
  agrees acc ti → (∀ k, k ∈ ks → is_Some (own ti k)) →
  rebuild ti ks acc = rebuild ti (unseen (keys acc) ks) acc.
Proof.
  revert acc. induction ks as [|x ks IH]; intros acc Hagree Hti; [done|].
  destruct (Hti x) as [v Hv]; [by left|].
  assert (∀ k, k ∈ ks → is_Some (own ti k)) as Hti' by (intros k ?; apply Hti; by right).
  cbn [unseen]. case_bool_decide as Hx.
  - apply (proj2 (own_Some_keys acc x)) in Hx as [v' Hv'].
    pose proof (Hagree _ _ Hv') as Hv''. rewrite Hv in Hv''. injection Hv'' as <-.
    simpl. rewrite Hv, (set_same acc x v Hv'). by apply IH.
  - apply (proj2 (own_None_keys acc x)) in Hx.
    simpl. rewrite Hv. rewrite IH; [|intros k w|done].
    + f_equal. apply unseen_ext. intros k.
      by rewrite (keys_set_new acc x v Hx).
    + destruct (decide (x = k)) as [->|Hne].
      * rewrite own_set_eq. congruence.
      * rewrite own_set_ne by done. apply Hagree.
Qed.

(** The keys of [ti], sorted, each once. *)
Definition sortedKeys ti : list string := unseen [] (sortStrings (keys ti)).

Lemma sortKeys_sortedKeys ti :
  plain ti → ServiceWorker.sortKeys ti = rebuild ti (sortedKeys ti) [].
Proof.
  intros Hp. rewrite sortKeys_rebuild by done. apply (rebuild_unseen ti _ []); [done|].
  intros k Hk. apply (proj1 (elem_of_sortStrings _ _)) in Hk.
  by apply (proj2 (own_Some_keys ti k)).
Qed.

Lemma sortedKeys_own ti k : k ∈ sortedKeys ti → is_Some (own ti k).
Proof.
  intros [Hk _]%elem_of_unseen. apply (proj1 (elem_of_sortStrings _ _)) in Hk.
  by apply (proj2 (own_Some_keys ti k)).
Qed.

Lemma Sorted_sortedKeys ti : Sorted String.le (sortedKeys ti).
Proof. apply Sorted_unseen, Sorted_merge_sort, _. Qed.

Lemma keys_sortKeys ti : plain ti → keys (ServiceWorker.sortKeys ti) ≡ₚ sortedKeys ti.
Proof.
  intros Hp. rewrite sortKeys_sortedKeys by done.
  rewrite keys_rebuild; [done|apply NoDup_unseen| |done].
  apply sortedKeys_own.
Qed.

(** Without array indices among the keys, the keys come out sorted. *)
Lemma keys_sortKeys_strings ti :
  plain ti →
  (∀ k, k ∈ keys ti → array_index k = None) →
  keys (ServiceWorker.sortKeys ti) = sortedKeys ti.
Proof.
  intros Hp Hstr. rewrite sortKeys_sortedKeys by done.
  rewrite keys_rebuild_strings;
    [done|apply NoDup_unseen|apply sortedKeys_own|done|].
  intros k [Hk _]%elem_of_unseen. apply (proj1 (elem_of_sortStrings _ _)) in Hk. by apply Hstr.
Qed.

(** Sorting the keys twice is sorting them once. *)
Lemma plain_sortKeys ti : plain ti → plain (ServiceWorker.sortKeys ti).
Proof. intros Hp. unfold plain. by rewrite own_sortKeys. Qed.

Lemma sortKeys_idempotent ti :
  plain ti →
  ServiceWorker.sortKeys (ServiceWorker.sortKeys ti) = ServiceWorker.sortKeys ti.
Proof.
  intros Hp.
  rewrite (sortKeys_sortedKeys (ServiceWorker.sortKeys ti)) by by apply plain_sortKeys.
  assert (sortedKeys (ServiceWorker.sortKeys ti) = sortedKeys ti) as ->.
  { apply (Sorted_unique String.le); [apply Sorted_sortedKeys..|].
    apply NoDup_Permutation; [apply NoDup_unseen..|].
    intros k. unfold sortedKeys at 1.
    rewrite elem_of_unseen, elem_of_sortStrings, keys_sortKeys by done.
    split; [tauto|]. intros Hk. split; [done|apply not_elem_of_nil]. }
  rewrite (sortKeys_sortedKeys ti) at 2 by done.
  apply rebuild_ext. intros k. by apply own_sortKeys.
Qed.

End sort_keys.

(** ** The invariant of the reference lists *)

Definition lists_sorted (ti : jsobj (list reference)) : Prop :=
  ∀ k refs, own ti k = Some refs → Sorted ref_le refs ∧ NoDup refs.

Lemma sortRefs_sorted (l : list reference) : Sorted ref_le (sortRefs l).
Proof. apply Sorted_merge_sort, _. Qed.

Lemma sortRefs_NoDup_snoc (l : list reference) (r : reference) :
  NoDup l → r ∉ l → NoDup (sortRefs (l ++ [r])).
Proof.
  intros Hnd Hr. unfold sortRefs. rewrite merge_sort_Permutation.
  apply NoDup_app. split; [done|]. split; [|apply NoDup_singleton].
  intros x Hx ->%list_elem_of_singleton. done.
Qed.

Lemma addReference_lists_sorted ref ti topic ti' :
  ServiceWorker.addReference ref ti topic = Ok ti' → lists_sorted ti → lists_sorted ti'.
Proof.
  rewrite addReference_cases. intros Hstep Hinv.
  destruct (get ti topic) as [l| |] eqn:E; [|discriminate|].
  - injection Hstep as <-. case_bool_decide as Hin; [done|].
    intros k refs. destruct (decide (topic = k)) as [->|Hne].
    + rewrite own_set_eq. intros [= <-]. apply get_Own in E.
      destruct (Hinv _ _ E) as [_ Hnd].
      split; [apply sortRefs_sorted|by apply sortRefs_NoDup_snoc].
    + rewrite own_set_ne by done. apply Hinv.
  - injection Hstep as <-. intros k refs. destruct (decide (topic = k)) as [->|Hne].
    + rewrite own_set_eq. intros [= <-].
      split; [apply sortRefs_sorted|].
      apply (sortRefs_NoDup_snoc [] ref); [apply NoDup_nil_2|apply not_elem_of_nil].
    + rewrite !own_set_ne by done. apply Hinv.
Qed.

Lemma addReferences_lists_sorted ref topics ti ti' c :
  ServiceWorker.addReferences ref ti topics = (ti', c) → lists_sorted ti → lists_sorted ti'.
Proof.
  revert ti. induction topics as [|topic rest IH]; intros ti; simpl.
  - by intros [= <- <-].
  - destruct (ServiceWorker.addReference ref ti topic) as [ti1|e] eqn:E.
    + intros Hrest Hinv. eapply IH; [done|]. by eapply addReference_lists_sorted.
    + by intros [= <- <-].
Qed.

(** The loop completes when no topic is named like a member of
    [Object.prototype]. *)
Lemma addReferences_completes ref topics ti :
  (∀ topic, topic ∈ topics → topic ∉ objectPrototypeKeys) →
  (ServiceWorker.addReferences ref ti topics).2 = Ok ().
Proof.
  revert ti. induction topics as [|topic rest IH]; intros ti Hall; simpl; [done|].
  rewrite addReference_cases.
  pose proof (get_not_inherited ti topic (Hall topic ltac:(by left))) as Hget.
  destruct (get ti topic); [| done |]; apply IH; intros t Ht; apply Hall; by right.
Qed.

(** What [updateTopicIndex] maintains: on a document whose reference lists
    are sorted and free of duplicates, a call that completes leaves them so,
    and the keys that are not array indices come out sorted. *)
Lemma updateTopicIndex_maintains (kb : KB) (topics : list string) (authorRef : reference) :
  let ti := default [] (topic_index kb) in
  let r := ServiceWorker.updateTopicIndex kb topics authorRef in
  let ti' := default [] (topic_index r.1) in
  plain ti →
  lists_sorted ti →
  lists_sorted ti' ∧
  (r.2 = Ok () → (∀ k, k ∈ keys ti' → array_index k = None) → Sorted String.le (keys ti')).
Proof.
  intros ti r ti' Hp Hinv. subst r ti'. unfold ServiceWorker.updateTopicIndex. fold ti.
  destruct (ServiceWorker.addReferences authorRef ti topics) as [ti1 [[]|e]] eqn:E; simpl.
  - pose proof (addReferences_lists_sorted _ _ _ _ _ E Hinv) as Hinv1.
    pose proof (addReferences_plain _ _ _ _ _ E Hp) as Hp1.
    split.
    + intros k refs. rewrite own_sortKeys by done. apply Hinv1.
    + intros _ Hstr. rewrite keys_sortKeys_strings; [apply Sorted_sortedKeys|done|].
      intros k Hk. apply Hstr. rewrite keys_sortKeys by done. apply elem_of_unseen.
      split; [by apply elem_of_sortStrings|apply not_elem_of_nil].
  - split; [|discriminate]. by eapply addReferences_lists_sorted.
Qed.

(** C5. The keys of the rebuilt object are not always in sorted order: a
    key that is an array index, such as [2024], is enumerated before every
    other key, wherever the sorted order puts it. *)
Theorem updateTopicIndex_array_index_keys_first :
  let r := ServiceWorker.updateTopicIndex emptyKB [".net"; "2024"] (Some "@ada") in
  r.2 = Ok () ∧
  keys (default [] (topic_index r.1)) = ["2024"; ".net"] ∧
  sortStrings (keys (default [] (topic_index r.1))) = [".net"; "2024"] ∧
  ¬ Sorted String.le (keys (default [] (topic_index r.1))).
Proof.
  vm_compute. repeat split.
  intros H. inversion H as [|? ? _ Hhd]. inversion Hhd as [|? ? Hle]. exact Hle.
Qed.

(** The rebuilt object has no key [__proto__]. *)
Example sortKeys_proto_ex :
  ServiceWorker.sortKeys [("rust", [Some "Grace"]); ("__proto__", [Some "@ada"]); ("ai", [])]
  = [("ai", []); ("rust", [Some "Grace"])].
Proof. vm_compute. reflexivity. Qed.

Lemma set_topic_index_twice kb ti1 ti2 :
  set_topic_index (set_topic_index kb ti1) ti2 = set_topic_index kb ti2.
Proof. done. Qed.

Definition indexed : KB :=
  mkKB (Some 1%N) (Some "2026-01-12") None
       (Some [("ai", [Some "@ada"; Some "Grace"]); ("rust", [Some "Grace"])]).

(** ** The topic index in memory *)

Module InMemory.

(** The topic index as an object: the properties it owns and its
    prototype, [None] for [Object.prototype] and [Some refs] for the array
    that an assignment to [__proto__] has put in its place. *)
Record obj := mkObj {
  props : jsobj (list reference);
  proto : option (list reference)
}.

(** What [kb.topic_index[topic]] evaluates to. *)
Inductive value : Type :=
  | Refs (refs : list reference)       (* an array that the object owns *)
  | ProtoRefs (refs : list reference)  (* the array that is the prototype *)
  | Text (s : string)                  (* a string that is not empty *)
  | Falsy                              (* [undefined], the empty string or 0 *)
  | Member.                            (* a function, an object without [includes], a number above 0 *)

(** The document in memory: its own data, and the prototype of its topic
    index. *)
Record kbObject := mkKbObject {
  document : KB;
  prototype : option (list reference)
}.

(** The object that [JSON.parse] builds from the file. *)
Definition parsed (kb : KB) : kbObject := mkKbObject kb None.

Section engine.

(** The names of the members of [Array.prototype] in the engine. *)
Variable arrayPrototypeKeys : list string.

(** An element of an array read by its index: a string, or [undefined]
    beyond the length. *)
Definition element (refs : list reference) (i : N) : value :=
  match refs !! N.to_nat i with
  | Some (Some (String c r)) => Text (String c r)
  | _ => Falsy
  end.

(** A read along the prototype chain: the object itself, then the array
    that is its prototype (its elements and its [length]) and
    [Array.prototype], then [Object.prototype], whose getter for
    [__proto__] yields the prototype of the object. *)
Definition read (o : obj) (topic : string) : value :=
  match own (props o) topic with
  | Some refs => Refs refs
  | None =>
      match proto o with
      | None => if bool_decide (topic ∈ objectPrototypeKeys) then Member else Falsy
      | Some refs =>
          if String.eqb topic "__proto__" then ProtoRefs refs
          else if String.eqb topic "length" then
            match refs with [] => Falsy | _ => Member end
          else
            match array_index topic with
            | Some i => element refs i
            | None =>
                if bool_decide (topic ∈ arrayPrototypeKeys)
                   || bool_decide (topic ∈ objectPrototypeKeys)
                then Member else Falsy
            end
      end
  end.

(** One round of the loop of [updateTopicIndex].  A falsy read makes the
    topic an own property; [includes] of a string looks for the reference
    as a substring, and a string has no [push]. *)
Definition addReference (authorRef : reference) (o : obj) (topic : string) : result obj :=
  match read o topic with
  | Refs refs =>
      if bool_decide (authorRef ∈ refs) then Ok o
      else Ok (mkObj (set (props o) topic (sortRefs (refs ++ [authorRef]))) (proto o))
  | ProtoRefs refs =>
      if bool_decide (authorRef ∈ refs) then Ok o
      else Ok (mkObj (props o) (Some (sortRefs (refs ++ [authorRef]))))
  | Text s =>
      if includes (default "undefined" authorRef) s then Ok o else Throw TypeError
  | Falsy =>
      Ok (mkObj (set (set (props o) topic []) topic (sortRefs ([] ++ [authorRef]))) (proto o))
  | Member => Throw TypeError
  end.

Fixpoint addReferences (authorRef : reference) (o : obj) (topics : list string)
  : obj * result unit :=
  match topics with
  | [] => (o, Ok ())
  | topic :: rest =>
      match addReference authorRef o topic with
      | Ok o' => addReferences authorRef o' rest
      | Throw e => (o, Throw e)
      end
  end.

(** The rebuilt object: the own keys in sorted order, and for prototype
    the value of the key [__proto__], if the object owns one. *)
Definition rebuildSorted (o : obj) : obj :=
  mkObj (ServiceWorker.sortKeys (props o)) (own (props o) "__proto__").

(** [updateTopicIndex] on the document in memory. *)
Definition updateTopicIndex (o : kbObject) (topics : list string) (authorRef : reference)
  : kbObject * result unit :=
  let kb := document o in
  let ti := match topic_index kb with
            | Some index => mkObj index (prototype o)
            | None => mkObj [] None
            end in
  match addReferences authorRef ti topics with
  | (ti, Throw e) => (mkKbObject (set_topic_index kb (props ti)) (proto ti), Throw e)
  | (ti, Ok _) =>
      let sortedIndex := rebuildSorted ti in
      (mkKbObject (set_topic_index kb (props sortedIndex)) (proto sortedIndex), Ok ())
  end.

End engine.
End InMemory.

(** ** Sorting the keys of any object *)

Section sort_any.

Implicit Types (ti acc : jsobj (list reference)) (k key : string) (ks : list string).

Lemma sortKeys_loop ti ks acc :
  agrees acc ti → plain acc → (∀ k, k ∈ ks → is_Some (own ti k)) →
  fold_left (fun sortedIndex key =>
               match own ti key with
               | Some refs =>
                   if String.eqb key "__proto__" then sortedIndex
                   else set sortedIndex key refs
               | None => sortedIndex
               end) ks acc
  = rebuild ti (unseen ("__proto__" :: keys acc) ks) acc.
Proof.
  revert acc. induction ks as [|x ks IH]; intros acc Hagree Hplain Hti; [done|].
  destruct (Hti x) as [v Hv]; [by left|].
  assert (∀ k, k ∈ ks → is_Some (own ti k)) as Hti' by (intros k ?; apply Hti; by right).
  cbn [fold_left unseen]. rewrite Hv.
  destruct (String.eqb_spec x "__proto__") as [->|Hx].
  - rewrite bool_decide_eq_true_2 by by left. by apply IH.
  - case_bool_decide as Hseen.
    + apply elem_of_cons in Hseen as [?|Hseen]; [done|].
      apply (proj2 (own_Some_keys acc x)) in Hseen as [v' Hv'].
      pose proof (Hagree _ _ Hv') as Hv''. rewrite Hv in Hv''. injection Hv'' as <-.
      rewrite (set_same acc x v Hv'). by apply IH.
    + apply not_elem_of_cons in Hseen as [_ Hseen].
      apply (proj2 (own_None_keys acc x)) in Hseen.
      cbn [rebuild fold_left]. rewrite Hv. fold (rebuild ti).
      rewrite IH; [|intros k w| |done].
      * change (fold_left _ ?l ?a) with (rebuild ti l a). f_equal.
        apply unseen_ext. intros k.
        rewrite !elem_of_cons, (keys_set_new acc x v Hseen), elem_of_cons. tauto.
      * destruct (decide (x = k)) as [->|Hne].
        -- rewrite own_set_eq. congruence.
        -- rewrite own_set_ne by done. apply Hagree.
      * unfold plain. by rewrite own_set_ne.
Qed.

(** The keys that the rebuilt object gets: those of [ti] but [__proto__],
    sorted, each once. *)
Definition sortedOwnKeys ti : list string := unseen ["__proto__"] (sortStrings (keys ti)).

Lemma sortKeys_sortedOwnKeys ti : ServiceWorker.sortKeys ti = rebuild ti (sortedOwnKeys ti) [].
Proof.
  apply (sortKeys_loop ti _ []); [done|done|].
  intros k Hk. apply (proj1 (elem_of_sortStrings _ _)) in Hk.
  by apply (proj2 (own_Some_keys ti k)).
Qed.

Lemma elem_of_sortedOwnKeys ti k : k ∈ sortedOwnKeys ti ↔ k ∈ keys ti ∧ k ≠ "__proto__".
Proof.
  unfold sortedOwnKeys. rewrite elem_of_unseen, elem_of_sortStrings, list_elem_of_singleton.
  done.
Qed.

(** Sorting the keys changes no reference list and keeps every key but
    [__proto__]. *)
Lemma own_sortKeys_any ti k :
  own (ServiceWorker.sortKeys ti) k = if String.eqb k "__proto__" then None else own ti k.
Proof.
  rewrite sortKeys_sortedOwnKeys, own_rebuild. simpl.
  destruct (decide (k ∈ sortedOwnKeys ti)) as [Hin|Hni].
  - apply elem_of_sortedOwnKeys in Hin as [_ Hk].
    rewrite (proj2 (String.eqb_neq _ _) Hk). by destruct (own ti k).
  - destruct (String.eqb_spec k "__proto__") as [->|Hk]; [done|].
    rewrite elem_of_sortedOwnKeys in Hni.
    symmetry. apply own_None_keys. tauto.
Qed.

Lemma plain_sortKeys_any ti : plain (ServiceWorker.sortKeys ti).
Proof. unfold plain. by rewrite own_sortKeys_any. Qed.

Lemma rebuild_ext_in ti1 ti2 ks acc :
  (∀ k, k ∈ ks → own ti1 k = own ti2 k) → rebuild ti1 ks acc = rebuild ti2 ks acc.
Proof.
  revert acc. induction ks as [|key ks IH]; intros acc Hext; [done|].
  simpl. rewrite (Hext key) by by left.
  apply IH. intros k Hk. apply Hext. by right.
Qed.

(** Sorting the keys twice is sorting them once, for every object. *)
Lemma sortKeys_twice ti :
  ServiceWorker.sortKeys (ServiceWorker.sortKeys ti) = ServiceWorker.sortKeys ti.
Proof.
  rewrite (sortKeys_sortedOwnKeys (ServiceWorker.sortKeys ti)).
  assert (sortedOwnKeys (ServiceWorker.sortKeys ti) = sortedOwnKeys ti) as ->.
  { apply (Sorted_unique String.le);
      [apply Sorted_unseen, Sorted_merge_sort, _..|].
    apply NoDup_Permutation; [apply NoDup_unseen..|].
    intros k. rewrite !elem_of_sortedOwnKeys, <- !own_Some_keys, own_sortKeys_any.
    destruct (String.eqb_spec k "__proto__") as [->|Hk]; [|tauto].
    split; [intros [[? ?] _]; done|tauto]. }
  rewrite (sortKeys_sortedOwnKeys ti) at 2.
  apply rebuild_ext_in. intros k [_ Hk]%elem_of_sortedOwnKeys.
  by rewrite own_sortKeys_any, (proj2 (String.eqb_neq _ _) Hk).
Qed.

End sort_any.

(** ** A second call on the object of the first *)

Section in_memory.

Variable arrayPrototypeKeys : list string.

Abbreviation read := (InMemory.read arrayPrototypeKeys).
Abbreviation addReferenceIn := (InMemory.addReference arrayPrototypeKeys).
Abbreviation addReferencesIn := (InMemory.addReferences arrayPrototypeKeys).
Abbreviation updateTopicIndexIn := (InMemory.updateTopicIndex arrayPrototypeKeys).

Implicit Types (ti : jsobj (list reference)) (o : InMemory.obj) (ref : reference)
  (topic : string) (topics : list string).

(** On an object with [Object.prototype] for prototype the read is the
    read of the document. *)
Lemma addReference_parsed ref ti topic :
  addReferenceIn ref (InMemory.mkObj ti None) topic
  = match ServiceWorker.addReference ref ti topic with
    | Ok ti' => Ok (InMemory.mkObj ti' None)
    | Throw e => Throw e
    end.
Proof.
  rewrite addReference_cases. unfold InMemory.addReference, InMemory.read, get. simpl.
  destruct (own ti topic) as [refs|]; [by case_bool_decide|].
  by case_bool_decide.
Qed.

Lemma addReferences_parsed ref topics ti :
  addReferencesIn ref (InMemory.mkObj ti None) topics
  = let r := ServiceWorker.addReferences ref ti topics in (InMemory.mkObj r.1 None, r.2).
Proof.
  revert ti. induction topics as [|topic rest IH]; intros ti; [done|].
  cbn [InMemory.addReferences ServiceWorker.addReferences]. rewrite addReference_parsed.
  destruct (ServiceWorker.addReference ref ti topic) as [ti'|e]; [apply IH|done].
Qed.

(** A topic is settled when it carries the reference: in its own list, or
    for [__proto__] in the array that is the prototype. *)
Definition settledIn ref o topic : Prop :=
  (∃ refs, own (InMemory.props o) topic = Some refs ∧ ref ∈ refs) ∨
  (topic = "__proto__" ∧ own (InMemory.props o) topic = None ∧
   ∃ refs, InMemory.proto o = Some refs ∧ ref ∈ refs).

Lemma addReference_settled ref o topic : settledIn ref o topic → addReferenceIn ref o topic = Ok o.
Proof.
  unfold InMemory.addReference, InMemory.read.
  intros [(refs & -> & Hin)|(-> & -> & refs & -> & Hin)]; simpl;
    by rewrite bool_decide_eq_true_2.
Qed.

Lemma addReferences_settled ref topics o :
  (∀ topic, topic ∈ topics → settledIn ref o topic) → addReferencesIn ref o topics = (o, Ok ()).
Proof.
  induction topics as [|t rest IH]; intros Hall; [done|].
  cbn [InMemory.addReferences]. rewrite addReference_settled by (apply Hall; by left).
  apply IH. intros topic Ht. apply Hall. by right.
Qed.

(** The object of the first call on a document read from the file. *)
Lemma updateTopicIndex_parsed (kb : KB) topics ref :
  let r := ServiceWorker.updateTopicIndex kb topics ref in
  let ti1 := (ServiceWorker.addReferences ref (default [] (topic_index kb)) topics).1 in
  updateTopicIndexIn (InMemory.parsed kb) topics ref
  = (InMemory.mkKbObject r.1 match r.2 with
                             | Ok _ => own ti1 "__proto__"
                             | Throw _ => None
                             end, r.2).
Proof.
  unfold InMemory.updateTopicIndex, ServiceWorker.updateTopicIndex, InMemory.parsed. simpl.
  assert (match topic_index kb with
          | Some index => InMemory.mkObj index None
          | None => InMemory.mkObj [] None
          end = InMemory.mkObj (default [] (topic_index kb)) None) as ->
    by by destruct (topic_index kb).
  rewrite addReferences_parsed. cbv zeta.
  by destruct (ServiceWorker.addReferences ref (default [] (topic_index kb)) topics)
    as [ti1 [[]|e]].
Qed.

End in_memory.

(** C6. [updateTopicIndex] is idempotent.  For every document as it is
    read from the file, a second call on the object that the first call
    has left, with the same topics and the same reference, completes as the
    first did and leaves the same document.  When the document owns a
    topic [__proto__] and the first call completes, the two objects differ
    in their prototype, which is no part of the document; otherwise they
    are the same object state. *)
Theorem updateTopicIndex_idempotent
    (arrayPrototypeKeys : list string)
    (kb : KB) (topics : list string) (authorRef : reference) :
  let once := InMemory.updateTopicIndex arrayPrototypeKeys (InMemory.parsed kb) topics authorRef in
  let twice := InMemory.updateTopicIndex arrayPrototypeKeys once.1 topics authorRef in
  (InMemory.document once.1, once.2) = ServiceWorker.updateTopicIndex kb topics authorRef ∧
  twice.2 = once.2 ∧
  InMemory.document twice.1 = InMemory.document once.1 ∧
  match InMemory.prototype once.1 with
  | None => twice = once
  | Some refs =>
      once.2 = Ok () ∧ refsOf kb "__proto__" ≠ None ∧ InMemory.prototype twice.1 = None
  end.
Proof.
  intros once twice. subst twice once. rewrite updateTopicIndex_parsed. cbv zeta.
  unfold ServiceWorker.updateTopicIndex.
  destruct (ServiceWorker.addReferences authorRef (default [] (topic_index kb)) topics)
    as [ti1 [[]|e]] eqn:E; cbn [fst snd].
  - (* the first call completes *)
    split; [done|].
    assert (InMemory.updateTopicIndex arrayPrototypeKeys
              (InMemory.mkKbObject (set_topic_index kb (ServiceWorker.sortKeys ti1))
                 (own ti1 "__proto__")) topics authorRef
            = (InMemory.mkKbObject (set_topic_index kb (ServiceWorker.sortKeys ti1)) None, Ok ()))
      as Htwice.
    { unfold InMemory.updateTopicIndex. cbn [InMemory.document InMemory.prototype topic_index
        set_topic_index].
      rewrite addReferences_settled.
      - unfold InMemory.rebuildSorted. cbn [InMemory.props].
        by rewrite set_topic_index_twice, sortKeys_twice, plain_sortKeys_any.
      - intros topic Hin. destruct (addReferences_adds _ _ _ _ E topic Hin) as (refs & Hrefs & Href).
        unfold settledIn. cbn [InMemory.props InMemory.proto]. rewrite own_sortKeys_any.
        destruct (String.eqb_spec topic "__proto__") as [->|_]; [right|left]; by eauto. }
    rewrite Htwice. cbn [fst snd InMemory.document InMemory.prototype].
    split; [done|]. split; [done|].
    destruct (own ti1 "__proto__") as [refs|] eqn:Hproto; [|done].
    split; [done|]. split; [|done].
    unfold refsOf. intros Hnone.
    (* the loop defines no key [__proto__] *)
    pose proof (addReferences_plain _ _ _ _ _ E Hnone) as Hplain.
    unfold plain in Hplain. congruence.
  - (* the first call throws *)
    split; [done|]. cbn [InMemory.prototype].
    assert (InMemory.updateTopicIndex arrayPrototypeKeys
              (InMemory.mkKbObject (set_topic_index kb ti1) None) topics authorRef
            = (InMemory.mkKbObject (set_topic_index kb ti1) None, Throw e)) as Htwice.
    { change (InMemory.mkKbObject (set_topic_index kb ti1) None)
        with (InMemory.parsed (set_topic_index kb ti1)).
      rewrite updateTopicIndex_parsed. cbv zeta. unfold ServiceWorker.updateTopicIndex.
      change (default [] (topic_index (set_topic_index kb ti1))) with ti1.
      by rewrite (addReferences_again _ _ _ _ _ E). }
    by rewrite Htwice.
Qed.

(** The members of [Array.prototype] in an engine of 2023. *)
Definition es2023ArrayPrototypeKeys : list string :=
  ["at"; "concat"; "constructor"; "copyWithin"; "entries"; "every"; "fill"; "filter"; "find";
   "findIndex"; "findLast"; "findLastIndex"; "flat"; "flatMap"; "forEach"; "includes";
   "indexOf"; "join"; "keys"; "lastIndexOf"; "map"; "pop"; "push"; "reduce"; "reduceRight";
   "reverse"; "shift"; "slice"; "some"; "sort"; "splice"; "toLocaleString"; "toReversed";
   "toSorted"; "toSpliced"; "toString"; "unshift"; "values"; "with"].

(** A document with a topic [__proto__], as a file edited by hand can
    hold it. *)
Definition protoTopic : KB :=
  mkKB (Some 1%N) None None
       (Some [("rust", [Some "Grace"]); ("__proto__", [Some "@ada"]); ("ai", [])]).

Example read_ex :
  let o := InMemory.mkObj [("ai", [])] (Some [Some "@ada"; Some "Grace"]) in
  let read := InMemory.read es2023ArrayPrototypeKeys o in
  read "ai" = InMemory.Refs [] ∧
  read "__proto__" = InMemory.ProtoRefs [Some "@ada"; Some "Grace"] ∧
  read "1" = InMemory.Text "Grace" ∧ read "2" = InMemory.Falsy ∧
  read "length" = InMemory.Member ∧ read "push" = InMemory.Member ∧
  read "toString" = InMemory.Member ∧ read "ml" = InMemory.Falsy.
Proof. vm_compute. done. Qed.

(** The two calls on a document with a topic [__proto__]: the first takes
    the list of that topic for the prototype of the rebuilt index, the
    second reads the list through the prototype and rebuilds the index on
    [Object.prototype]. *)
Example updateTopicIndex_proto_topic_ex :
  let once := InMemory.updateTopicIndex es2023ArrayPrototypeKeys (InMemory.parsed protoTopic)
                ["__proto__"; "ai"] (Some "@turing") in
  let twice := InMemory.updateTopicIndex es2023ArrayPrototypeKeys once.1
                 ["__proto__"; "ai"] (Some "@turing") in
  let saved := set_topic_index protoTopic [("ai", [Some "@turing"]); ("rust", [Some "Grace"])] in
  once = (InMemory.mkKbObject saved (Some [Some "@ada"; Some "@turing"]), Ok ()) ∧
  twice = (InMemory.mkKbObject saved None, Ok ()).
Proof. vm_compute. done. Qed.

(** C10. A topic [__proto__] does not survive [updateTopicIndex]: the loop
    that copies the keys into the sorted object assigns to [__proto__],
    which sets the prototype of that object and defines no key.  The topic
    and its references are gone from the document. *)
Theorem updateTopicIndex_drops_proto_topic :
  let r := ServiceWorker.updateTopicIndex protoTopic ["ai"] (Some "@turing") in
  refsOf protoTopic "__proto__" = Some [Some "@ada"] ∧
  r.2 = Ok () ∧
  refsOf r.1 "__proto__" = None ∧
  keys (default [] (topic_index r.1)) = ["ai"; "rust"] ∧
  InMemory.updateTopicIndex es2023ArrayPrototypeKeys (InMemory.parsed protoTopic)
    ["ai"] (Some "@turing")
  = (InMemory.mkKbObject r.1 (Some [Some "@ada"]), Ok ()).
Proof. vm_compute. done. Qed.

Section growth.

Variable parseURL : string → option URL.

(** X30. The topic index and the topics of an author only grow.  On a
    document whose topic index owns no key [__proto__], every topic key and
    every reference is still there after [updateTopicIndex], whether the
    call completes or throws; and the author that [addOrUpdateAuthor]
    updates keeps every topic it had. *)
Theorem topics_only_grow (kb : KB) :
  (∀ topics authorRef topic refs,
     plain (default [] (topic_index kb)) →
     refsOf kb topic = Some refs →
     ∃ refs', refsOf (ServiceWorker.updateTopicIndex kb topics authorRef).1 topic = Some refs' ∧
              ∀ r, r ∈ refs → r ∈ refs') ∧
  (∀ platform authorData i existingAuthor,
     ServiceWorker.findAuthor parseURL kb platform
       (ServiceWorker.getAuthorIdentifier platform authorData) = Ok (Some i) →
     authorsAt kb platform !! i = Some existingAuthor →
     ∃ updated,
       authorsAt (ServiceWorker.addOrUpdateAuthor parseURL kb platform authorData).1 platform !! i
         = Some updated ∧
       ∀ t, t ∈ default [] (topics existingAuthor) → t ∈ default [] (topics updated)).
Proof.
  split.
  - intros topics authorRef topic refs Hp Hk. unfold refsOf in *.
    unfold ServiceWorker.updateTopicIndex.
    destruct (ServiceWorker.addReferences authorRef (default [] (topic_index kb)) topics)
      as [ti1 [[]|e]] eqn:E; simpl.
    + rewrite own_sortKeys by by eapply addReferences_plain.
      by eapply addReferences_grows.
    + by eapply addReferences_grows.
  - intros platform authorData i ex Hfound Hex.
    pose proof (findAuthor_found_not_inherited _ _ _ _ _ Hfound) as Hget.
    rewrite findAuthor_authorsAt in Hfound by done.
    pose proof (upsert_view parseURL kb platform authorData Hget) as [_ Hview].
    cbv zeta in Hview. rewrite Hfound, Hex in Hview. destruct Hview as [_ Hl].
    exists (merged ex authorData). split.
    + rewrite Hl. apply list_lookup_insert_eq. by eapply lookup_lt_Some.
    + intros t Ht. apply (proj2 (merged_topics parseURL _ _ _)). by left.
Qed.

End growth.

Definition withAda : KB :=
  mkKB (Some 1%N) None
       (Some [("linkedin", [ada "https://www.linkedin.com/in/ada-lovelace" ["math"]])])
       (topic_index indexed).

Lemma topics_only_grow_witness :
  (∃ refs', refsOf (ServiceWorker.updateTopicIndex withAda ["ai"; "ml"] (Some "@turing")).1 "ai"
            = Some refs' ∧ ∀ r, r ∈ [Some "@ada"; Some "Grace"] → r ∈ refs') ∧
  (∃ updated,
     authorsAt (ServiceWorker.addOrUpdateAuthor parseHttpUrl withAda "linkedin"
                  (ada "https://www.linkedin.com/in/Ada-Lovelace/" ["engines"])).1 "linkedin" !! 0
       = Some updated ∧
     ∀ t, t ∈ ["math"] → t ∈ default [] (topics updated)).
Proof.
  destruct (topics_only_grow parseHttpUrl withAda) as [Hindex Hauthor].
  split.
  - apply (Hindex ["ai"; "ml"] (Some "@turing") "ai" [Some "@ada"; Some "Grace"]);
      reflexivity.
  - apply (Hauthor "linkedin" (ada "https://www.linkedin.com/in/Ada-Lovelace/" ["engines"]) 0
             (ada "https://www.linkedin.com/in/ada-lovelace" ["math"]));
      vm_compute; reflexivity.
Defined.

(** ** Dates of the platform *)

(** A valid [Date], by its UTC fields. *)
Record Date := mkDate {
  year : Z;
  month : N;
  day : N;
  hours : N;
  minutes : N;
  seconds : N;
  milliseconds : N
}.

Module IsoDate.

(** The [width] least significant decimal digits of [n]. *)
Fixpoint pad (width : nat) (n : N) : string :=
  match width with
  | O => ""
  | S w => pad w (n / 10) +:+ String (ascii_of_N (48 + n mod 10)) ""
  end.

Definition isoYear (y : Z) : string :=
  if ((0 <=? y) && (y <=? 9999))%Z then pad 4 (Z.to_N y)
  else (if (y <? 0)%Z then "-" else "+") +:+ pad 6 (Z.to_N (Z.abs y)).

Definition isoDate (d : Date) : string :=
  isoYear (year d) +:+ "-" +:+ pad 2 (month d) +:+ "-" +:+ pad 2 (day d).

Definition isoTime (d : Date) : string :=
  pad 2 (hours d) +:+ ":" +:+ pad 2 (minutes d) +:+ ":" +:+ pad 2 (seconds d)
  +:+ "." +:+ pad 3 (milliseconds d).

(** [Date.prototype.toISOString] *)
Definition toISOString (d : Date) : string := isoDate d +:+ "T" +:+ isoTime d +:+ "Z".

(** [s.split('T')[0]] *)
Definition beforeT (s : string) : string := (cut "T" s).1.

End IsoDate.

Import IsoDate.

Example toISOString_ex :
  toISOString (mkDate 2026 2 22 9 5 0 7) = "2026-02-22T09:05:00.007Z" ∧
  beforeT (toISOString (mkDate 2026 2 22 9 5 0 7)) = "2026-02-22" ∧
  isoDate (mkDate 12026 2 22 0 0 0 0) = "+012026-02-22".
Proof. vm_compute. done. Qed.

(** ** Bookmark slugs *)

Module Slug.

Definition is_slug_char (c : ascii) : bool := is_lower c || Url.is_digit c.

(** [s.replace(/[^a-z0-9]+/g, '-')]; [inRun] tells that the run of other
    characters has already been replaced. *)
Fixpoint hyphenate (inRun : bool) (s : string) : string :=
  match s with
  | EmptyString => EmptyString
  | String c r =>
      if is_slug_char c then String c (hyphenate false r)
      else if inRun then hyphenate true r
      else String "-" (hyphenate true r)
  end.

Fixpoint stripLeadingHyphens (s : string) : string :=
  match s with
  | String "-" r => stripLeadingHyphens r
  | _ => s
  end.

Fixpoint stripTrailingHyphens (s : string) : string :=
  match s with
  | EmptyString => EmptyString
  | String c r =>
      match stripTrailingHyphens r with
      | EmptyString => if Ascii.eqb c "-" then EmptyString else String c EmptyString
      | r' => String c r'
      end
  end.

(** [s.replace(/^-+|-+$/g, '')] *)
Definition trimHyphens (s : string) : string := stripTrailingHyphens (stripLeadingHyphens s).

(** [s.replace(/\//g, ' ')] *)
Fixpoint slashesToSpaces (s : string) : string :=
  match s with
  | EmptyString => EmptyString
  | String c r => String (if Ascii.eqb c "/" then " "%char else c) (slashesToSpaces r)
  end.

Section generate.

Variable parseURL : string → option URL.
(** [new Date(s)]: [None] for an invalid date. *)
Variable parseDate : string → option Date.
(** [new Date()] *)
Variable now : Date.

(** The date behind the prefix. *)
Definition slugDate (datePublished : string) : Date :=
  match datePublished with
  | EmptyString => now
  | _ => match parseDate datePublished with
         | Some d => d
         | None => now
         end
  end.

(** The text behind the descriptive part. *)
Definition slugText (title url : string) : string :=
  match title with
  | EmptyString =>
      match parseURL url with
      | Some parsed => slashesToSpaces (pathname parsed)
      | None => "untitled"
      end
  | _ => title
  end.

(** [generateSlug] *)
Definition generateSlug (title url datePublished : string) : string :=
  let dateStr := beforeT (toISOString (slugDate datePublished)) in
  let slug := take 80 (trimHyphens (hyphenate false (toLowerCase (slugText title url)))) in
  dateStr +:+ "_" +:+ slug.

End generate.
End Slug.

Example generateSlug_ex1 :
  Slug.generateSlug parseHttpUrl (fun _ => Some (mkDate 2025 6 15 0 0 0 0)) (mkDate 2026 2 22 9 5 0 7)
    "  Hello, World: Rocq 9.3 -- released!  " "https://example.com/post" "2025-06-15"
  = "2025-06-15_hello-world-rocq-9-3-released".
Proof. vm_compute. reflexivity. Qed.
Example generateSlug_ex2 :
  Slug.generateSlug parseHttpUrl (fun _ => None) (mkDate 2026 2 22 9 5 0 7)
    "" "https://example.com/blog/My_Post/" "yesterday"
  = "2026-02-22_blog-my-post".
Proof. vm_compute. reflexivity. Qed.
Example generateSlug_ex3 :
  Slug.generateSlug parseHttpUrl (fun _ => None) (mkDate 2026 2 22 9 5 0 7) "" "no address" ""
  = "2026-02-22_untitled".
Proof. vm_compute. reflexivity. Qed.
Example generateSlug_ex4 :
  Slug.generateSlug parseHttpUrl (fun _ => None) (mkDate 2026 2 22 9 5 0 7) "???" "https://example.com/" ""
  = "2026-02-22_".
Proof. vm_compute. reflexivity. Qed.

(** ** The shape of a slug *)




Lemma all_chars_app p (a b : string) : all_chars p (a +:+ b) = all_chars p a && all_chars p b.
Proof.
  unfold String.app. induction a as [|c a IH]; simpl; [done|]. by rewrite IH, andb_assoc.
Qed.

Lemma all_chars_impl (p q : ascii → bool) (s : string) :
  (∀ c, p c = true → q c = true) → all_chars p s = true → all_chars q s = true.
Proof.
  intros Hpq. induction s as [|c s IH]; simpl; [done|].
  intros [Hc Hs]%andb_prop. by rewrite (Hpq c Hc), IH.
Qed.

Lemma digit_char (n : N) : Url.is_digit (ascii_of_N (48 + n mod 10)) = true.
Proof.
  assert (n mod 10 < 10)%N as Hlt by (apply N.mod_lt; lia).
  set (k := (n mod 10)%N) in *. clearbody k.
  assert (k = 0 ∨ k = 1 ∨ k = 2 ∨ k = 3 ∨ k = 4 ∨ k = 5 ∨ k = 6 ∨ k = 7 ∨ k = 8 ∨ k = 9)%N
    as Hk by lia.
  repeat (destruct Hk as [->|Hk]; [reflexivity|]). by subst.
Qed.


Lemma all_digits_pad w n : all_chars Url.is_digit (pad w n) = true.
Proof.
  revert n. induction w as [|w IH]; intros n; simpl; [done|].
  rewrite all_chars_app, IH. simpl. by rewrite digit_char.
Qed.


Lemma isoDate_no_T d : all_chars (fun c => negb (Ascii.eqb c "T")) (isoDate d) = true.
Proof.
  assert (∀ w n, all_chars (fun c => negb (Ascii.eqb c "T")) (pad w n) = true) as Hpad.
  { intros w n. apply (all_chars_impl Url.is_digit); [|apply all_digits_pad].
    intros c. destruct c as [[] [] [] [] [] [] [] []]; done. }
  unfold isoDate, isoYear. rewrite !all_chars_app, !Hpad.
  destruct ((0 <=? year d)%Z && (year d <=? 9999)%Z).
  - by rewrite Hpad.
  - rewrite all_chars_app, Hpad. by destruct (year d <? 0)%Z.
Qed.

Lemma cut_app sep (a b : string) :
  all_chars (fun c => negb (Ascii.eqb c sep)) a = true →
  cut sep (a +:+ String sep b) = (a, Some b).
Proof.
  unfold String.app. induction a as [|c a IH]; simpl.
  - by rewrite Ascii.eqb_refl.
  - intros [Hc Ha]%andb_prop. apply negb_true_iff in Hc. rewrite Hc, (IH Ha). done.
Qed.

Lemma beforeT_toISOString d : beforeT (toISOString d) = isoDate d.
Proof.
  unfold beforeT, toISOString.
  change ("T" +:+ isoTime d +:+ "Z") with (String "T" (isoTime d +:+ "Z")).
  by rewrite cut_app by apply isoDate_no_T.
Qed.







(** ** The parts of a slug *)



Section slug_parts.

Implicit Types (s : string) (c : ascii) (b : bool).












End slug_parts.

Section slug_claim.

Variable parseURL : string → option URL.
Variable parseDate : string → option Date.
Variable now : Date.


End slug_claim.



(** ** The documents of a bookmark folder *)

Module Bookmark.

Definition nl : string := String (ascii_of_N 10) "".
Definition quote : string := String (ascii_of_N 34) "".
Definition backslash : ascii := ascii_of_N 92.

Definition quoted (s : string) : string := quote +:+ s +:+ quote.

(** The lines of a template literal. *)
Definition lines (l : list string) : string := String.concat nl l.

(** [s || fallback] on strings *)
Definition orElse (s fallback : string) : string :=
  match s with
  | EmptyString => fallback
  | _ => s
  end.

(** [s.replace(/c/g, rep)] for one character *)
Fixpoint replaceAllChar (c : ascii) (rep : string) (s : string) : string :=
  match s with
  | EmptyString => EmptyString
  | String x r => (if Ascii.eqb x c then rep else String x "") +:+ replaceAllChar c rep r
  end.

(** [escapeYamlString] *)
Definition escapeYamlString (str : string) : string :=
  match str with
  | EmptyString => ""
  | _ => replaceAllChar (ascii_of_N 34) (String backslash quote)
           (replaceAllChar backslash (String backslash (String backslash "")) str)
  end.

Definition tagsYaml (tags : list string) : string :=
  String.concat nl (map (fun t => "  - " +:+ t) tags).

(** [buildMetaYaml]; [nowISO] is the clock, read when [dateBookmarked] is
    empty. *)
Definition buildMetaYaml (nowISO : string)
    (slug title : string) (tags : list string)
    (sourceUrl platform authorName sourceName datePublished dateBookmarked : string) : string :=
  let now := orElse dateBookmarked nowISO in
  lines [
    "doc_id: " +:+ quoted slug;
    "doc_type: " +:+ quoted "bookmark";
    "title: " +:+ quoted (escapeYamlString title);
    "created_at: " +:+ quoted now;
    "updated_at: " +:+ quoted now;
    "language: " +:+ quoted "en";
    "status: " +:+ quoted "final";
    "visibility: " +:+ quoted "private";
    "";
    "canonical:";
    "  path: " +:+ quoted "canonicals/retrieval.md";
    "  generated_from: " +:+ quoted "assets/content.md";
    "  generator: " +:+ quoted "kb_manager_chrome_extension";
    "  generated_at: " +:+ quoted now;
    "";
    "source_of_truth:";
    "  path: " +:+ quoted "assets/content.md";
    "  sha256: " +:+ quoted "SHA256_PLACEHOLDER";
    "";
    "assets:";
    "  - path: " +:+ quoted "assets/content.md";
    "    media_type: " +:+ quoted "text/markdown";
    "    sha256: " +:+ quoted "SHA256_PLACEHOLDER";
    "    created_at: " +:+ quoted now;
    "";
    "tags:";
    orElse (tagsYaml tags) "  []";
    "";
    "relationships:";
    "  derived_from: []";
    "  related: []";
    "";
    "bookmark_metadata:";
    "  source_url: " +:+ quoted (escapeYamlString sourceUrl);
    "  platform: " +:+ quoted platform;
    "  author_name: " +:+ quoted (escapeYamlString (orElse authorName ""));
    "  source_name: " +:+ quoted (escapeYamlString (orElse sourceName ""));
    "  date_published: " +:+ quoted (orElse datePublished "");
    "  date_bookmarked: " +:+ quoted (orElse dateBookmarked (beforeT nowISO));
    ""
  ].

(** [buildContentMarkdown] *)
Definition buildContentMarkdown
    (title sourceUrl authorName sourceName platform datePublished dateBookmarked : string)
    (tags : list string) (bodyMarkdown : string) : string :=
  let frontmatter :=
    lines ["---";
           "title: " +:+ quoted (escapeYamlString title);
           "source_url: " +:+ quoted (escapeYamlString sourceUrl)] in
  let frontmatter :=
    match authorName with
    | EmptyString => frontmatter
    | _ => frontmatter +:+ nl +:+ "author: " +:+ quoted (escapeYamlString authorName)
    end in
  let frontmatter :=
    match sourceName with
    | EmptyString => frontmatter
    | _ => frontmatter +:+ nl +:+ "source: " +:+ quoted (escapeYamlString sourceName)
    end in
  let frontmatter :=
    frontmatter +:+
    lines [""; "platform: " +:+ platform;
           "date_published: " +:+ quoted (orElse datePublished "");
           "date_bookmarked: " +:+ quoted dateBookmarked;
           "tags:";
           orElse (tagsYaml tags) "  []";
           "---"] in
  let header := nl +:+ "# " +:+ title +:+ nl in
  let header :=
    match sourceName with
    | EmptyString => header +:+ nl +:+ "**Source:** [" +:+ sourceUrl +:+ "](" +:+ sourceUrl +:+ ")"
    | _ => header +:+ nl +:+ "**Source:** [" +:+ sourceName +:+ "](" +:+ sourceUrl +:+ ")"
    end in
  let header :=
    match authorName with
    | EmptyString => header
    | _ => header +:+ nl +:+ "**Author:** " +:+ authorName
    end in
  let header :=
    match datePublished with
    | EmptyString => header
    | _ => header +:+ nl +:+ "**Published:** " +:+ datePublished
    end in
  let header := header +:+ nl +:+ nl +:+ "---" +:+ nl in
  frontmatter +:+ header +:+ nl +:+ orElse bodyMarkdown "*No content extracted.*".

Definition BOOKMARK_SUBDIR : string := "08_bookmarked_content".

(** [getBookmarkBaseDir] *)
Definition getBookmarkBaseDir (kbFilePath : string) : string :=
  let parts := split "/" kbFilePath in
  match list_find (fun p => p = "AI_KB") parts with
  | Some (aiKbIndex, _) =>
      String.concat "/" (List.firstn (aiKbIndex + 1) parts) +:+ "/" +:+ BOOKMARK_SUBDIR
  | None =>
      String.concat "/" (List.removelast parts) +:+ "/" +:+ BOOKMARK_SUBDIR
  end.

End Bookmark.

Example getBookmarkBaseDir_ex :
  Bookmark.getBookmarkBaseDir "/Users/ada/AI_KB/08_bookmarked_content/curated_sources.yaml"
    = "/Users/ada/AI_KB/08_bookmarked_content" ∧
  Bookmark.getBookmarkBaseDir "/Users/ada/notes/curated_sources.yaml"
    = "/Users/ada/notes/08_bookmarked_content".
Proof. vm_compute. done. Qed.

Example buildContentMarkdown_ex :
  Bookmark.buildContentMarkdown "T" "https://e.com/p" "" "" "generic_web" "" "2026-02-22" [] ""
  = Bookmark.lines [
      "---"; "title: " +:+ Bookmark.quoted "T"; "source_url: " +:+ Bookmark.quoted "https://e.com/p";
      "platform: generic_web"; "date_published: " +:+ Bookmark.quoted "";
      "date_bookmarked: " +:+ Bookmark.quoted "2026-02-22"; "tags:"; "  []"; "---";
      "# T"; ""; "**Source:** [https://e.com/p](https://e.com/p)"; ""; "---"; "";
      "*No content extracted.*"].
Proof. vm_compute. reflexivity. Qed.

(** ** The native host and the state of the service worker *)

Inductive Request : Type :=
  | ReqRead (filePath : string)
  | ReqWrite (filePath : string) (data : KB)
  | ReqCreateBookmark (baseDir slug metaYaml contentMd : string).

Record Response := mkResponse {
  r_success : bool;
  r_error : option string;
  r_data : option KB;
  r_path : option string;
  r_sha256 : option string
}.

(** What the callback of [chrome.runtime.sendNativeMessage] sees: a
    response, or [chrome.runtime.lastError]. *)
Inductive Reply : Type :=
  | Replied (response : Response)
  | LastError (message : string).

Record RecentItem := mkRecentItem {
  ri_platform : string;
  ri_author : string;
  ri_title : string;
  ri_url : string;
  ri_slug : string;
  ri_hasFullContent : bool;
  ri_timestamp : string
}.

Record SaveSummary := mkSaveSummary {
  ss_authorAdded : bool;
  ss_contentAdded : bool;
  ss_contentDuplicate : bool
}.

Record BookmarkResult := mkBookmarkResult {
  br_success : bool;
  br_slug : string;
  br_path : option string;
  br_sha256 : option string;
  br_hasFullContent : bool;
  br_contentLength : nat
}.

Module Worker.
Section worker.

(** The native host: its state and its answer to a request. *)
Variable Host : Type.
Variable native : Host → Request → Host * Reply.
Variable parseURL : string → option URL.
Variable parseDate : string → option Date.
(** The external Turndown converter. *)
Variable htmlToMarkdown : string → string.
(** The clock, constant for the time of one message. *)
Variable now : Date.

(** The state outside the function: the host, the messages sent to it,
    the module variables [kbCache] and [kbFilePath], the stored recent
    additions and the console. *)
Record World := mkWorld {
  host : Host;
  sent : list Request;
  kbCache : option KB;
  kbFilePath : option string;
  recentAdditions : list RecentItem;
  warnings : list exn
}.

(** An asynchronous function: it changes the world and returns or throws. *)
Definition M (A : Type) : Type := World → World * result A.

Definition ret {A} (a : A) : M A := fun w => (w, Ok a).
Definition throw {A} (e : exn) : M A := fun w => (w, Throw e).
Definition bind {A B} (m : M A) (f : A → M B) : M B :=
  fun w => match m w with
           | (w', Ok a) => f a w'
           | (w', Throw e) => (w', Throw e)
           end.
(** [try { m } catch (e) { handler(e) }] *)
Definition tryCatch {A} (m : M A) (handler : exn → M A) : M A :=
  fun w => match m w with
           | (w', Ok a) => (w', Ok a)
           | (w', Throw e) => handler e w'
           end.
Definition modify (f : World → World) : M unit := fun w => (f w, Ok ()).

#[local] Instance M_bind : MBind M := fun A B f m => bind m f.

Definition set_cache (kb : option KB) (w : World) : World :=
  mkWorld (host w) (sent w) kb (kbFilePath w) (recentAdditions w) (warnings w).
Definition set_cache_path (kb : option KB) (p : string) (w : World) : World :=
  mkWorld (host w) (sent w) kb (Some p) (recentAdditions w) (warnings w).
Definition set_recent (l : list RecentItem) (w : World) : World :=
  mkWorld (host w) (sent w) (kbCache w) (kbFilePath w) l (warnings w).
Definition warn (e : exn) (w : World) : World :=
  mkWorld (host w) (sent w) (kbCache w) (kbFilePath w) (recentAdditions w) (warnings w ++ [e]).

(** [sendNativeMessage] *)
Definition sendNativeMessage (message : Request) : M Response :=
  fun w =>
    let '(h, reply) := native (host w) message in
    let w' := mkWorld h (sent w ++ [message]) (kbCache w) (kbFilePath w)
                      (recentAdditions w) (warnings w) in
    match reply with
    | Replied response => (w', Ok response)
    | LastError message => (w', Throw (Error message))
    end.

Definition errorOr (e : option string) (fallback : string) : string :=
  match e with
  | Some EmptyString | None => fallback
  | Some s => s
  end.

(** [readKB]; the data of the response may be missing. *)
Definition readKB (filePath : string) : M (option KB) :=
  response ← sendNativeMessage (ReqRead filePath);
  if r_success response
  then modify (set_cache_path (r_data response) filePath) ;; ret (r_data response)
  else throw (Error (errorOr (r_error response) "Failed to read KB file")).

(** [writeKB] *)
Definition writeKB (filePath : string) (data : KB) : M bool :=
  response ← sendNativeMessage (ReqWrite filePath data);
  if r_success response
  then modify (set_cache (Some data)) ;; ret true
  else throw (Error (errorOr (r_error response) "Failed to write KB file")).

(** A step that changes the document in place: [kbCache] refers to the
    same object and sees the change, also when the step throws. *)
Definition inPlace {A} (step : KB * result A) : M (KB * A) :=
  fun w =>
    match step with
    | (kb, Ok a) => (set_cache (Some kb) w, Ok (kb, a))
    | (kb, Throw e) => (set_cache (Some kb) w, Throw e)
    end.

Definition today : string := beforeT (toISOString now).

(** [addContent] on the author at position [i] of the platform. *)
Definition addContentAt (kb : KB) (platform : string) (i : nat) (contentData : Content)
  : KB * result outcome :=
  let fa := default [] (favorite_authors kb) in
  let authors := default [] (own fa platform) in
  match authors !! i with
  | Some a =>
      let '(a', r) := ServiceWorker.addContent parseURL today a platform contentData in
      (set_favorite_authors kb (set fa platform (<[i := a']> authors)), Ok r)
  | None => (kb, Throw TypeError)
  end.

(** [saveToKB] *)
Definition saveToKB (filePath platform : string) (authorData : Author)
    (contentData : option Content) (topics : option (list string)) : M SaveSummary :=
  data ← readKB filePath;
  match data with
  | None => throw TypeError
  | Some kb =>
      '(kb, (i, isNewAuthor)) ←
        inPlace (ServiceWorker.addOrUpdateAuthor parseURL kb platform authorData);
      '(kb, contentResult) ←
        match contentData with
        | Some c => inPlace (addContentAt kb platform i (set_content_topics c topics))
        | None => ret (kb, mkOutcome true None)
        end;
      '(kb, _) ←
        match topics with
        | Some (t :: ts) =>
            let a := default authorData (authorsAt kb platform !! i) in
            inPlace (ServiceWorker.updateTopicIndex kb (t :: ts)
                       (ServiceWorker.getAuthorRef platform a))
        | _ => ret (kb, ())
        end;
      writeKB filePath kb ;;
      modify (set_cache (Some kb)) ;;
      ret (mkSaveSummary isNewAuthor (success contentResult)
             (bool_decide (reason contentResult = Some "duplicate")))
  end.

(** [addToRecentAdditions]; the storage of the extension does not fail. *)
Definition addToRecentAdditions (item : RecentItem) : M unit :=
  modify (fun w => set_recent (List.firstn 10 (item :: recentAdditions w)) w).

Definition truthy (s : option string) : option string :=
  match s with
  | Some EmptyString | None => None
  | Some s => Some s
  end.

(** [saveBookmark] *)
Definition saveBookmark (filePath platform : string) (authorData : Author)
    (contentData : option Content) (topics : option (list string))
    (fullContentHtml : option string) : M BookmarkResult :=
  let dateBookmarked := today in
  let dateBookmarkedFull := toISOString now in
  let title := default "Untitled" (truthy (contentData ≫= c_title)) in
  let sourceUrl := default "" (c_url <$> contentData) in
  let datePublished :=
    default (default "" (truthy (contentData ≫= c_date))) (truthy (contentData ≫= c_date_published)) in
  let name_ := default "" (truthy (name authorData)) in
  let '(authorName, sourceName) :=
    if String.eqb platform "substack" then
      (default name_ (truthy (author authorData)), name_)
    else if String.eqb platform "x" then
      (match truthy (handle authorData) with Some h => "@" +:+ h | None => name_ end, "X (Twitter)")
    else if String.eqb platform "linkedin" then (name_, "LinkedIn")
    else (name_, default "" (truthy (source authorData))) in
  let bodyMarkdown :=
    match truthy fullContentHtml with
    | Some html => htmlToMarkdown html
    | None => default "" (truthy (contentData ≫= c_text))
    end in
  let slug := Slug.generateSlug parseURL parseDate now title sourceUrl datePublished in
  let metaYaml :=
    Bookmark.buildMetaYaml (toISOString now) slug title (default [] topics) sourceUrl platform
      authorName sourceName datePublished dateBookmarkedFull in
  let contentMd :=
    Bookmark.buildContentMarkdown title sourceUrl authorName sourceName platform datePublished
      dateBookmarked (default [] topics) bodyMarkdown in
  let baseDir := Bookmark.getBookmarkBaseDir filePath in
  createResult ← sendNativeMessage (ReqCreateBookmark baseDir slug metaYaml contentMd);
  if negb (r_success createResult)
  then throw (Error (errorOr (r_error createResult) "Failed to create bookmark folder"))
  else
    tryCatch (saveToKB filePath platform authorData contentData topics ;; ret ())
             (fun e => modify (warn e));;
    addToRecentAdditions
      (mkRecentItem platform authorName title sourceUrl slug
         (bool_decide (is_Some (truthy fullContentHtml))) (toISOString now)) ;;
    ret (mkBookmarkResult true slug (r_path createResult) (r_sha256 createResult)
           (bool_decide (is_Some (truthy fullContentHtml))) (String.length bodyMarkdown)).

End worker.
End Worker.

(** ** The save sequence of a bookmark *)

Section bookmark_claim.

Variable Host : Type.
Variable native : Host → Request → Host * Reply.
Variable parseURL : string → option URL.
Variable parseDate : string → option Date.
Variable htmlToMarkdown : string → string.
Variable now : Date.

Abbreviation WorldOf := (Worker.World Host).
Abbreviation saveToKB := (Worker.saveToKB Host native parseURL now).
Abbreviation saveBookmark := (Worker.saveBookmark Host native parseURL parseDate htmlToMarkdown now).

(** The world once one message has been sent to the host. *)
Definition afterSend (w : WorldOf) (request : Request) : WorldOf :=
  Worker.mkWorld Host (native (Worker.host Host w) request).1
    (Worker.sent Host w ++ [request]) (Worker.kbCache Host w) (Worker.kbFilePath Host w)
    (Worker.recentAdditions Host w) (Worker.warnings Host w).

Lemma sendNativeMessage_eq (request : Request) (w : WorldOf) :
  Worker.sendNativeMessage Host native request w =
  (afterSend w request,
   match (native (Worker.host Host w) request).2 with
   | Replied response => Ok response
   | LastError message => Throw (Error message)
   end).
Proof.
  unfold Worker.sendNativeMessage, afterSend.
  by destruct (native (Worker.host Host w) request) as [h [response|message]].
Qed.

Lemma bind_unfold {A B} (m : Worker.M Host A) (f : A → Worker.M Host B) (w : WorldOf) :
  @mbind (Worker.M Host) (Worker.M_bind Host) A B f m w =
  match m w with
  | (w', Ok a) => f a w'
  | (w', Throw e) => (w', Throw e)
  end.
Proof. reflexivity. Qed.

(** What a computation leaves alone: the console, and the messages already
    sent. *)
Definition quiet {A} (m : Worker.M Host A) : Prop :=
  ∀ w, Worker.warnings Host (m w).1 = Worker.warnings Host w ∧
       ∃ more, Worker.sent Host (m w).1 = Worker.sent Host w ++ more.

Lemma quiet_ret {A} (a : A) : quiet (Worker.ret Host a).
Proof. intros w. split; [done|]. exists []. by rewrite app_nil_r. Qed.

Lemma quiet_throw {A} (e : exn) : quiet (@Worker.throw Host A e).
Proof. intros w. split; [done|]. exists []. by rewrite app_nil_r. Qed.

Lemma quiet_modify (f : WorldOf → WorldOf) :
  (∀ w, Worker.warnings Host (f w) = Worker.warnings Host w ∧
        Worker.sent Host (f w) = Worker.sent Host w) →
  quiet (Worker.modify Host f).
Proof.
  intros Hf w. destruct (Hf w) as [Hw Hs]. split; [done|].
  exists []. simpl. by rewrite Hs, app_nil_r.
Qed.

Lemma quiet_inPlace {A} (step : KB * result A) : quiet (Worker.inPlace Host step).
Proof.
  intros w. unfold Worker.inPlace. destruct step as [kb [a|e]]; simpl;
    (split; [done|]); exists []; by rewrite app_nil_r.
Qed.

Lemma quiet_send (request : Request) : quiet (Worker.sendNativeMessage Host native request).
Proof.
  intros w. rewrite sendNativeMessage_eq. simpl. split; [done|]. by exists [request].
Qed.

Lemma quiet_bind {A B} (m : Worker.M Host A) (f : A → Worker.M Host B) :
  quiet m → (∀ a, quiet (f a)) →
  quiet (@mbind (Worker.M Host) (Worker.M_bind Host) A B f m).
Proof.
  intros Hm Hf w. rewrite bind_unfold.
  destruct (Hm w) as [Hw [more Hs]]. destruct (m w) as [w1 [a|e]]; simpl in *.
  - destruct (Hf a w1) as [Hw2 [more2 Hs2]]. split; [congruence|].
    exists (more ++ more2). by rewrite Hs2, Hs, app_assoc.
  - split; [done|]. by exists more.
Qed.

Lemma quiet_readKB filePath : quiet (Worker.readKB Host native filePath).
Proof.
  apply quiet_bind; [apply quiet_send|]. intros response.
  destruct (r_success response); [|apply quiet_throw].
  apply quiet_bind; [by apply quiet_modify|]. intros _. apply quiet_ret.
Qed.

Lemma quiet_writeKB filePath data : quiet (Worker.writeKB Host native filePath data).
Proof.
  apply quiet_bind; [apply quiet_send|]. intros response.
  destruct (r_success response); [|apply quiet_throw].
  apply quiet_bind; [by apply quiet_modify|]. intros _. apply quiet_ret.
Qed.

(** A computation whose first message to the host is [request]. *)
Definition sendsFirst {A} (request : Request) (m : Worker.M Host A) : Prop :=
  ∀ w, ∃ more, Worker.sent Host (m w).1 = Worker.sent Host w ++ request :: more.

Lemma sendsFirst_bind {A B} request (m : Worker.M Host A) (f : A → Worker.M Host B) :
  sendsFirst request m → (∀ a, quiet (f a)) →
  sendsFirst request (@mbind (Worker.M Host) (Worker.M_bind Host) A B f m).
Proof.
  intros Hm Hf w. rewrite bind_unfold.
  destruct (Hm w) as [more Hs]. destruct (m w) as [w1 [a|e]]; simpl in *.
  - destruct (Hf a w1) as [_ [more2 Hs2]].
    exists (more ++ more2). by rewrite Hs2, Hs, <- app_assoc.
  - by exists more.
Qed.

Lemma sendsFirst_send request : sendsFirst request (Worker.sendNativeMessage Host native request).
Proof. intros w. rewrite sendNativeMessage_eq. by exists []. Qed.

Lemma sendsFirst_readKB filePath : sendsFirst (ReqRead filePath) (Worker.readKB Host native filePath).
Proof.
  apply sendsFirst_bind; [apply sendsFirst_send|]. intros response.
  destruct (r_success response); [|apply quiet_throw].
  apply quiet_bind; [by apply quiet_modify|]. intros _. apply quiet_ret.
Qed.

Ltac quiet_index_steps contentData topics :=
  apply quiet_bind; [apply quiet_inPlace|]; intros [? [? ?]];
  apply quiet_bind;
    [destruct contentData; [apply quiet_inPlace|apply quiet_ret]|];
  intros [? ?]; apply quiet_bind;
    [destruct topics as [[|? ?]|]; [apply quiet_ret|apply quiet_inPlace|apply quiet_ret]|];
  intros [? []]; apply quiet_bind; [apply quiet_writeKB|]; intros _;
  apply quiet_bind; [by apply quiet_modify|]; intros _; apply quiet_ret.

Lemma quiet_saveToKB filePath platform authorData contentData topics :
  quiet (saveToKB filePath platform authorData contentData topics).
Proof.
  apply quiet_bind; [apply quiet_readKB|]. intros [kb|]; [|apply quiet_throw].
  quiet_index_steps contentData topics.
Qed.

(** The index update begins by reading the index document. *)
Lemma saveToKB_reads_first filePath platform authorData contentData topics :
  sendsFirst (ReqRead filePath) (saveToKB filePath platform authorData contentData topics).
Proof.
  apply sendsFirst_bind; [apply sendsFirst_readKB|]. intros [kb|]; [|apply quiet_throw].
  quiet_index_steps contentData topics.
Qed.

(** C7. [saveBookmark] first asks the host to create the folder.  When
    that message fails or the host reports failure, the call throws and
    nothing else has happened: no message for the index document was sent.
    When the host reports success, the index update [saveToKB] runs; the
    call returns success with the slug of the folder whether [saveToKB]
    returns or throws, and what it throws goes to the console only. *)
Theorem saveBookmark_index_update_is_best_effort
    (filePath platform : string) (authorData : Author) (contentData : option Content)
    (topics : option (list string)) (fullContentHtml : option string) (w : WorldOf) :
  let r := saveBookmark filePath platform authorData contentData topics fullContentHtml w in
  ∃ baseDir slug metaYaml contentMd,
    let request := ReqCreateBookmark baseDir slug metaYaml contentMd in
    let w1 := afterSend w request in
    match (native (Worker.host Host w) request).2 with
    | LastError message => r = (w1, Throw (Error message))
    | Replied createResult =>
        if r_success createResult then
          let index := saveToKB filePath platform authorData contentData topics w1 in
          ∃ result,
            r.2 = Ok result ∧
            br_success result = true ∧ br_slug result = slug ∧
            br_path result = r_path createResult ∧ br_sha256 result = r_sha256 createResult ∧
            (∃ more, Worker.sent Host r.1
                     = Worker.sent Host w ++ request :: ReqRead filePath :: more) ∧
            Worker.warnings Host r.1 =
              Worker.warnings Host w ++ match index.2 with Throw e => [e] | Ok _ => [] end
        else
          r = (w1, Throw (Error (Worker.errorOr (r_error createResult)
                                   "Failed to create bookmark folder")))
    end.
Proof.
  intros r. subst r. unfold Worker.saveBookmark.
  destruct (if String.eqb platform "substack" then _ else _) as [authorName sourceName].
  lazymatch goal with
  | |- context [ReqCreateBookmark ?a ?b ?c ?d] => exists a, b, c, d
  end.
  cbv zeta. rewrite bind_unfold, sendNativeMessage_eq.
  destruct ((native (Worker.host Host w) _).2) as [createResult|message]; [|reflexivity].
  destruct (r_success createResult); simpl; [|reflexivity].
  rewrite !bind_unfold. unfold Worker.tryCatch. rewrite bind_unfold.
  lazymatch goal with
  | |- context [saveToKB _ _ _ _ _ ?w1] =>
      destruct (quiet_saveToKB filePath platform authorData contentData topics w1) as [Hwarn _];
      destruct (saveToKB_reads_first filePath platform authorData contentData topics w1)
        as [more Hsent]
  end.
  destruct (saveToKB filePath platform authorData contentData topics _) as [w2 [summary|e]];
    simpl in *; eexists; repeat split;
    try (exists more; by rewrite Hsent, <- app_assoc);
    by rewrite Hwarn, ?app_nil_r.
Qed.

End bookmark_claim.

(** A host that creates folders but cannot read the index document, and a
    host that refuses the folder. *)
Definition lockedIndexHost (h : unit) (request : Request) : unit * Reply :=
  match request with
  | ReqCreateBookmark baseDir slug _ _ =>
      (h, Replied (mkResponse true None None (Some (baseDir +:+ "/" +:+ slug)) (Some "ab12")))
  | ReqRead _ => (h, Replied (mkResponse false (Some "index is locked") None None None))
  | ReqWrite _ _ => (h, Replied (mkResponse true None None None None))
  end.

Definition refusingHost (h : unit) (request : Request) : unit * Reply :=
  (h, Replied (mkResponse false (Some "Bookmark folder already exists") None None None)).

Definition freshWorld : Worker.World unit := Worker.mkWorld unit () [] None None [] [].

Definition aPost : Content :=
  mkContent "https://example.com/blog/rocq" (Some "Rocq 9.3") None None (Some "2025-06-15")
            None None None.

Example saveBookmark_swallows_index_failure :
  let r := Worker.saveBookmark unit lockedIndexHost parseHttpUrl (fun _ => None) id
             (mkDate 2026 2 22 9 5 0 7)
             "/Users/ada/AI_KB/curated_sources.yaml" "generic_web" (anAuthor "Ada")
             (Some aPost) (Some ["ai"]) None freshWorld in
  r.2 = Ok (mkBookmarkResult true "2026-02-22_rocq-9-3"
              (Some "/Users/ada/AI_KB/08_bookmarked_content/2026-02-22_rocq-9-3")
              (Some "ab12") false 0) ∧
  Worker.warnings unit r.1 = [Error "index is locked"] ∧
  length (Worker.sent unit r.1) = 2 ∧
  length (Worker.recentAdditions unit r.1) = 1.
Proof. vm_compute. done. Qed.

Example saveBookmark_fails_with_folder :
  let r := Worker.saveBookmark unit refusingHost parseHttpUrl (fun _ => None) id
             (mkDate 2026 2 22 9 5 0 7)
             "/Users/ada/AI_KB/curated_sources.yaml" "generic_web" (anAuthor "Ada")
             (Some aPost) (Some ["ai"]) None freshWorld in
  r.2 = Throw (Error "Bookmark folder already exists") ∧
  length (Worker.sent unit r.1) = 1 ∧
  Worker.recentAdditions unit r.1 = [] ∧ Worker.warnings unit r.1 = [].
Proof. vm_compute. done. Qed.

(** ** The topics offered to the popup *)

Module Topics.

(** [new.forEach(t => topics.add(t))] on a [Set] kept in insertion order. *)
Definition addAll (topics new : list string) : list string :=
  fold_left (fun acc x => if bool_decide (x ∈ acc) then acc else acc ++ [x]) new topics.

(** [author.saved_posts || author.saved_articles || []]: an array is
    truthy also when it is empty. *)
Definition savedContent (a : Author) : list Content :=
  match saved_posts a with
  | Some posts => posts
  | None => default [] (saved_articles a)
  end.

Definition ofContent (seen : list string) (content : Content) : list string :=
  addAll seen (default [] (c_topics content)).

Definition ofAuthor (seen : list string) (a : Author) : list string :=
  fold_left ofContent (savedContent a) (addAll seen (default [] (topics a))).

Definition ofPlatform (seen : list string) (platform : list Author) : list string :=
  fold_left ofAuthor platform seen.

(** [getExistingTopics] *)
Definition getExistingTopics (kb : KB) : list string :=
  let topics := addAll [] (keys (default [] (topic_index kb))) in
  let topics := fold_left ofPlatform (default [] (favorite_authors kb)).*2 topics in
  sortStrings topics.

End Topics.

Example getExistingTopics_ex :
  Topics.getExistingTopics
    (mkKB None None
       (Some [("x", [mkAuthor (Some "ada") None None None None None (Some ["ml"; "ai"])
                       (Some [mkContent "https://x.com/ada/status/1" None None None None None None
                                (Some ["rust"; "ai"])])
                       (Some [mkContent "https://ada.example/p" None None None None None None
                                (Some ["hidden"])])])])
       (Some [("ml", [Some "@ada"]); ("zig", [])]))
  = ["ai"; "ml"; "rust"; "zig"].
Proof. vm_compute. reflexivity. Qed.

Section topics_facts.

Implicit Types (seen new : list string) (t : string).

Lemma elem_of_addAll seen new t : t ∈ Topics.addAll seen new ↔ t ∈ seen ∨ t ∈ new.
Proof. apply arrayFromSet_fold_elem. Qed.

Lemma elem_of_ofAuthor seen a t :
  t ∈ Topics.ofAuthor seen a ↔
  t ∈ seen ∨ t ∈ default [] (topics a) ∨
  ∃ content, content ∈ Topics.savedContent a ∧ t ∈ default [] (c_topics content).
Proof.
  unfold Topics.ofAuthor.
  generalize (Topics.savedContent a). intros l.
  assert (∀ acc, t ∈ fold_left Topics.ofContent l acc ↔
                 t ∈ acc ∨ ∃ content, content ∈ l ∧ t ∈ default [] (c_topics content)) as H.
  { induction l as [|c l IH]; intros acc; simpl.
    - split; [tauto|]. intros [?|(c & Hc & _)]; [done|]. by apply elem_of_nil in Hc.
    - rewrite IH. unfold Topics.ofContent at 1. rewrite elem_of_addAll. split.
      + intros [[?|?]|(c' & ? & ?)]; [tauto| |].
        * right. exists c. split; [by left|done].
        * right. exists c'. split; [by right|done].
      + intros [?|(c' & [->|?]%elem_of_cons & ?)]; [tauto|tauto|].
        right. by exists c'. }
  rewrite H, elem_of_addAll. tauto.
Qed.

Lemma elem_of_ofPlatform seen platform t :
  t ∈ Topics.ofPlatform seen platform ↔
  t ∈ seen ∨ ∃ a, a ∈ platform ∧
    (t ∈ default [] (topics a) ∨
     ∃ content, content ∈ Topics.savedContent a ∧ t ∈ default [] (c_topics content)).
Proof.
  unfold Topics.ofPlatform. revert seen. induction platform as [|a l IH]; intros seen; simpl.
  - split; [tauto|]. intros [?|(a & Ha & _)]; [done|]. by apply elem_of_nil in Ha.
  - rewrite IH, elem_of_ofAuthor. split.
    + intros [[?|?]|(a' & ? & ?)]; [tauto| |].
      * right. exists a. split; [by left|done].
      * right. exists a'. split; [by right|done].
    + intros [?|(a' & [->|?]%elem_of_cons & ?)]; [tauto|tauto|].
      right. by exists a'.
Qed.

(** What [getExistingTopics] collects. *)
Lemma elem_of_getExistingTopics kb t :
  t ∈ Topics.getExistingTopics kb ↔
  t ∈ keys (default [] (topic_index kb)) ∨
  ∃ platform a, platform ∈ (default [] (favorite_authors kb)).*2 ∧ a ∈ platform ∧
    (t ∈ default [] (topics a) ∨
     ∃ content, content ∈ Topics.savedContent a ∧ t ∈ default [] (c_topics content)).
Proof.
  unfold Topics.getExistingTopics. cbv zeta. rewrite elem_of_sortStrings.
  generalize ((default [] (favorite_authors kb)).*2). intros l.
  assert (∀ acc, t ∈ fold_left Topics.ofPlatform l acc ↔
                 t ∈ acc ∨ ∃ platform a, platform ∈ l ∧ a ∈ platform ∧
                   (t ∈ default [] (topics a) ∨
                    ∃ content, content ∈ Topics.savedContent a
                               ∧ t ∈ default [] (c_topics content))) as H.
  { induction l as [|p l IH]; intros acc; simpl.
    - split; [tauto|]. intros [?|(p & a & Hp & _)]; [done|]. by apply elem_of_nil in Hp.
    - rewrite IH, elem_of_ofPlatform. split.
      + intros [[?|(a & ? & ?)]|(p' & a & ? & ? & ?)]; [tauto| |].
        * right. exists p, a. split; [by left|done].
        * right. exists p', a. split; [by right|done].
      + intros [?|(p' & a & [->|?]%elem_of_cons & ? & ?)]; [tauto| |].
        * left. right. by exists a.
        * right. by exists p', a. }
  rewrite H, elem_of_addAll, elem_of_nil. tauto.
Qed.

Lemma NoDup_addAll seen new : NoDup seen → NoDup (Topics.addAll seen new).
Proof. apply arrayFromSet_fold_NoDup. Qed.

Lemma NoDup_ofAuthor seen a : NoDup seen → NoDup (Topics.ofAuthor seen a).
Proof.
  intros Hnd. unfold Topics.ofAuthor.
  generalize (NoDup_addAll seen (default [] (topics a)) Hnd).
  generalize (Topics.addAll seen (default [] (topics a))).
  induction (Topics.savedContent a) as [|c l IH]; intros acc Hacc; simpl; [done|].
  apply IH. by apply NoDup_addAll.
Qed.

Lemma NoDup_ofPlatform seen platform : NoDup seen → NoDup (Topics.ofPlatform seen platform).
Proof.
  unfold Topics.ofPlatform. revert seen.
  induction platform as [|a l IH]; intros seen Hnd; simpl; [done|].
  by apply IH, NoDup_ofAuthor.
Qed.

Lemma NoDup_getExistingTopics kb : NoDup (Topics.getExistingTopics kb).
Proof.
  unfold Topics.getExistingTopics, sortStrings. cbv zeta. rewrite merge_sort_Permutation.
  generalize (NoDup_addAll [] (keys (default [] (topic_index kb))) NoDup_nil_2).
  generalize (Topics.addAll [] (keys (default [] (topic_index kb)))).
  induction ((default [] (favorite_authors kb)).*2) as [|p l IH]; intros acc Hacc; simpl; [done|].
  by apply IH, NoDup_ofPlatform.
Qed.

End topics_facts.

(** X1. The list of [getExistingTopics] is in ascending order of code
    units and holds no topic twice. *)
Theorem getExistingTopics_sorted (kb : KB) :
  Sorted String.le (Topics.getExistingTopics kb) ∧ NoDup (Topics.getExistingTopics kb).
Proof.
  split; [|apply NoDup_getExistingTopics].
  unfold Topics.getExistingTopics, sortStrings. apply Sorted_merge_sort, _.
Qed.

(** X2. [getExistingTopics] offers exactly the keys of the topic index,
    the topics of every author and the topics of the saved items it looks
    at: the posts of an author who has a list of posts, even an empty one,
    and the articles of the other authors. *)
Theorem getExistingTopics_collects (kb : KB) (t : string) :
  t ∈ Topics.getExistingTopics kb ↔
  t ∈ keys (default [] (topic_index kb)) ∨
  ∃ platform authors a,
    (platform, authors) ∈ default [] (favorite_authors kb) ∧ a ∈ authors ∧
    (t ∈ default [] (topics a) ∨
     ∃ content,
       content ∈ match saved_posts a with
                 | Some posts => posts
                 | None => default [] (saved_articles a)
                 end ∧
       t ∈ default [] (c_topics content)).
Proof.
  rewrite elem_of_getExistingTopics. apply or_iff_compat_l. split.
  - intros (authors & a & Hp & Ha & Ht).
    apply list_elem_of_fmap in Hp as ([platform authors'] & -> & Hp).
    by exists platform, authors', a.
  - intros (platform & authors & a & Hp & Ha & Ht). exists authors, a.
    split; [|done]. apply list_elem_of_fmap. by exists (platform, authors).
Qed.

(** ** What a call of [updateTopicIndex] leaves behind *)

(** A topic that the index does not own and whose name reads a member of
    [Object.prototype]. *)
Definition readsPrototype (ti : jsobj (list reference)) (topic : string) : bool :=
  match get ti topic with
  | Inherited => true
  | _ => false
  end.

(** The list of a topic once the reference is in it. *)
Definition withReference (authorRef : reference) (refs : list reference) : list reference :=
  if bool_decide (authorRef ∈ refs) then refs else sortRefs (refs ++ [authorRef]).

Section topic_rounds.

Implicit Types (ti : jsobj (list reference)) (ref : reference) (topic k : string).

Lemma elem_of_withReference ref refs : ref ∈ withReference ref refs.
Proof.
  unfold withReference. case_bool_decide; [done|].
  apply elem_of_sortRefs, elem_of_app. right. by apply list_elem_of_singleton.
Qed.

Lemma withReference_twice ref refs :
  withReference ref (withReference ref refs) = withReference ref refs.
Proof.
  unfold withReference at 1. by rewrite bool_decide_eq_true_2 by apply elem_of_withReference.
Qed.

Lemma addReference_own ref ti topic ti' k :
  ServiceWorker.addReference ref ti topic = Ok ti' →
  own ti' k = if decide (k = topic) then Some (withReference ref (default [] (own ti topic)))
              else own ti k.
Proof.
  rewrite addReference_cases. unfold withReference.
  destruct (get ti topic) as [refs| |] eqn:E; [|discriminate|]; intros [= <-].
  - apply get_Own in E. rewrite E. simpl. destruct (decide (k = topic)) as [->|Hne].
    + case_bool_decide; [done|]. by rewrite own_set_eq.
    + case_bool_decide; [done|]. by rewrite own_set_ne.
  - assert (own ti topic = None) as ->.
    { unfold get in E. by destruct (own ti topic). }
    simpl. destruct (decide (k = topic)) as [->|Hne].
    + by rewrite own_set_eq.
    + by rewrite !own_set_ne.
Qed.

Lemma addReferences_own ref topics ti ti' k :
  ServiceWorker.addReferences ref ti topics = (ti', Ok ()) →
  own ti' k = if bool_decide (k ∈ topics) then Some (withReference ref (default [] (own ti k)))
              else own ti k.
Proof.
  revert ti. induction topics as [|t rest IH]; intros ti; cbn [ServiceWorker.addReferences].
  - intros [= <-]. by rewrite bool_decide_eq_false_2 by apply not_elem_of_nil.
  - destruct (ServiceWorker.addReference ref ti t) as [ti1|e] eqn:E; [|discriminate].
    intros Hrest. rewrite (IH _ Hrest), (addReference_own _ _ _ _ k E).
    destruct (decide (k = t)) as [->|Hne].
    + rewrite (bool_decide_eq_true_2 (t ∈ t :: rest)) by by left.
      simpl. rewrite withReference_twice. by case_bool_decide.
    + assert (bool_decide (k ∈ t :: rest) = bool_decide (k ∈ rest)) as ->; [|done].
      apply bool_decide_ext. rewrite elem_of_cons. tauto.
Qed.

Lemma readsPrototype_addReference ref ti topic ti' k :
  ServiceWorker.addReference ref ti topic = Ok ti' → readsPrototype ti' k = readsPrototype ti k.
Proof.
  intros E. unfold readsPrototype, get. rewrite (addReference_own _ _ _ _ k E).
  destruct (decide (k = topic)) as [->|Hne]; [|done].
  rewrite addReference_cases in E. unfold get in E.
  destruct (own ti topic); [done|]. by case_bool_decide.
Qed.

Lemma addReferences_completion ref topics ti :
  (ServiceWorker.addReferences ref ti topics).2 =
  if existsb (readsPrototype ti) topics then Throw TypeError else Ok ().
Proof.
  revert ti. induction topics as [|t rest IH]; intros ti; simpl; [done|].
  destruct (ServiceWorker.addReference ref ti t) as [ti1|e] eqn:E.
  - rewrite IH. assert (readsPrototype ti t = false) as ->.
    { rewrite addReference_cases in E. unfold readsPrototype. by destruct (get ti t). }
    simpl. assert (existsb (readsPrototype ti1) rest = existsb (readsPrototype ti) rest) as ->;
      [|done].
    clear IH. induction rest as [|t' rest' IH']; simpl; [done|].
    by rewrite IH', (readsPrototype_addReference _ _ _ _ t' E).
  - rewrite addReference_cases in E. unfold readsPrototype.
    destruct (get ti t); by try injection E as <-.
Qed.

End topic_rounds.

(** X3. [updateTopicIndex] throws a [TypeError] exactly when one of the
    topics is no key of the index and is named like a member of
    [Object.prototype] ([constructor], [toString], ...); otherwise it
    completes. *)
Theorem updateTopicIndex_completion (kb : KB) (topics : list string) (authorRef : reference) :
  (ServiceWorker.updateTopicIndex kb topics authorRef).2 =
  if existsb (readsPrototype (default [] (topic_index kb))) topics
  then Throw TypeError else Ok ().
Proof.
  unfold ServiceWorker.updateTopicIndex.
  rewrite <- (addReferences_completion authorRef topics (default [] (topic_index kb))).
  by destruct (ServiceWorker.addReferences authorRef (default [] (topic_index kb)) topics)
    as [ti1 [[]|e]].
Qed.

(** X4. A call of [updateTopicIndex] that completes changes the topic
    index and nothing else.  Every topic of the call then lists the
    reference: a list that had it is unchanged, another list has it
    inserted in sorted position, a missing topic is created with the
    reference alone.  The lists of the other topics are unchanged. *)
Theorem updateTopicIndex_result (kb : KB) (topics : list string) (authorRef : reference) :
  plain (default [] (topic_index kb)) →
  let r := ServiceWorker.updateTopicIndex kb topics authorRef in
  r.2 = Ok () →
  version r.1 = version kb ∧ last_updated r.1 = last_updated kb ∧
  favorite_authors r.1 = favorite_authors kb ∧
  ∀ topic,
    refsOf r.1 topic =
    if bool_decide (topic ∈ topics)
    then Some (let refs := default [] (refsOf kb topic) in
               if bool_decide (authorRef ∈ refs) then refs else sortRefs (refs ++ [authorRef]))
    else refsOf kb topic.
Proof.
  intros Hp r. subst r. unfold ServiceWorker.updateTopicIndex, refsOf.
  destruct (ServiceWorker.addReferences authorRef (default [] (topic_index kb)) topics)
    as [ti1 [[]|e]] eqn:E; simpl; [|discriminate].
  intros _. repeat split. intros topic.
  rewrite own_sortKeys by by eapply addReferences_plain.
  apply (addReferences_own _ _ _ _ _ E).
Qed.

Lemma updateTopicIndex_result_witness :
  refsOf (ServiceWorker.updateTopicIndex indexed ["ml"; "ai"] (Some "@turing")).1 "ai"
    = Some [Some "@ada"; Some "@turing"; Some "Grace"] ∧
  refsOf (ServiceWorker.updateTopicIndex indexed ["ml"; "ai"] (Some "@turing")).1 "ml"
    = Some [Some "@turing"] ∧
  refsOf (ServiceWorker.updateTopicIndex indexed ["ml"; "ai"] (Some "@turing")).1 "rust"
    = Some [Some "Grace"].
Proof.
  destruct (updateTopicIndex_result indexed ["ml"; "ai"] (Some "@turing") eq_refl eq_refl)
    as (_ & _ & _ & H).
  split; [|split].
  - rewrite (H "ai"). vm_compute. reflexivity.
  - rewrite (H "ml"). vm_compute. reflexivity.
  - rewrite (H "rust"). vm_compute. reflexivity.
Defined.

(** X5. After a call of [updateTopicIndex] that completes, the popup is
    offered the topics of the call besides those it was offered before,
    and no other. *)
Theorem getExistingTopics_after_update
    (kb : KB) (topics : list string) (authorRef : reference) (t : string) :
  plain (default [] (topic_index kb)) →
  let r := ServiceWorker.updateTopicIndex kb topics authorRef in
  r.2 = Ok () →
  t ∈ Topics.getExistingTopics r.1 ↔ t ∈ Topics.getExistingTopics kb ∨ t ∈ topics.
Proof.
  intros Hp r. subst r. rewrite !elem_of_getExistingTopics.
  unfold ServiceWorker.updateTopicIndex.
  destruct (ServiceWorker.addReferences authorRef (default [] (topic_index kb)) topics)
    as [ti1 [[]|e]] eqn:E; simpl; [|discriminate].
  intros _. rewrite <- !own_Some_keys.
  rewrite own_sortKeys by by eapply addReferences_plain.
  rewrite (addReferences_own _ _ _ _ t E).
  case_bool_decide as Hin.
  - split; [tauto|]. intros _. left. by eexists.
  - tauto.
Qed.

Lemma getExistingTopics_after_update_witness :
  "ml" ∈ Topics.getExistingTopics
           (ServiceWorker.updateTopicIndex indexed ["ml"; "ai"] (Some "@turing")).1.
Proof.
  apply (getExistingTopics_after_update indexed ["ml"; "ai"] (Some "@turing") "ml"
           eq_refl eq_refl).
  right. apply (bool_decide_unpack _). vm_compute. exact I.
Defined.

(** ** What [addOrUpdateAuthor] leaves alone, and where it gets stuck *)

Section upsert_frame.

Variable parseURL : string → option URL.

(** An author record that lacks the field its platform identifies it by
    makes the comparison throw, whatever is looked for. *)
Lemma sameAuthor_no_identity platform a id :
  ServiceWorker.getAuthorIdentifier platform a = IdUndefined →
  ServiceWorker.sameAuthor parseURL platform a id = Throw TypeError.
Proof.
  unfold ServiceWorker.getAuthorIdentifier, ServiceWorker.sameAuthor.
  destruct (String.eqb platform "x"); [by destruct (handle a)|].
  destruct (String.eqb platform "linkedin"); [by destruct (profile_url a)|].
  destruct (String.eqb platform "substack"); [by destruct (url a)|].
  by destruct (String.eqb platform "generic_web").
Qed.

Lemma getAuthorIdentifier_undefined platform a :
  ServiceWorker.getAuthorIdentifier platform a = IdUndefined →
  platform ∉ objectPrototypeKeys.
Proof.
  unfold ServiceWorker.getAuthorIdentifier. intros H Hin.
  apply (bool_decide_pack _) in Hin.
  destruct (String.eqb_spec platform "x") as [->|_]; [done|].
  destruct (String.eqb_spec platform "linkedin") as [->|_]; [done|].
  destruct (String.eqb_spec platform "substack") as [->|_]; [done|].
  by destruct (String.eqb platform "generic_web").
Qed.

(** A record compared with its own identifier. *)
Lemma sameAuthor_own_identifier platform a :
  platform ∈ platforms →
  ServiceWorker.getAuthorIdentifier platform a ≠ IdUndefined →
  ServiceWorker.sameAuthor parseURL platform a (ServiceWorker.getAuthorIdentifier platform a)
  = Ok true.
Proof.
  unfold platforms. rewrite !elem_of_cons, elem_of_nil.
  unfold ServiceWorker.getAuthorIdentifier, ServiceWorker.sameAuthor.
  intros [->|[->|[->|[->|[]]]]]; simpl.
  - destruct (handle a); [|done]. intros _. simpl. by rewrite String.eqb_refl.
  - destruct (profile_url a); [|done]. intros _. simpl. by rewrite String.eqb_refl.
  - destruct (url a); [|done]. intros _. simpl. by rewrite String.eqb_refl.
  - intros _. by rewrite !bool_decide_eq_true_2.
Qed.

Lemma platforms_not_prototype platform : platform ∈ platforms → platform ∉ objectPrototypeKeys.
Proof.
  intros Hp Hin. apply (bool_decide_pack _) in Hin. revert Hp Hin. unfold platforms.
  rewrite !elem_of_cons, elem_of_nil. by intros [->|[->|[->|[->|[]]]]].
Qed.

(** An author that has been stored or updated is found again. *)
Lemma findAuthor_after_upsert kb platform authorData i isNew :
  platform ∈ platforms →
  ServiceWorker.getAuthorIdentifier platform authorData ≠ IdUndefined →
  (ServiceWorker.addOrUpdateAuthor parseURL kb platform authorData).2 = Ok (i, isNew) →
  ServiceWorker.findAuthor parseURL
    (ServiceWorker.addOrUpdateAuthor parseURL kb platform authorData).1 platform
    (ServiceWorker.getAuthorIdentifier platform authorData) = Ok (Some i).
Proof.
  intros Hp Hid.
  pose proof (get_not_inherited (default [] (favorite_authors kb)) platform
                (platforms_not_prototype platform Hp)) as Hget.
  pose proof (upsert_view parseURL kb platform authorData Hget) as [Hget' Hview].
  cbv zeta in Hview. intros Hr.
  rewrite (findAuthor_authorsAt parseURL _ _ _ Hget').
  destruct (ServiceWorker.findFrom parseURL platform _ (authorsAt kb platform) 0)
    as [[i0|]|e] eqn:Hfind.
  - destruct Hview as [Hr' ->]. rewrite Hr' in Hr. injection Hr as <- <-.
    rewrite findFrom_firstTrue in *.
    destruct (authorsAt kb platform !! i0) as [ex|] eqn:Hi; [|done].
    rewrite list_fmap_insert, sameAuthor_merged.
    rewrite list_insert_id; [done|]. by rewrite list_lookup_fmap, Hi.
  - destruct Hview as [Hr' ->]. rewrite Hr' in Hr. injection Hr as <- <-.
    rewrite findFrom_firstTrue in *. rewrite fmap_app.
    rewrite firstTrue_app_false by by apply firstTrue_None in Hfind.
    rewrite length_fmap. simpl.
    by rewrite (sameAuthor_own_identifier platform authorData Hp Hid).
  - destruct Hview as [Hr' _]. by rewrite Hr' in Hr.
Qed.

End upsert_frame.

(** X6. [addOrUpdateAuthor] touches the list of its platform only.  The
    version, the date and the topic index of the document and the lists of
    the other platforms are as before, and every author of the platform is
    still at its position, changed at most in its topics; also when the
    call throws. *)
Theorem addOrUpdateAuthor_frame
    (parseURL : string → option URL) (kb : KB) (platform : string) (authorData : Author) :
  let r := ServiceWorker.addOrUpdateAuthor parseURL kb platform authorData in
  version r.1 = version kb ∧ last_updated r.1 = last_updated kb ∧
  topic_index r.1 = topic_index kb ∧
  (∀ other, other ≠ platform →
     own (default [] (favorite_authors r.1)) other = own (default [] (favorite_authors kb)) other) ∧
  (∀ j before, authorsAt kb platform !! j = Some before →
     ∃ after, authorsAt r.1 platform !! j = Some after ∧
              set_topics after [] = set_topics before []).
Proof.
  intros r. subst r.
  assert (get (default [] (favorite_authors kb)) platform = Inherited ∨
          get (default [] (favorite_authors kb)) platform ≠ Inherited) as [Hinh|Hget]
    by (destruct (get (default [] (favorite_authors kb)) platform); [right|left|right]; done).
  - unfold ServiceWorker.addOrUpdateAuthor, ServiceWorker.findAuthor, ServiceWorker.authorsOf.
    cbv zeta. rewrite Hinh. simpl. rewrite Hinh. simpl.
    repeat split; try done. intros j before Hj. exists before. split; [|done].
    unfold authorsAt in *. by destruct (favorite_authors kb).
  - assert (∀ other, other ≠ platform →
              own (ensured kb platform) other = own (default [] (favorite_authors kb)) other)
      as Hother.
    { intros other Hne. unfold ensured.
      destruct (get (default [] (favorite_authors kb)) platform); [done..|].
      by rewrite own_set_ne. }
    pose proof (upsert_view parseURL kb platform authorData Hget) as [_ Hview].
    cbv zeta in Hview.
    rewrite (addOrUpdateAuthor_unfold parseURL kb platform authorData Hget) in *. cbv zeta in *.
    destruct (ServiceWorker.findFrom parseURL platform _ (authorsAt kb platform) 0)
      as [[i|]|e] eqn:Hfind.
    + destruct Hview as [_ Hl].
      assert (∀ j before, authorsAt kb platform !! j = Some before →
                ∃ after,
                  match authorsAt kb platform !! i with
                  | Some existingAuthor =>
                      <[i := merged existingAuthor authorData]> (authorsAt kb platform)
                  | None => authorsAt kb platform
                  end !! j = Some after ∧ set_topics after [] = set_topics before []) as Hkeep.
      { intros j before Hj. destruct (authorsAt kb platform !! i) as [ex|] eqn:Hi; [|by eauto].
        destruct (decide (i = j)) as [->|Hne].
        - exists (merged ex authorData). rewrite list_lookup_insert_eq by by eapply lookup_lt_Some.
          split; [done|]. assert (ex = before) as -> by congruence.
          unfold merged. by destruct (topics authorData).
        - exists before. by rewrite list_lookup_insert_ne. }
      destruct (authorsAt kb platform !! i) as [ex|] eqn:Hi;
        [destruct (topics authorData) as [inc|] eqn:Ht|]; simpl in *;
        (repeat split; [intros other Hne; rewrite ?own_set_ne by done; by apply Hother|]);
        rewrite Hl; apply Hkeep.
    + destruct Hview as [_ Hl]. simpl in *.
      repeat split; [intros other Hne; rewrite own_set_ne by done; by apply Hother|].
      intros j before Hj. exists before. rewrite Hl. split; [|done].
      by apply lookup_app_l_Some.
    + destruct Hview as [_ Hl]. simpl in *.
      repeat split; [intros other Hne; by apply Hother|].
      intros j before Hj. exists before. by rewrite Hl.
Qed.

(** X7. An author record without the field that identifies it on its
    platform (the handle on [x], the profile address on [linkedin], the
    address on [substack]) is accepted into an empty list.  Once such a
    record is the first of the list, every later call for that platform
    throws a [TypeError]. *)
Theorem addOrUpdateAuthor_without_identity
    (parseURL : string → option URL) (kb : KB) (platform : string) (nameless : Author) :
  ServiceWorker.getAuthorIdentifier platform nameless = IdUndefined →
  (authorsAt kb platform = [] →
   let r := ServiceWorker.addOrUpdateAuthor parseURL kb platform nameless in
   r.2 = Ok (0, true) ∧ authorsAt r.1 platform = [nameless]) ∧
  (∀ rest authorData,
     authorsAt kb platform = nameless :: rest →
     let r := ServiceWorker.addOrUpdateAuthor parseURL kb platform authorData in
     r.2 = Throw TypeError ∧ authorsAt r.1 platform = nameless :: rest).
Proof.
  intros Hid.
  assert (get (default [] (favorite_authors kb)) platform ≠ Inherited) as Hget
    by by eapply get_not_inherited, getAuthorIdentifier_undefined.
  split.
  - intros Hl. pose proof (upsert_view parseURL kb platform nameless Hget) as [_ Hview].
    cbv zeta in Hview. rewrite Hl in Hview. exact Hview.
  - intros rest authorData Hl.
    pose proof (upsert_view parseURL kb platform authorData Hget) as [_ Hview].
    cbv zeta in Hview. rewrite Hl in Hview. simpl in Hview.
    rewrite (sameAuthor_no_identity parseURL platform nameless _ Hid) in Hview.
    exact Hview.
Qed.

Lemma addOrUpdateAuthor_without_identity_witness :
  let stuck := (ServiceWorker.addOrUpdateAuthor parseHttpUrl emptyKB "x" (anAuthor "Ada")).1 in
  authorsAt stuck "x" = [anAuthor "Ada"] ∧
  (ServiceWorker.addOrUpdateAuthor parseHttpUrl stuck "x" alice).2 = Throw TypeError.
Proof.
  intros stuck.
  destruct (addOrUpdateAuthor_without_identity parseHttpUrl emptyKB "x" (anAuthor "Ada") eq_refl)
    as [Hfirst _].
  destruct (Hfirst eq_refl) as [_ Hl]. split; [exact Hl|].
  destruct (addOrUpdateAuthor_without_identity parseHttpUrl stuck "x" (anAuthor "Ada") eq_refl)
    as [_ Hlater].
  exact (proj1 (Hlater [] alice Hl)).
Defined.

(** X8. On the four platforms, an author that [addOrUpdateAuthor] has
    stored or updated, and that has the field identifying it, is found
    again by its own identifier at the position the call reported. *)
Theorem addOrUpdateAuthor_then_findAuthor
    (parseURL : string → option URL) (kb : KB) (platform : string) (authorData : Author)
    (i : nat) (isNew : bool) :
  platform ∈ platforms →
  ServiceWorker.getAuthorIdentifier platform authorData ≠ IdUndefined →
  let r := ServiceWorker.addOrUpdateAuthor parseURL kb platform authorData in
  r.2 = Ok (i, isNew) →
  ServiceWorker.findAuthor parseURL r.1 platform
    (ServiceWorker.getAuthorIdentifier platform authorData) = Ok (Some i).
Proof.
  intros Hp Hid r. subst r. by apply findAuthor_after_upsert.
Qed.

Lemma addOrUpdateAuthor_then_findAuthor_witness :
  ServiceWorker.findAuthor parseHttpUrl
    (ServiceWorker.addOrUpdateAuthor parseHttpUrl withAda "linkedin"
       (ada "https://www.linkedin.com/in/Grace-Hopper/" ["compilers"])).1
    "linkedin" (IdString "https://www.linkedin.com/in/Grace-Hopper/") = Ok (Some 1).
Proof.
  apply (addOrUpdateAuthor_then_findAuthor parseHttpUrl withAda "linkedin"
           (ada "https://www.linkedin.com/in/Grace-Hopper/" ["compilers"]) 1 true).
  - apply (bool_decide_unpack _). vm_compute. exact I.
  - discriminate.
  - vm_compute. reflexivity.
Defined.

(** ** The platform of a page *)

Module Platform.
Section with_parser.

Variable parseURL : string → option URL.

(** [detectPlatform]; [new URL(url)] throws a [TypeError] on a string
    that is no address. *)
Definition detectPlatform (url : string) : result string :=
  match parseURL url with
  | None => Throw TypeError
  | Some parsed =>
      let hostname := toLowerCase (hostname parsed) in
      if includes "twitter.com" hostname || includes "x.com" hostname then Ok "x"
      else if includes "linkedin.com" hostname then Ok "linkedin"
      else if includes "substack.com" hostname then Ok "substack"
      else Ok "generic_web"
  end.

End with_parser.
End Platform.

Example detectPlatform_ex :
  Platform.detectPlatform parseHttpUrl "https://www.LinkedIn.com/in/ada" = Ok "linkedin" ∧
  Platform.detectPlatform parseHttpUrl "https://ada.substack.com/p/notes" = Ok "substack" ∧
  Platform.detectPlatform parseHttpUrl "https://example.org/" = Ok "generic_web" ∧
  Platform.detectPlatform parseHttpUrl "not a url" = Throw TypeError.
Proof. vm_compute. done. Qed.

Lemma prefix_app (pat rest : string) : String.prefix pat (pat +:+ rest) = true.
Proof.
  unfold String.app. induction pat as [|c pat IH]; simpl; [by destruct rest|].
  destruct (ascii_dec c c) as [_|Hne]; [done|]. by destruct Hne.
Qed.

Lemma includes_prefix (pat s : string) : String.prefix pat s = true → includes pat s = true.
Proof. intros H. destruct s; cbn [includes]; by rewrite H. Qed.

Lemma includes_app (pat before after : string) :
  includes pat (before +:+ pat +:+ after) = true.
Proof.
  induction before as [|c before IH].
  - change (includes pat (pat +:+ after) = true). apply includes_prefix, prefix_app.
  - change (includes pat (String c (before +:+ pat +:+ after)) = true).
    cbn [includes]. rewrite IH. apply orb_true_r.
Qed.

(** X9. [detectPlatform] looks for [x.com] anywhere in the host name: a
    host that merely contains these letters, such as [netflix.com], is
    taken for the platform [x]. *)
Theorem detectPlatform_substring
    (parseURL : string → option URL) (url : string) (parsed : URL) (before after : string) :
  parseURL url = Some parsed →
  toLowerCase (hostname parsed) = before +:+ "x.com" +:+ after →
  Platform.detectPlatform parseURL url = Ok "x".
Proof.
  intros Hp Hhost. unfold Platform.detectPlatform. rewrite Hp. cbv zeta.
  by rewrite Hhost, (includes_app "x.com"), orb_true_r.
Qed.

Lemma detectPlatform_substring_witness :
  Platform.detectPlatform parseHttpUrl "https://www.netflix.com/title/80057281" = Ok "x".
Proof.
  eapply (detectPlatform_substring parseHttpUrl _ _ "www.netfli" "").
  - vm_compute. reflexivity.
  - reflexivity.
Defined.

(** ** The folder of the bookmarks *)

Section paths.

Implicit Types (s a b : string) (sep : ascii).

Lemma append_cons (c : ascii) a b : String c a +:+ b = String c (a +:+ b).
Proof. done. Qed.

Lemma split_nonempty sep s : split sep s ≠ [].
Proof.
  destruct s as [|c r]; simpl; [done|].
  destruct (Ascii.eqb c sep); [done|]. by destruct (split sep r).
Qed.

Lemma split_app_sep sep a b : split sep (a +:+ String sep b) = split sep a ++ split sep b.
Proof.
  unfold String.app. induction a as [|c a IH]; simpl.
  - by rewrite Ascii.eqb_refl.
  - destruct (Ascii.eqb c sep); [by rewrite IH|].
    rewrite IH. pose proof (split_nonempty sep a). by destruct (split sep a).
Qed.

Lemma split_no_sep sep s :
  all_chars (fun c => negb (Ascii.eqb c sep)) s = true → split sep s = [s].
Proof.
  induction s as [|c r IH]; simpl; [done|].
  intros [Hc Hr]%andb_true_iff. apply negb_true_iff in Hc. rewrite Hc, IH; done.
Qed.

Lemma concat_cons sep s l : l ≠ [] →
  String.concat (String sep "") (s :: l) = s +:+ String sep (String.concat (String sep "") l).
Proof. by destruct l. Qed.

Lemma append_assoc a b (c : string) : (a +:+ b) +:+ c = a +:+ (b +:+ c).
Proof. unfold String.app. induction a as [|x a IH]; simpl; [done|]. by f_equal. Qed.

Lemma concat_app sep (l1 l2 : list string) : l1 ≠ [] → l2 ≠ [] →
  String.concat (String sep "") (l1 ++ l2) =
  String.concat (String sep "") l1 +:+ String sep (String.concat (String sep "") l2).
Proof.
  intros H1 H2. induction l1 as [|s l1 IH]; [done|].
  destruct l1 as [|s' l1].
  - simpl app. by rewrite concat_cons.
  - change ((s :: s' :: l1) ++ l2) with (s :: ((s' :: l1) ++ l2)).
    rewrite !concat_cons by done. rewrite IH by done.
    by rewrite append_assoc.
Qed.

(** Joining what was split gives the path back. *)
Lemma concat_split sep s : String.concat (String sep "") (split sep s) = s.
Proof.
  induction s as [|c r IH]; simpl; [done|].
  destruct (Ascii.eqb_spec c sep) as [->|Hne].
  - rewrite concat_cons by apply split_nonempty. by rewrite IH.
  - pose proof (split_nonempty sep r). destruct (split sep r) as [|w ws]; [done|].
    destruct ws as [|w' ws].
    + simpl in *. by rewrite IH.
    + rewrite concat_cons by done. rewrite concat_cons in IH by done.
      by rewrite append_cons, IH.
Qed.

Lemma list_find_app_r {A} (P : A → Prop) `{!∀ x, Decision (P x)} (l1 l2 : list A) :
  Forall (fun x => ¬ P x) l1 →
  list_find P (l1 ++ l2) = prod_map (fun i => length l1 + i) id <$> list_find P l2.
Proof.
  intros Hno. induction Hno as [|x l1 Hx _ IH]; simpl.
  - by destruct (list_find P l2) as [[??]|].
  - rewrite decide_False by done. rewrite IH.
    by destruct (list_find P l2) as [[??]|].
Qed.

Lemma removelast_snoc {A} (l : list A) (x : A) : List.removelast (l ++ [x]) = l.
Proof. induction l as [|y l IH]; [done|]. simpl. rewrite IH. by destruct l. Qed.

End paths.

(** The name of a folder: it holds no slash. *)
Definition no_sep (s : string) : Prop :=
  all_chars (fun c => negb (Ascii.eqb c "/")) s = true.

(** X10. For a path that runs through a folder [AI_KB],
    [getBookmarkBaseDir] is the folder [08_bookmarked_content] of the
    first such folder, whatever follows it in the path. *)
Theorem getBookmarkBaseDir_root (root rest : string) :
  "AI_KB" ∉ split "/" root →
  rest = "" ∨ (∃ below, rest = "/" +:+ below) →
  Bookmark.getBookmarkBaseDir (root +:+ "/AI_KB" +:+ rest)
  = root +:+ "/AI_KB/08_bookmarked_content".
Proof.
  intros Hroot Hrest. unfold Bookmark.getBookmarkBaseDir. cbv zeta.
  assert (∃ tail, split "/" (root +:+ "/AI_KB" +:+ rest) = split "/" root ++ "AI_KB" :: tail)
    as [tail ->].
  { change (root +:+ "/AI_KB" +:+ rest) with (root +:+ String "/" ("AI_KB" +:+ rest)).
    rewrite split_app_sep. destruct Hrest as [->|[below ->]].
    - by exists [].
    - exists (split "/" below).
      change ("AI_KB" +:+ "/" +:+ below) with ("AI_KB" +:+ String "/" below).
      by rewrite split_app_sep. }
  rewrite (list_find_app_r (fun p => p = "AI_KB")).
  2:{ apply Forall_forall. intros p Hp ->. done. }
  simpl. rewrite Nat.add_0_r, (take_app_add' (split "/" root)) by done. simpl.
  rewrite concat_app by (try apply split_nonempty; done).
  rewrite concat_split. simpl. rewrite append_assoc. done.
Qed.

Lemma getBookmarkBaseDir_root_witness :
  Bookmark.getBookmarkBaseDir "/Users/ada/AI_KB/notes/AI_KB/curated_sources.yaml"
  = "/Users/ada/AI_KB/08_bookmarked_content".
Proof.
  apply (getBookmarkBaseDir_root "/Users/ada" "/notes/AI_KB/curated_sources.yaml").
  - apply (bool_decide_unpack _). vm_compute. exact I.
  - right. by exists "notes/AI_KB/curated_sources.yaml".
Defined.

(** X11. For a path through no folder [AI_KB], [getBookmarkBaseDir] is
    the folder [08_bookmarked_content] beside the file.  A bare file name
    has no folder: the result is then [/08_bookmarked_content], at the root
    of the file system. *)
Theorem getBookmarkBaseDir_fallback (file : string) :
  no_sep file → file ≠ "AI_KB" →
  Bookmark.getBookmarkBaseDir file = "/08_bookmarked_content" ∧
  ∀ dir, "AI_KB" ∉ split "/" dir →
         Bookmark.getBookmarkBaseDir (dir +:+ "/" +:+ file) = dir +:+ "/08_bookmarked_content".
Proof.
  intros Hfile Hne. unfold Bookmark.getBookmarkBaseDir. cbv zeta. split.
  - rewrite (split_no_sep "/" file Hfile). simpl. by rewrite decide_False.
  - intros dir Hdir.
    change (dir +:+ "/" +:+ file) with (dir +:+ String "/" file).
    rewrite split_app_sep, (split_no_sep "/" file Hfile).
    rewrite (list_find_app_r (fun p => p = "AI_KB")).
    2:{ apply Forall_forall. intros p Hp ->. done. }
    simpl. rewrite decide_False by done. simpl.
    by rewrite removelast_snoc, concat_split.
Qed.

Lemma getBookmarkBaseDir_fallback_witness :
  Bookmark.getBookmarkBaseDir "curated_sources.yaml" = "/08_bookmarked_content" ∧
  Bookmark.getBookmarkBaseDir "/Users/ada/notes/curated_sources.yaml"
  = "/Users/ada/notes/08_bookmarked_content".
Proof.
  destruct (getBookmarkBaseDir_fallback "curated_sources.yaml" eq_refl) as [Hbare Hdir];
    [discriminate|].
  split; [exact Hbare|]. apply (Hdir "/Users/ada/notes").
  apply (bool_decide_unpack _). vm_compute. exact I.
Defined.

(** ** Quoting for YAML *)

(** A character that may stand for itself between the double quotes of a
    YAML 1.2 scalar: a tab, or a character from the space upwards.  A line
    break is folded by the reader, and the other control characters are
    not allowed. *)
Definition is_quotable (c : ascii) : bool :=
  let n := N_of_ascii c in (n =? 9)%N || (32 <=? n)%N.

(** Reading a double-quoted scalar of one line from behind its opening
    quote: a quote closes the scalar, a backslash with a backslash or a
    quote after it stands for that character, a character that may stand
    for itself does.  Line breaks, with their folding, and the other
    escapes of YAML are outside this reader: it gives [None] for them.  The
    result is the text read and what follows the closing quote. *)
Fixpoint readQuoted (s : string) : option (string * string) :=
  match s with
  | EmptyString => None
  | String c r =>
      if Ascii.eqb c (ascii_of_N 34) then Some (EmptyString, r)
      else if Ascii.eqb c Bookmark.backslash then
        match r with
        | String d r' =>
            if Ascii.eqb d Bookmark.backslash || Ascii.eqb d (ascii_of_N 34)
            then prod_map (String d) id <$> readQuoted r'
            else None
        | EmptyString => None
        end
      else if is_quotable c then prod_map (String c) id <$> readQuoted r
      else None
  end.

Lemma replaceAllChar_app c rep (a b : string) :
  Bookmark.replaceAllChar c rep (a +:+ b)
  = Bookmark.replaceAllChar c rep a +:+ Bookmark.replaceAllChar c rep b.
Proof.
  induction a as [|x a IH]; [done|].
  rewrite append_cons. cbn [Bookmark.replaceAllChar]. by rewrite IH, append_assoc.
Qed.

(** The escaped text, without the test for the empty string. *)
Definition escaped (s : string) : string :=
  Bookmark.replaceAllChar (ascii_of_N 34) (String Bookmark.backslash Bookmark.quote)
    (Bookmark.replaceAllChar Bookmark.backslash
       (String Bookmark.backslash (String Bookmark.backslash "")) s).

Lemma escapeYamlString_escaped (s : string) : Bookmark.escapeYamlString s = escaped s.
Proof. by destruct s. Qed.

Lemma escaped_cons (c : ascii) (s : string) :
  escaped (String c s) =
  (if Ascii.eqb c Bookmark.backslash then String Bookmark.backslash (String Bookmark.backslash "")
   else if Ascii.eqb c (ascii_of_N 34) then String Bookmark.backslash Bookmark.quote
   else String c "") +:+ escaped s.
Proof.
  unfold escaped. cbn [Bookmark.replaceAllChar]. rewrite replaceAllChar_app.
  f_equal. destruct (Ascii.eqb_spec c Bookmark.backslash) as [->|Hb]; [done|].
  cbn [Bookmark.replaceAllChar]. by destruct (Ascii.eqb c (ascii_of_N 34)).
Qed.

(** X12. A string without line breaks or other control characters,
    escaped by [escapeYamlString] and closed by a quote, reads back as the
    string itself, whatever follows: no quote or backslash of the string
    ends the scalar early. *)
Theorem escapeYamlString_reads_back (str rest : string) :
  all_chars is_quotable str = true →
  readQuoted (Bookmark.escapeYamlString str +:+ Bookmark.quote +:+ rest) = Some (str, rest).
Proof.
  rewrite escapeYamlString_escaped. induction str as [|c str IH]; [done|].
  intros [Hc Hstr]%andb_prop. specialize (IH Hstr).
  rewrite escaped_cons, append_assoc.
  destruct (Ascii.eqb_spec c Bookmark.backslash) as [->|Hb].
  - change (readQuoted (String Bookmark.backslash (String Bookmark.backslash
              (escaped str +:+ Bookmark.quote +:+ rest))) = Some (String Bookmark.backslash str, rest)).
    cbn [readQuoted]. change (Ascii.eqb Bookmark.backslash (ascii_of_N 34)) with false.
    rewrite Ascii.eqb_refl. cbv iota. cbn [orb]. by rewrite IH.
  - destruct (Ascii.eqb_spec c (ascii_of_N 34)) as [->|Hq].
    + change (readQuoted (String Bookmark.backslash (String (ascii_of_N 34)
                (escaped str +:+ Bookmark.quote +:+ rest))) = Some (String (ascii_of_N 34) str, rest)).
      cbn [readQuoted]. change (Ascii.eqb Bookmark.backslash (ascii_of_N 34)) with false.
      change (Ascii.eqb (ascii_of_N 34) Bookmark.backslash) with false.
      rewrite !Ascii.eqb_refl. cbv iota. cbn [orb]. by rewrite IH.
    + change (readQuoted (String c (escaped str +:+ Bookmark.quote +:+ rest))
              = Some (String c str, rest)).
      cbn [readQuoted].
      rewrite (proj2 (Ascii.eqb_neq _ _) Hq), (proj2 (Ascii.eqb_neq _ _) Hb), Hc.
      by rewrite IH.
Qed.

(** A path of Windows and a quotation. *)
Definition quotation : string :=
  "C:\tmp says " +:+ Bookmark.quote +:+ "hi" +:+ Bookmark.quote.

Lemma escapeYamlString_reads_back_witness :
  readQuoted (Bookmark.escapeYamlString quotation +:+ Bookmark.quote +:+ " # note")
  = Some (quotation, " # note").
Proof. apply (escapeYamlString_reads_back quotation " # note"). reflexivity. Defined.

(** A line break is written as it is: the scalar then runs over two lines,
    which this reader does not read. *)
Example escapeYamlString_line_break :
  Bookmark.escapeYamlString ("a" +:+ Bookmark.nl +:+ "b") = "a" +:+ Bookmark.nl +:+ "b" ∧
  readQuoted (Bookmark.escapeYamlString ("a" +:+ Bookmark.nl +:+ "b") +:+ Bookmark.quote) = None.
Proof. vm_compute. done. Qed.

(** ** The hyphens of a slug *)

(** No hyphen stands directly after a hyphen; [after] tells that the text
    follows one. *)
Fixpoint singleHyphens (after : bool) (s : string) : bool :=
  match s with
  | EmptyString => true
  | String c r =>
      if Ascii.eqb c "-" then negb after && singleHyphens true r else singleHyphens false r
  end.

Fixpoint lastChar (s : string) : option ascii :=
  match s with
  | EmptyString => None
  | String c EmptyString => Some c
  | String _ r => lastChar r
  end.

Section slug_hyphens.

Implicit Types (s : string) (b : bool).

Lemma slug_char_not_hyphen (c : ascii) : Slug.is_slug_char c = true → Ascii.eqb c "-" = false.
Proof. destruct (Ascii.eqb_spec c "-") as [->|]; [|done]. by vm_compute. Qed.

Lemma singleHyphens_weaken s : singleHyphens true s = true → singleHyphens false s = true.
Proof. destruct s as [|c s]; simpl; [done|]. by destruct (Ascii.eqb c "-"). Qed.

Lemma singleHyphens_hyphenate b s : singleHyphens b (Slug.hyphenate b s) = true.
Proof.
  revert b. induction s as [|c s IH]; intros b; simpl; [done|].
  destruct (Slug.is_slug_char c) eqn:Hc; simpl.
  - by rewrite (slug_char_not_hyphen c Hc).
  - destruct b; [apply IH|]. simpl. apply IH.
Qed.

Lemma singleHyphens_stripLeading s :
  singleHyphens false s = true →
  singleHyphens true (Slug.stripLeadingHyphens s) = true.
Proof.
  induction s as [|c s IH]; [done|]. cbn [singleHyphens].
  destruct (Ascii.eqb_spec c "-") as [->|Hne].
  - simpl. intros H. by apply IH, singleHyphens_weaken.
  - intros H. assert (Slug.stripLeadingHyphens (String c s) = String c s) as ->.
    { destruct c as [[] [] [] [] [] [] [] []]; done. }
    cbn [singleHyphens]. by rewrite (proj2 (Ascii.eqb_neq _ _) Hne).
Qed.

Lemma singleHyphens_stripTrailing b s :
  singleHyphens b s = true → singleHyphens b (Slug.stripTrailingHyphens s) = true.
Proof.
  revert b. induction s as [|c s IH]; intros b; [done|]. cbn [singleHyphens Slug.stripTrailingHyphens].
  destruct (Ascii.eqb c "-") eqn:Hc.
  - intros [Hb Hs]%andb_prop. specialize (IH true Hs).
    destruct (Slug.stripTrailingHyphens s); [done|].
    cbn [singleHyphens]. by rewrite Hc, Hb.
  - intros Hs. specialize (IH false Hs).
    destruct (Slug.stripTrailingHyphens s); cbn [singleHyphens]; by rewrite Hc.
Qed.

Lemma lastChar_stripTrailing s : lastChar (Slug.stripTrailingHyphens s) ≠ Some "-"%char.
Proof.
  induction s as [|c s IH]; [done|]. cbn [Slug.stripTrailingHyphens].
  destruct (Slug.stripTrailingHyphens s) as [|d r].
  - destruct (Ascii.eqb_spec c "-") as [->|Hne]; [done|]. simpl. congruence.
  - exact IH.
Qed.

Lemma singleHyphens_take b n s : singleHyphens b s = true → singleHyphens b (take n s) = true.
Proof.
  unfold take. revert b s. induction n as [|n IH]; intros b [|c s]; simpl; try done.
  destruct (Ascii.eqb c "-").
  - intros [Hb Hs]%andb_prop. by rewrite Hb, IH.
  - apply IH.
Qed.

Lemma take_all n s : String.length s ≤ n → take n s = s.
Proof.
  unfold take. revert s. induction n as [|n IH]; intros [|c s]; simpl; try done; try lia.
  intros Hn. rewrite IH; [done|lia].
Qed.

End slug_hyphens.

(** X13. The descriptive text of a slug never begins with a hyphen and
    never holds two hyphens in a row.  It does not end with a hyphen
    either, unless it was cut: the hyphens at the end are removed before
    the text is cut to 80 characters. *)
Theorem generateSlug_hyphens
    (parseURL : string → option URL) (parseDate : string → option Date) (now : Date)
    (title url datePublished : string) :
  let uncut := Slug.trimHyphens (Slug.hyphenate false
                 (toLowerCase (Slug.slugText parseURL title url))) in
  ∃ text,
    Slug.generateSlug parseURL parseDate now title url datePublished
      = isoDate (Slug.slugDate parseDate now datePublished) +:+ "_" +:+ text ∧
    singleHyphens true text = true ∧
    (String.length uncut ≤ 80 → text = uncut ∧ lastChar text ≠ Some "-"%char).
Proof.
  intros uncut. exists (take 80 uncut). split; [|split].
  - unfold Slug.generateSlug. by rewrite beforeT_toISOString.
  - apply singleHyphens_take, singleHyphens_stripTrailing, singleHyphens_stripLeading,
      singleHyphens_hyphenate.
  - intros Hlen. rewrite take_all by done. split; [done|]. apply lastChar_stripTrailing.
Qed.

Example generateSlug_cut_at_hyphen :
  Slug.generateSlug parseHttpUrl (fun _ => None) (mkDate 2026 2 22 9 5 0 7)
    "aaaaaaaaaaaaaaaaaaaaaaaaaaaaaaaaaaaaaaaaaaaaaaaaaaaaaaaaaaaaaaaaaaaaaaaaaaaaaaa more" "" ""
  = "2026-02-22_aaaaaaaaaaaaaaaaaaaaaaaaaaaaaaaaaaaaaaaaaaaaaaaaaaaaaaaaaaaaaaaaaaaaaaaaaaaaaaa-".
Proof. vm_compute. reflexivity. Qed.

(** ** The index update, step by step *)

Section index_update.

Variable Host : Type.
Variable native : Host → Request → Host * Reply.
Variable parseURL : string → option URL.
Variable now : Date.

Abbreviation WorldOf := (Worker.World Host).
Abbreviation saveToKB := (Worker.saveToKB Host native parseURL now).
Abbreviation afterSend := (afterSend Host native).

(** What [saveToKB] does to the document between the read and the write:
    the three steps on the document, each stopping the update when it
    throws. *)
Definition indexUpdate (kb : KB) (platform : string) (authorData : Author)
    (contentData : option Content) (topics : option (list string)) : KB * result SaveSummary :=
  match ServiceWorker.addOrUpdateAuthor parseURL kb platform authorData with
  | (kb, Throw e) => (kb, Throw e)
  | (kb, Ok (i, isNewAuthor)) =>
      match match contentData with
            | Some c => Worker.addContentAt parseURL now kb platform i (set_content_topics c topics)
            | None => (kb, Ok (mkOutcome true None))
            end with
      | (kb, Throw e) => (kb, Throw e)
      | (kb, Ok contentResult) =>
          match match topics with
                | Some (t :: ts) =>
                    ServiceWorker.updateTopicIndex kb (t :: ts)
                      (ServiceWorker.getAuthorRef platform
                         (default authorData (authorsAt kb platform !! i)))
                | _ => (kb, Ok ())
                end with
          | (kb, Throw e) => (kb, Throw e)
          | (kb, Ok _) =>
              (kb, Ok (mkSaveSummary isNewAuthor (success contentResult)
                         (bool_decide (reason contentResult = Some "duplicate"))))
          end
      end
  end.

(** What has happened when [saveToKB] is over. *)
Lemma saveToKB_unfold filePath platform authorData contentData topics (w : WorldOf) :
  saveToKB filePath platform authorData contentData topics w =
  let w1 := afterSend w (ReqRead filePath) in
  match (native (Worker.host Host w) (ReqRead filePath)).2 with
  | LastError message => (w1, Throw (Error message))
  | Replied response =>
      if r_success response then
        let w2 := Worker.set_cache_path Host (r_data response) filePath w1 in
        match r_data response with
        | None => (w2, Throw TypeError)
        | Some kb =>
            match indexUpdate kb platform authorData contentData topics with
            | (kb', Throw e) => (Worker.set_cache Host (Some kb') w2, Throw e)
            | (kb', Ok summary) =>
                let w3 := Worker.set_cache Host (Some kb') w2 in
                let w4 := afterSend w3 (ReqWrite filePath kb') in
                match (native (Worker.host Host w3) (ReqWrite filePath kb')).2 with
                | LastError message => (w4, Throw (Error message))
                | Replied written =>
                    if r_success written
                    then (Worker.set_cache Host (Some kb') w4, Ok summary)
                    else (w4, Throw (Error (Worker.errorOr (r_error written)
                                              "Failed to write KB file")))
                end
            end
        end
      else (w1, Throw (Error (Worker.errorOr (r_error response) "Failed to read KB file")))
  end.
Proof.
  unfold Worker.saveToKB, Worker.readKB. rewrite !bind_unfold, sendNativeMessage_eq. cbv zeta.
  destruct ((native (Worker.host Host w) (ReqRead filePath)).2) as [response|message];
    [|reflexivity].
  destruct (r_success response); [|reflexivity].
  rewrite !bind_unfold. simpl.
  destruct (r_data response) as [kb|]; [|reflexivity].
  rewrite bind_unfold. unfold indexUpdate.
  destruct (ServiceWorker.addOrUpdateAuthor parseURL kb platform authorData)
    as [kb1 [[i isNewAuthor]|e]]; [|reflexivity].
  cbn [Worker.inPlace]. rewrite bind_unfold.
  destruct contentData as [c|].
  - destruct (Worker.addContentAt parseURL now kb1 platform i (set_content_topics c topics))
      as [kb2 [contentResult|e]]; [|reflexivity].
    cbn [Worker.inPlace]. rewrite bind_unfold.
    destruct topics as [[|t ts]|].
    + cbn [Worker.ret]. unfold Worker.writeKB. rewrite !bind_unfold, sendNativeMessage_eq.
      destruct ((native _ (ReqWrite filePath kb2)).2) as [written|message]; [|reflexivity].
      by destruct (r_success written).
    + destruct (ServiceWorker.updateTopicIndex kb2 (t :: ts) _) as [kb3 [[]|e]]; [|reflexivity].
      cbn [Worker.inPlace]. unfold Worker.writeKB. rewrite !bind_unfold, sendNativeMessage_eq.
      destruct ((native _ (ReqWrite filePath kb3)).2) as [written|message]; [|reflexivity].
      by destruct (r_success written).
    + cbn [Worker.ret]. unfold Worker.writeKB. rewrite !bind_unfold, sendNativeMessage_eq.
      destruct ((native _ (ReqWrite filePath kb2)).2) as [written|message]; [|reflexivity].
      by destruct (r_success written).
  - cbn [Worker.ret]. rewrite bind_unfold.
    destruct topics as [[|t ts]|].
    + cbn [Worker.ret]. unfold Worker.writeKB. rewrite !bind_unfold, sendNativeMessage_eq.
      destruct ((native _ (ReqWrite filePath kb1)).2) as [written|message]; [|reflexivity].
      by destruct (r_success written).
    + destruct (ServiceWorker.updateTopicIndex kb1 (t :: ts) _) as [kb3 [[]|e]]; [|reflexivity].
      cbn [Worker.inPlace]. unfold Worker.writeKB. rewrite !bind_unfold, sendNativeMessage_eq.
      destruct ((native _ (ReqWrite filePath kb3)).2) as [written|message]; [|reflexivity].
      by destruct (r_success written).
    + cbn [Worker.ret]. unfold Worker.writeKB. rewrite !bind_unfold, sendNativeMessage_eq.
      destruct ((native _ (ReqWrite filePath kb1)).2) as [written|message]; [|reflexivity].
      by destruct (r_success written).
Qed.

End index_update.

(** ** The answers of the message handler *)

(** What the handler sends back for the cases below: the two answers, and
    [{ success: false, error }] for the error whose message it reports. *)
Inductive Answer : Type :=
  | DuplicateAnswer (authorExists contentExists : bool)
  | TopicsAnswer (topics : list string)
  | Failure (error : exn).

Module Handler.
Section handler.

Variable Host : Type.
Variable native : Host → Request → Host * Reply.
Variable parseURL : string → option URL.

#[local] Existing Instance Worker.M_bind.

(** [kbCache || (await readKB(filePath))] *)
Definition cachedOrRead (filePath : string) : Worker.M Host (option KB) :=
  fun w =>
    match Worker.kbCache Host w with
    | Some kb => (w, Ok (Some kb))
    | None => Worker.readKB Host native filePath w
    end.

(** The [try] and [catch] around every case: the error goes to the
    console and its message into the answer. *)
Definition caught (m : Worker.M Host Answer) : Worker.M Host Answer :=
  Worker.tryCatch Host m
    (fun e => Worker.modify Host (Worker.warn Host e) ;; Worker.ret Host (Failure e)).

(** The case [checkDuplicate] of the handler. *)
Definition checkDuplicate (filePath platform : string) (authorIdentifier : identifier)
    (url : string) : Worker.M Host Answer :=
  caught (
    currentKB ← cachedOrRead filePath;
    match currentKB with
    | None => Worker.throw Host TypeError
    | Some kb =>
        match ServiceWorker.findAuthor parseURL kb platform authorIdentifier with
        | Throw e => Worker.throw Host e
        | Ok None => Worker.ret Host (DuplicateAnswer false false)
        | Ok (Some i) =>
            match authorsAt kb platform !! i with
            | Some author =>
                Worker.ret Host
                  (DuplicateAnswer true (ServiceWorker.contentExists parseURL author url platform))
            | None => Worker.throw Host TypeError
            end
        end
    end).

(** The case [getTopics] of the handler; [configured] is the path that
    [getSettings] found in the storage of the extension. *)
Definition getTopics (configured : option string) : Worker.M Host Answer :=
  caught (
    match Worker.truthy configured with
    | None => Worker.ret Host (Failure (Error "KB file path not configured"))
    | Some path =>
        kbData ← cachedOrRead path;
        match kbData with
        | None => Worker.throw Host TypeError
        | Some kb => Worker.ret Host (TopicsAnswer (Topics.getExistingTopics kb))
        end
    end).

End handler.
End Handler.

Section index_facts.

Variable parseURL : string → option URL.
Variable now : Date.

Lemma sameAuthor_addContent today platform' a platform c id :
  ServiceWorker.sameAuthor parseURL platform'
    (ServiceWorker.addContent parseURL today a platform c).1 id
  = ServiceWorker.sameAuthor parseURL platform' a id.
Proof.
  unfold ServiceWorker.addContent, ServiceWorker.set_contentOf, ServiceWorker.contentOf.
  destruct (ServiceWorker.contentKey platform);
    [destruct (saved_posts a)|destruct (saved_articles a)];
    by destruct (ServiceWorker.contentExists parseURL _ _ _).
Qed.

Lemma contentExists_addContent today a platform c :
  ServiceWorker.contentExists parseURL
    (ServiceWorker.addContent parseURL today a platform c).1 (c_url c) platform = true.
Proof.
  destruct (ServiceWorker.contentExists parseURL a (c_url c) platform) eqn:Hex.
  - by rewrite addContent_duplicate.
  - rewrite addContent_new by done. simpl. apply contentExists_iff.
    exists (set_date_saved c today). rewrite contentOf_set. simpl. split; [|done].
    apply elem_of_app. right. by apply list_elem_of_singleton.
Qed.

Lemma updateTopicIndex_favorite_authors kb topics ref :
  favorite_authors (ServiceWorker.updateTopicIndex kb topics ref).1 = favorite_authors kb.
Proof.
  unfold ServiceWorker.updateTopicIndex.
  by destruct (ServiceWorker.addReferences ref (default [] (topic_index kb)) topics)
    as [ti [[]|e]].
Qed.

Lemma findAuthor_same_authors kb1 kb2 platform id :
  favorite_authors kb1 = favorite_authors kb2 →
  ServiceWorker.findAuthor parseURL kb1 platform id
  = ServiceWorker.findAuthor parseURL kb2 platform id.
Proof. unfold ServiceWorker.findAuthor, ServiceWorker.authorsOf. by intros ->. Qed.

(** Once the author and the item are in the document, the item is found
    under the author, whatever the topic index does. *)
Lemma indexUpdate_stored kb platform authorData c topics kb' (r : result SaveSummary) i isNew :
  platform ∈ platforms →
  ServiceWorker.getAuthorIdentifier platform authorData ≠ IdUndefined →
  (ServiceWorker.addOrUpdateAuthor parseURL kb platform authorData).2 = Ok (i, isNew) →
  indexUpdate parseURL now kb platform authorData (Some c) topics = (kb', r) →
  ServiceWorker.findAuthor parseURL kb' platform
    (ServiceWorker.getAuthorIdentifier platform authorData) = Ok (Some i) ∧
  ∃ a, authorsAt kb' platform !! i = Some a ∧
       ServiceWorker.contentExists parseURL a (c_url c) platform = true.
Proof.
  intros Hp Hid Hup. unfold indexUpdate.
  pose proof (findAuthor_after_upsert parseURL kb platform authorData i isNew Hp Hid Hup)
    as Hfound.
  destruct (ServiceWorker.addOrUpdateAuthor parseURL kb platform authorData)
    as [kb1 [[i' isNew']|e]]; simpl in Hup; [|done]. injection Hup as -> ->.
  simpl in Hfound.
  pose proof (findAuthor_found_not_inherited parseURL _ _ _ _ Hfound) as Hget1.
  rewrite (findAuthor_authorsAt parseURL _ _ _ Hget1) in Hfound.
  destruct (findFrom_found_lookup parseURL _ _ _ _ Hfound) as (a1 & Hi & _).
  unfold Worker.addContentAt. fold (authorsAt kb1 platform). rewrite Hi.
  destruct (ServiceWorker.addContent parseURL (Worker.today now) a1 platform
              (set_content_topics c topics)) as [a2 outcome] eqn:Hadd.
  set (kb2 := set_favorite_authors kb1
                (set (default [] (favorite_authors kb1)) platform
                   (<[i := a2]> (authorsAt kb1 platform)))).
  assert (authorsAt kb2 platform = <[i := a2]> (authorsAt kb1 platform)) as Hl2
    by apply authorsAt_set.
  assert (ServiceWorker.findAuthor parseURL kb2 platform
            (ServiceWorker.getAuthorIdentifier platform authorData) = Ok (Some i)) as Hfound2.
  { rewrite findAuthor_authorsAt.
    2:{ unfold get. subst kb2. simpl. by rewrite own_set_eq. }
    rewrite Hl2, findFrom_firstTrue, list_fmap_insert.
    assert (a2 = (ServiceWorker.addContent parseURL (Worker.today now) a1 platform
                    (set_content_topics c topics)).1) as -> by by rewrite Hadd.
    rewrite sameAuthor_addContent.
    rewrite list_insert_id by by rewrite list_lookup_fmap, Hi.
    by rewrite <- findFrom_firstTrue. }
  assert (ServiceWorker.contentExists parseURL a2 (c_url c) platform = true) as Hex.
  { assert (a2 = (ServiceWorker.addContent parseURL (Worker.today now) a1 platform
                    (set_content_topics c topics)).1) as -> by by rewrite Hadd.
    apply (contentExists_addContent _ a1 platform (set_content_topics c topics)). }
  assert (authorsAt kb2 platform !! i = Some a2) as Hi2.
  { rewrite Hl2. apply list_lookup_insert_eq. by eapply lookup_lt_Some. }
  assert (∀ kb3, favorite_authors kb3 = favorite_authors kb2 →
            ServiceWorker.findAuthor parseURL kb3 platform
              (ServiceWorker.getAuthorIdentifier platform authorData) = Ok (Some i) ∧
            ∃ a, authorsAt kb3 platform !! i = Some a ∧
                 ServiceWorker.contentExists parseURL a (c_url c) platform = true) as Hsame.
  { intros kb3 Hfa. rewrite (findAuthor_same_authors kb3 kb2) by done.
    split; [done|]. exists a2. unfold authorsAt in *. by rewrite Hfa. }
  destruct topics as [[|t ts]|].
  - intros [= <- <-]. by apply Hsame.
  - pose proof (updateTopicIndex_favorite_authors kb2 (t :: ts)
                  (ServiceWorker.getAuthorRef platform
                     (default authorData (authorsAt kb2 platform !! i)))) as Hfa.
    destruct (ServiceWorker.updateTopicIndex kb2 (t :: ts) _) as [kb3 [[]|e]];
      intros [= <- <-]; by apply Hsame.
  - intros [= <- <-]. by apply Hsame.
Qed.

End index_facts.

Section index_theorems.

Variable Host : Type.
Variable native : Host → Request → Host * Reply.
Variable parseURL : string → option URL.
Variable now : Date.

Abbreviation WorldOf := (Worker.World Host).
Abbreviation saveToKB := (Worker.saveToKB Host native parseURL now).
Abbreviation checkDuplicate := (Handler.checkDuplicate Host native parseURL).

(** X14. When the host does not hand out the index document, [saveToKB]
    throws with the message of the host (or [Failed to read KB file]) after
    this one message: nothing is written, and the cache, the recent
    additions and the console are as before. *)
Theorem saveToKB_read_refused filePath platform authorData contentData topics (w : WorldOf) :
  let reply := (native (Worker.host Host w) (ReqRead filePath)).2 in
  (∀ response, reply = Replied response → r_success response = false) →
  let r := saveToKB filePath platform authorData contentData topics w in
  r.2 = Throw (Error match reply with
                     | LastError message => message
                     | Replied response =>
                         Worker.errorOr (r_error response) "Failed to read KB file"
                     end) ∧
  Worker.sent Host r.1 = Worker.sent Host w ++ [ReqRead filePath] ∧
  Worker.kbCache Host r.1 = Worker.kbCache Host w ∧
  Worker.kbFilePath Host r.1 = Worker.kbFilePath Host w ∧
  Worker.recentAdditions Host r.1 = Worker.recentAdditions Host w ∧
  Worker.warnings Host r.1 = Worker.warnings Host w.
Proof.
  intros reply Hrefused r. subst r reply. rewrite saveToKB_unfold. cbv zeta.
  destruct ((native (Worker.host Host w) (ReqRead filePath)).2) as [response|message]; [|done].
  by rewrite (Hrefused response eq_refl).
Qed.

(** X15. When the host hands out the document and the update of the
    document completes, [saveToKB] sends the updated document back for
    the same path as its second and last message.  The result is that of
    the update when the host accepts the write and a throw otherwise; in
    both cases the cache then holds the updated document. *)
Theorem saveToKB_writes_update
    filePath platform authorData contentData topics (w : WorldOf) response kb kb' summary :
  (native (Worker.host Host w) (ReqRead filePath)).2 = Replied response →
  r_success response = true → r_data response = Some kb →
  indexUpdate parseURL now kb platform authorData contentData topics = (kb', Ok summary) →
  let r := saveToKB filePath platform authorData contentData topics w in
  let afterRead := (native (Worker.host Host w) (ReqRead filePath)).1 in
  Worker.sent Host r.1 = Worker.sent Host w ++ [ReqRead filePath; ReqWrite filePath kb'] ∧
  r.2 = match (native afterRead (ReqWrite filePath kb')).2 with
        | Replied written =>
            if r_success written then Ok summary
            else Throw (Error (Worker.errorOr (r_error written) "Failed to write KB file"))
        | LastError message => Throw (Error message)
        end ∧
  Worker.kbCache Host r.1 = Some kb' ∧ Worker.kbFilePath Host r.1 = Some filePath.
Proof.
  intros Hread Hok Hdata Hupdate r afterRead. subst r afterRead.
  rewrite saveToKB_unfold. cbv zeta. rewrite Hread, Hok, Hdata, Hupdate. simpl.
  destruct ((native _ (ReqWrite filePath kb')).2) as [written|message]; simpl.
  - destruct (r_success written); simpl; by rewrite <- app_assoc.
  - by rewrite <- app_assoc.
Qed.

(** X16. When the update of the document throws, [saveToKB] throws the
    same error and writes nothing: the read is the only message.  The
    cache holds the document as the steps before the throw left it. *)
Theorem saveToKB_update_throws
    filePath platform authorData contentData topics (w : WorldOf) response kb kb' e :
  (native (Worker.host Host w) (ReqRead filePath)).2 = Replied response →
  r_success response = true → r_data response = Some kb →
  indexUpdate parseURL now kb platform authorData contentData topics = (kb', Throw e) →
  let r := saveToKB filePath platform authorData contentData topics w in
  r.2 = Throw e ∧
  Worker.sent Host r.1 = Worker.sent Host w ++ [ReqRead filePath] ∧
  Worker.kbCache Host r.1 = Some kb'.
Proof.
  intros Hread Hok Hdata Hupdate r. subst r.
  rewrite saveToKB_unfold. cbv zeta. by rewrite Hread, Hok, Hdata, Hupdate.
Qed.

Lemma checkDuplicate_cached filePath platform id url (w : WorldOf) kb i a :
  Worker.kbCache Host w = Some kb →
  ServiceWorker.findAuthor parseURL kb platform id = Ok (Some i) →
  authorsAt kb platform !! i = Some a →
  checkDuplicate filePath platform id url w
  = (w, Ok (DuplicateAnswer true (ServiceWorker.contentExists parseURL a url platform))).
Proof.
  intros Hcache Hfound Hi.
  unfold Handler.checkDuplicate, Handler.caught, Worker.tryCatch.
  rewrite bind_unfold. unfold Handler.cachedOrRead. rewrite Hcache, Hfound, Hi. done.
Qed.

(** X17. An item that [saveToKB] has saved is a duplicate from then on:
    when [saveToKB] has returned for an author of one of the four
    platforms who has the field identifying it, [checkDuplicate] for that
    author and the address of the item answers that both exist.  It
    answers from the cache: no message goes to the host, whatever path the
    request names. *)
Theorem saveToKB_then_checkDuplicate
    filePath platform authorData c topics (w : WorldOf) summary otherPath :
  platform ∈ platforms →
  ServiceWorker.getAuthorIdentifier platform authorData ≠ IdUndefined →
  let saved := saveToKB filePath platform authorData (Some c) topics w in
  saved.2 = Ok summary →
  checkDuplicate otherPath platform
    (ServiceWorker.getAuthorIdentifier platform authorData) (c_url c) saved.1
  = (saved.1, Ok (DuplicateAnswer true true)).
Proof.
  intros Hp Hid saved. subst saved. rewrite saveToKB_unfold. cbv zeta.
  destruct ((native (Worker.host Host w) (ReqRead filePath)).2) as [response|message]; [|done].
  destruct (r_success response); [|done].
  destruct (r_data response) as [kb|]; [|done].
  destruct (indexUpdate parseURL now kb platform authorData (Some c) topics)
    as [kb' [summary'|e]] eqn:Hupdate; [|done].
  assert (∃ i isNew, (ServiceWorker.addOrUpdateAuthor parseURL kb platform authorData).2
                     = Ok (i, isNew)) as (i & isNew & Hup).
  { unfold indexUpdate in Hupdate.
    destruct (ServiceWorker.addOrUpdateAuthor parseURL kb platform authorData)
      as [kb1 [[i isNew]|e]]; [by eauto|done]. }
  destruct (indexUpdate_stored parseURL now kb platform authorData c topics kb' _ i isNew
              Hp Hid Hup Hupdate) as (Hfound & a & Hi & Hex).
  destruct ((native _ (ReqWrite filePath kb')).2) as [written|message]; [|done].
  destruct (r_success written); [|done]. simpl. intros _.
  rewrite (checkDuplicate_cached _ _ _ _ _ kb' i a); [by rewrite Hex|done..].
Qed.

(** X18. A write that the host refuses leaves the cache ahead of the
    file: [saveToKB] throws, but [checkDuplicate] then reports the item as
    saved, from the cache. *)
Theorem saveToKB_refused_write_is_cached
    filePath platform authorData c topics (w : WorldOf) response kb kb' summary written :
  platform ∈ platforms →
  ServiceWorker.getAuthorIdentifier platform authorData ≠ IdUndefined →
  (native (Worker.host Host w) (ReqRead filePath)).2 = Replied response →
  r_success response = true → r_data response = Some kb →
  indexUpdate parseURL now kb platform authorData (Some c) topics = (kb', Ok summary) →
  (native (native (Worker.host Host w) (ReqRead filePath)).1 (ReqWrite filePath kb')).2
    = Replied written →
  r_success written = false →
  let saved := saveToKB filePath platform authorData (Some c) topics w in
  saved.2 = Throw (Error (Worker.errorOr (r_error written) "Failed to write KB file")) ∧
  checkDuplicate filePath platform
    (ServiceWorker.getAuthorIdentifier platform authorData) (c_url c) saved.1
  = (saved.1, Ok (DuplicateAnswer true true)).
Proof.
  intros Hp Hid Hread Hok Hdata Hupdate Hwrite Hrefused saved. subst saved.
  rewrite saveToKB_unfold. cbv zeta. rewrite Hread, Hok, Hdata, Hupdate. simpl.
  rewrite Hwrite, Hrefused. split; [done|].
  assert (∃ i isNew, (ServiceWorker.addOrUpdateAuthor parseURL kb platform authorData).2
                     = Ok (i, isNew)) as (i & isNew & Hup).
  { unfold indexUpdate in Hupdate.
    destruct (ServiceWorker.addOrUpdateAuthor parseURL kb platform authorData)
      as [kb1 [[i isNew]|e]]; [by eauto|done]. }
  destruct (indexUpdate_stored parseURL now kb platform authorData c topics kb' _ i isNew
              Hp Hid Hup Hupdate) as (Hfound & a & Hi & Hex).
  rewrite (checkDuplicate_cached _ _ _ _ _ kb' i a); [by rewrite Hex|done..].
Qed.

(** X19. The handler lets no error out of [checkDuplicate]: in every
    world the call returns an answer.  An error of the read or of the
    lookup comes back as a failure and is written to the console; an answer
    never reports an item without its author; and at most one message, the
    read of the file, goes to the host. *)
Theorem checkDuplicate_returns filePath platform id url (w : WorldOf) :
  let r := checkDuplicate filePath platform id url w in
  ∃ answer,
    r.2 = Ok answer ∧
    match answer with
    | DuplicateAnswer authorExists contentExists =>
        Worker.warnings Host r.1 = Worker.warnings Host w ∧
        (authorExists = false → contentExists = false)
    | Failure e => Worker.warnings Host r.1 = Worker.warnings Host w ++ [e]
    | TopicsAnswer _ => False
    end ∧
    (Worker.sent Host r.1 = Worker.sent Host w ∨
     Worker.sent Host r.1 = Worker.sent Host w ++ [ReqRead filePath]).
Proof.
  intros r. subst r.
  unfold Handler.checkDuplicate, Handler.caught, Worker.tryCatch.
  rewrite bind_unfold. unfold Handler.cachedOrRead.
  assert (∀ (w1 : WorldOf) kb,
            Worker.warnings Host w1 = Worker.warnings Host w →
            Worker.sent Host w1 = Worker.sent Host w ∨
            Worker.sent Host w1 = Worker.sent Host w ++ [ReqRead filePath] →
            let r := (let (w', r) :=
                        match ServiceWorker.findAuthor parseURL kb platform id with
                        | Ok (Some i) =>
                            match authorsAt kb platform !! i with
                            | Some author =>
                                Worker.ret Host
                                  (DuplicateAnswer true
                                     (ServiceWorker.contentExists parseURL author url platform))
                            | None => Worker.throw Host TypeError
                            end
                        | Ok None => Worker.ret Host (DuplicateAnswer false false)
                        | Throw e => Worker.throw Host e
                        end w1 in
                      match r with
                      | Ok a => (w', Ok a)
                      | Throw e =>
                          (@mbind (Worker.M Host) (Worker.M_bind Host) _ _
                             (fun _ => Worker.ret Host (Failure e))
                             (Worker.modify Host (Worker.warn Host e))) w'
                      end) in
            ∃ answer,
              r.2 = Ok answer ∧
              match answer with
              | DuplicateAnswer authorExists contentExists =>
                  Worker.warnings Host r.1 = Worker.warnings Host w ∧
                  (authorExists = false → contentExists = false)
              | Failure e => Worker.warnings Host r.1 = Worker.warnings Host w ++ [e]
              | TopicsAnswer _ => False
              end ∧
              (Worker.sent Host r.1 = Worker.sent Host w ∨
               Worker.sent Host r.1 = Worker.sent Host w ++ [ReqRead filePath])) as Hlookup.
  { intros w1 kb Hwarn Hsent. cbv zeta.
    destruct (ServiceWorker.findAuthor parseURL kb platform id) as [[i|]|e];
      [destruct (authorsAt kb platform !! i)|..]; eexists; (split; [reflexivity|]);
      simpl; rewrite ?Hwarn; by repeat split. }
  destruct (Worker.kbCache Host w) as [kb|] eqn:Hcache.
  - apply (Hlookup w kb); by auto.
  - unfold Worker.readKB. rewrite bind_unfold, sendNativeMessage_eq.
    destruct ((native (Worker.host Host w) (ReqRead filePath)).2) as [response|message].
    + destruct (r_success response).
      * rewrite bind_unfold. simpl.
        destruct (r_data response) as [kb|].
        -- apply (Hlookup _ kb); by auto.
        -- eexists. split; [reflexivity|]. simpl. by auto.
      * eexists. split; [reflexivity|]. simpl. by auto.
    + eexists. split; [reflexivity|]. simpl. by auto.
Qed.

End index_theorems.

(** A host that keeps the index document in its state, and one that hands
    it out but refuses to write. *)
Definition fileHost (file : option KB) (request : Request) : option KB * Reply :=
  match request with
  | ReqRead _ => (file, Replied (mkResponse true None file None None))
  | ReqWrite _ data => (Some data, Replied (mkResponse true None None None None))
  | ReqCreateBookmark baseDir slug _ _ =>
      (file, Replied (mkResponse true None None (Some (baseDir +:+ "/" +:+ slug)) None))
  end.

Definition readOnlyHost (file : option KB) (request : Request) : option KB * Reply :=
  match request with
  | ReqWrite _ _ =>
      (file, Replied (mkResponse false (Some "Read-only file system") None None None))
  | _ => fileHost file request
  end.

Definition worldWith (file : option KB) : Worker.World (option KB) :=
  Worker.mkWorld (option KB) file [] None None [] [].

Definition aDay : Date := mkDate 2026 2 22 9 5 0 7.

Definition indexPath : string := "/Users/ada/AI_KB/curated_sources.yaml".

Lemma saveToKB_read_refused_witness :
  let r := Worker.saveToKB unit lockedIndexHost parseHttpUrl aDay indexPath "generic_web"
             (anAuthor "Ada") (Some aPost) (Some ["ai"]) freshWorld in
  r.2 = Throw (Error "index is locked") ∧ Worker.sent unit r.1 = [ReqRead indexPath].
Proof.
  destruct (saveToKB_read_refused unit lockedIndexHost parseHttpUrl aDay indexPath "generic_web"
              (anAuthor "Ada") (Some aPost) (Some ["ai"]) freshWorld) as (Hr & Hsent & _).
  - by intros response [= <-].
  - split; [exact Hr|exact Hsent].
Defined.

Lemma saveToKB_writes_update_witness :
  let r := Worker.saveToKB (option KB) fileHost parseHttpUrl aDay indexPath "generic_web"
             (anAuthor "Ada") (Some aPost) (Some ["ai"]) (worldWith (Some emptyKB)) in
  r.2 = Ok (mkSaveSummary true true false) ∧
  Worker.host (option KB) r.1 = Worker.kbCache (option KB) r.1 ∧
  (λ kb, refsOf kb "ai") <$> Worker.kbCache (option KB) r.1 = Some (Some [Some "Ada"]).
Proof.
  intros r.
  destruct (saveToKB_writes_update (option KB) fileHost parseHttpUrl aDay indexPath
              "generic_web" (anAuthor "Ada") (Some aPost) (Some ["ai"]) (worldWith (Some emptyKB))
              (mkResponse true None (Some emptyKB) None None) emptyKB
              (indexUpdate parseHttpUrl aDay emptyKB "generic_web" (anAuthor "Ada")
                 (Some aPost) (Some ["ai"])).1
              (mkSaveSummary true true false) eq_refl eq_refl eq_refl)
    as (_ & Hr & Hcache & _).
  - vm_compute. reflexivity.
  - split; [exact Hr|]. split; [|subst r; rewrite Hcache]; vm_compute; reflexivity.
Defined.

Lemma saveToKB_update_throws_witness :
  let r := Worker.saveToKB (option KB) fileHost parseHttpUrl aDay indexPath "generic_web"
             (anAuthor "Ada") (Some aPost) (Some ["constructor"]) (worldWith (Some emptyKB)) in
  r.2 = Throw TypeError ∧
  Worker.host (option KB) r.1 = Some emptyKB ∧
  (λ kb, length (authorsAt kb "generic_web")) <$> Worker.kbCache (option KB) r.1 = Some 1.
Proof.
  intros r.
  destruct (saveToKB_update_throws (option KB) fileHost parseHttpUrl aDay indexPath
              "generic_web" (anAuthor "Ada") (Some aPost) (Some ["constructor"])
              (worldWith (Some emptyKB))
              (mkResponse true None (Some emptyKB) None None) emptyKB
              (indexUpdate parseHttpUrl aDay emptyKB "generic_web" (anAuthor "Ada")
                 (Some aPost) (Some ["constructor"])).1
              TypeError eq_refl eq_refl eq_refl)
    as (Hr & _ & Hcache).
  - vm_compute. reflexivity.
  - split; [exact Hr|]. split; [|subst r; rewrite Hcache]; vm_compute; reflexivity.
Defined.

Lemma saveToKB_then_checkDuplicate_witness :
  let saved := Worker.saveToKB (option KB) fileHost parseHttpUrl aDay indexPath "generic_web"
                 (anAuthor "Ada") (Some aPost) (Some ["ai"]) (worldWith (Some emptyKB)) in
  (Handler.checkDuplicate (option KB) fileHost parseHttpUrl "/tmp/other.yaml" "generic_web"
     (IdObject (Some "Ada") None) "https://example.com/blog/rocq" saved.1).2
  = Ok (DuplicateAnswer true true).
Proof.
  intros saved. subst saved.
  change (IdObject (Some "Ada") None)
    with (ServiceWorker.getAuthorIdentifier "generic_web" (anAuthor "Ada")).
  change "https://example.com/blog/rocq" with (c_url aPost).
  rewrite (saveToKB_then_checkDuplicate (option KB) fileHost parseHttpUrl aDay indexPath
             "generic_web" (anAuthor "Ada") aPost (Some ["ai"]) (worldWith (Some emptyKB))
             (mkSaveSummary true true false) "/tmp/other.yaml").
  - reflexivity.
  - apply (bool_decide_unpack _). vm_compute. exact I.
  - discriminate.
  - vm_compute. reflexivity.
Defined.

Lemma saveToKB_refused_write_is_cached_witness :
  let saved := Worker.saveToKB (option KB) readOnlyHost parseHttpUrl aDay indexPath "generic_web"
                 (anAuthor "Ada") (Some aPost) (Some ["ai"]) (worldWith (Some emptyKB)) in
  saved.2 = Throw (Error "Read-only file system") ∧
  Worker.host (option KB) saved.1 = Some emptyKB ∧
  (Handler.checkDuplicate (option KB) readOnlyHost parseHttpUrl indexPath "generic_web"
     (IdObject (Some "Ada") None) "https://example.com/blog/rocq" saved.1).2
  = Ok (DuplicateAnswer true true).
Proof.
  intros saved.
  destruct (saveToKB_refused_write_is_cached (option KB) readOnlyHost parseHttpUrl aDay
              indexPath "generic_web" (anAuthor "Ada") aPost (Some ["ai"])
              (worldWith (Some emptyKB))
              (mkResponse true None (Some emptyKB) None None) emptyKB
              (indexUpdate parseHttpUrl aDay emptyKB "generic_web" (anAuthor "Ada")
                 (Some aPost) (Some ["ai"])).1
              (mkSaveSummary true true false)
              (mkResponse false (Some "Read-only file system") None None None))
    as (Hr & Hcheck).
  - apply (bool_decide_unpack _). vm_compute. exact I.
  - discriminate.
  - reflexivity.
  - reflexivity.
  - reflexivity.
  - vm_compute. reflexivity.
  - vm_compute. reflexivity.
  - reflexivity.
  - split; [exact Hr|]. split; [vm_compute; reflexivity|].
    change (IdObject (Some "Ada") None)
      with (ServiceWorker.getAuthorIdentifier "generic_web" (anAuthor "Ada")).
    change "https://example.com/blog/rocq" with (c_url aPost).
    subst saved. by rewrite Hcheck.
Defined.

(** ** Saving the same item again *)

Section save_again.

Variable parseURL : string → option URL.
Variable now : Date.

Lemma addAll_present (acc new : list string) :
  (∀ x, x ∈ new → x ∈ acc) → Topics.addAll acc new = acc.
Proof.
  unfold Topics.addAll. induction new as [|x new IH]; intros Hall; simpl; [done|].
  rewrite bool_decide_eq_true_2 by (apply Hall; by left).
  apply IH. intros y Hy. apply Hall. by right.
Qed.

Lemma addAll_fresh (acc new : list string) :
  NoDup (acc ++ new) → Topics.addAll acc new = acc ++ new.
Proof.
  unfold Topics.addAll. revert acc. induction new as [|x new IH]; intros acc Hnd; simpl.
  - by rewrite app_nil_r.
  - apply NoDup_app in Hnd as (Hacc & Hdisj & Hnew).
    rewrite bool_decide_eq_false_2 by (intros Hx; apply (Hdisj x Hx); by left).
    rewrite IH, <- app_assoc; [done|].
    rewrite <- app_assoc. simpl. apply NoDup_app. split; [done|]. split; [|done].
    intros y Hy. by apply Hdisj.
Qed.

(** Topics that are all in the list already change nothing. *)
Lemma arrayFromSet_absorb (l incoming : list string) :
  NoDup l → (∀ x, x ∈ incoming → x ∈ l) → arrayFromSet (l ++ incoming) = l.
Proof.
  intros Hnd Hsub. unfold arrayFromSet. rewrite fold_left_app.
  change (Topics.addAll (Topics.addAll [] l) incoming = l).
  rewrite (addAll_fresh [] l) by done. simpl. by apply addAll_present.
Qed.

(** An author whose topics hold those of [authorData] already. *)
Definition settled (authorData stored : Author) : Prop :=
  match topics authorData with
  | Some incoming =>
      ∃ l, topics stored = Some l ∧ NoDup l ∧ ∀ x, x ∈ incoming → x ∈ l
  | None => True
  end.

Lemma merged_settled authorData stored : settled authorData stored → merged stored authorData = stored.
Proof.
  unfold settled, merged. destruct (topics authorData) as [incoming|]; [|done].
  intros (l & Hl & Hnd & Hsub). rewrite Hl. simpl. rewrite arrayFromSet_absorb by done.
  destruct stored. simpl in *. by subst.
Qed.

Lemma settled_merged authorData ex : settled authorData (merged ex authorData).
Proof.
  unfold settled, merged. destruct (topics authorData) as [incoming|]; [|done].
  eexists. split; [done|]. split; [apply NoDup_arrayFromSet|].
  intros x Hx. apply elem_of_arrayFromSet, elem_of_app. by right.
Qed.

Lemma settled_self authorData : NoDup (default [] (topics authorData)) → settled authorData authorData.
Proof.
  unfold settled. destruct (topics authorData) as [incoming|]; [|done].
  intros Hnd. by exists incoming.
Qed.

Lemma topics_addContent today a platform c :
  topics (ServiceWorker.addContent parseURL today a platform c).1 = topics a.
Proof.
  unfold ServiceWorker.addContent, ServiceWorker.set_contentOf, ServiceWorker.contentOf.
  destruct (ServiceWorker.contentKey platform);
    [destruct (saved_posts a)|destruct (saved_articles a)];
    by destruct (ServiceWorker.contentExists parseURL _ _ _).
Qed.

Lemma getAuthorRef_addContent today a platform' platform c :
  ServiceWorker.getAuthorRef platform' (ServiceWorker.addContent parseURL today a platform c).1
  = ServiceWorker.getAuthorRef platform' a.
Proof.
  unfold ServiceWorker.addContent, ServiceWorker.set_contentOf, ServiceWorker.contentOf.
  destruct (ServiceWorker.contentKey platform);
    [destruct (saved_posts a)|destruct (saved_articles a)];
    by destruct (ServiceWorker.contentExists parseURL _ _ _).
Qed.

(** A document whose list for the platform is [l], put back as it is. *)
Lemma set_favorite_authors_same kb platform l :
  own (default [] (favorite_authors kb)) platform = Some l →
  set_favorite_authors kb (set (default [] (favorite_authors kb)) platform l) = kb.
Proof.
  intros Hown. rewrite set_same by done.
  destruct kb as [v d [fa|] ti]; simpl in *; done.
Qed.

(** The upsert of an author that is found and settled changes nothing. *)
Lemma addOrUpdateAuthor_settled kb platform authorData i stored :
  ServiceWorker.findAuthor parseURL kb platform
    (ServiceWorker.getAuthorIdentifier platform authorData) = Ok (Some i) →
  authorsAt kb platform !! i = Some stored →
  settled authorData stored →
  ServiceWorker.addOrUpdateAuthor parseURL kb platform authorData = (kb, Ok (i, false)).
Proof.
  intros Hfound Hi Hset.
  pose proof (findAuthor_found_not_inherited parseURL _ _ _ _ Hfound) as Hget.
  rewrite (findAuthor_authorsAt parseURL _ _ _ Hget) in Hfound.
  rewrite (addOrUpdateAuthor_unfold parseURL kb platform authorData Hget). cbv zeta.
  rewrite Hfound, Hi.
  assert (own (default [] (favorite_authors kb)) platform = Some (authorsAt kb platform)) as Hown.
  { unfold authorsAt in *. destruct (own (default [] (favorite_authors kb)) platform); [done|].
    simpl in Hi. by rewrite lookup_nil in Hi. }
  assert (ensured kb platform = default [] (favorite_authors kb)) as ->.
  { unfold ensured, get. by rewrite Hown. }
  pose proof (merged_settled authorData stored Hset) as Hm. unfold merged in Hm.
  destruct (topics authorData) as [incoming|].
  - rewrite Hm, list_insert_id by done. by rewrite set_favorite_authors_same.
  - f_equal. destruct kb as [v d [fa|] ti]; simpl in *; done.
Qed.

(** Adding an item that is stored already changes nothing. *)
Lemma addContentAt_stored kb platform i stored c :
  authorsAt kb platform !! i = Some stored →
  ServiceWorker.contentExists parseURL stored (c_url c) platform = true →
  Worker.addContentAt parseURL now kb platform i c
  = (kb, Ok (mkOutcome false (Some "duplicate"))).
Proof.
  intros Hi Hex. unfold Worker.addContentAt. fold (authorsAt kb platform). rewrite Hi.
  rewrite addContent_duplicate by done. rewrite list_insert_id by done.
  rewrite set_favorite_authors_same; [done|].
  unfold authorsAt in *. destruct (own (default [] (favorite_authors kb)) platform); [done|].
  simpl in Hi. by rewrite lookup_nil in Hi.
Qed.

(** A second call of [updateTopicIndex] after one that completed. *)
Lemma updateTopicIndex_again kb topics authorRef :
  plain (default [] (topic_index kb)) →
  (ServiceWorker.updateTopicIndex kb topics authorRef).2 = Ok () →
  ServiceWorker.updateTopicIndex (ServiceWorker.updateTopicIndex kb topics authorRef).1
    topics authorRef
  = ((ServiceWorker.updateTopicIndex kb topics authorRef).1, Ok ()).
Proof.
  intros Hp Hok.
  destruct (ServiceWorker.addReferences authorRef (default [] (topic_index kb)) topics)
    as [ti1 c] eqn:E.
  assert (ServiceWorker.updateTopicIndex kb topics authorRef
          = (set_topic_index kb (ServiceWorker.sortKeys ti1), Ok ())) as Hfirst.
  { unfold ServiceWorker.updateTopicIndex in *. rewrite E in *. by destruct c as [[]|e]. }
  assert (c = Ok ()) as ->.
  { unfold ServiceWorker.updateTopicIndex in Hok. rewrite E in Hok. by destruct c as [[]|e]. }
  rewrite Hfirst. simpl.
  pose proof (addReferences_plain _ _ _ _ _ E Hp) as Hp1.
  unfold ServiceWorker.updateTopicIndex. simpl.
  rewrite (addReferences_present authorRef topics (ServiceWorker.sortKeys ti1)).
  - by rewrite sortKeys_idempotent.
  - intros topic Hin. rewrite own_sortKeys by done. by eapply addReferences_adds.
Qed.

Lemma addOrUpdateAuthor_topic_index kb platform authorData :
  topic_index (ServiceWorker.addOrUpdateAuthor parseURL kb platform authorData).1
  = topic_index kb.
Proof.
  unfold ServiceWorker.addOrUpdateAuthor. cbv zeta.
  destruct (ServiceWorker.findAuthor parseURL _ platform _) as [[i|]|e]; [|done..].
  destruct (_ !! i); [|done]. by destruct (topics authorData).
Qed.

(** The author of the call, once stored or updated, holds the topics of
    the call. *)
Lemma upsert_settled kb platform authorData i isNew :
  platform ∈ platforms →
  NoDup (default [] (topics authorData)) →
  (ServiceWorker.addOrUpdateAuthor parseURL kb platform authorData).2 = Ok (i, isNew) →
  ∃ stored,
    authorsAt (ServiceWorker.addOrUpdateAuthor parseURL kb platform authorData).1 platform !! i
      = Some stored ∧
    settled authorData stored.
Proof.
  intros Hp Hnd Hr.
  pose proof (get_not_inherited (default [] (favorite_authors kb)) platform
                (platforms_not_prototype platform Hp)) as Hget.
  pose proof (upsert_view parseURL kb platform authorData Hget) as [_ Hview].
  cbv zeta in Hview.
  destruct (ServiceWorker.findFrom parseURL platform _ (authorsAt kb platform) 0)
    as [[i0|]|e] eqn:Hfind.
  - destruct Hview as [Hr' ->]. rewrite Hr' in Hr. injection Hr as <- <-.
    destruct (findFrom_found_lookup parseURL _ _ _ _ Hfind) as (ex & Hi & _). rewrite Hi.
    exists (merged ex authorData). split; [|apply settled_merged].
    apply list_lookup_insert_eq. by eapply lookup_lt_Some.
  - destruct Hview as [Hr' ->]. rewrite Hr' in Hr. injection Hr as <- <-.
    exists authorData. split; [|by apply settled_self].
    by rewrite lookup_app_r, Nat.sub_diag.
  - destruct Hview as [Hr' _]. by rewrite Hr' in Hr.
Qed.

(** The document after the first two steps of the update. *)
Lemma indexUpdate_author_and_item kb platform authorData contentData tags i isNew :
  platform ∈ platforms →
  ServiceWorker.getAuthorIdentifier platform authorData ≠ IdUndefined →
  NoDup (default [] (topics authorData)) →
  (ServiceWorker.addOrUpdateAuthor parseURL kb platform authorData).2 = Ok (i, isNew) →
  let kb1 := (ServiceWorker.addOrUpdateAuthor parseURL kb platform authorData).1 in
  let step := match contentData with
              | Some c => Worker.addContentAt parseURL now kb1 platform i
                            (set_content_topics c tags)
              | None => (kb1, Ok (mkOutcome true None))
              end in
  (∃ outcome, step.2 = Ok outcome) ∧
  topic_index step.1 = topic_index kb ∧
  ServiceWorker.findAuthor parseURL step.1 platform
    (ServiceWorker.getAuthorIdentifier platform authorData) = Ok (Some i) ∧
  ∃ stored,
    authorsAt step.1 platform !! i = Some stored ∧ settled authorData stored ∧
    ∀ c, contentData = Some c →
         ServiceWorker.contentExists parseURL stored (c_url c) platform = true.
Proof.
  intros Hp Hid Hnd Hup kb1 step.
  pose proof (findAuthor_after_upsert parseURL kb platform authorData i isNew Hp Hid Hup)
    as Hfound. fold kb1 in Hfound.
  destruct (upsert_settled kb platform authorData i isNew Hp Hnd Hup) as (a1 & Hi & Hset).
  fold kb1 in Hi.
  pose proof (addOrUpdateAuthor_topic_index kb platform authorData) as Hti. fold kb1 in Hti.
  destruct contentData as [c|]; subst step.
  2:{ simpl. split; [by eauto|]. split; [done|]. split; [done|].
      exists a1. by repeat split. }
  unfold Worker.addContentAt. fold (authorsAt kb1 platform). rewrite Hi.
  pose proof (sameAuthor_addContent parseURL (Worker.today now) platform a1 platform
                (set_content_topics c tags)) as Hsame.
  pose proof (contentExists_addContent parseURL (Worker.today now) a1 platform
                (set_content_topics c tags)) as Hex.
  pose proof (topics_addContent (Worker.today now) a1 platform (set_content_topics c tags))
    as Htopics.
  destruct (ServiceWorker.addContent parseURL (Worker.today now) a1 platform
              (set_content_topics c tags)) as [a2 outcome]. simpl in *.
  split; [by eauto|]. split; [done|].
  rewrite authorsAt_set. split.
  - rewrite findAuthor_authorsAt.
    2:{ unfold get. simpl. by rewrite own_set_eq. }
    rewrite authorsAt_set, findFrom_firstTrue, list_fmap_insert, Hsame.
    rewrite list_insert_id by by rewrite list_lookup_fmap, Hi.
    rewrite <- findFrom_firstTrue.
    rewrite findAuthor_authorsAt in Hfound; [done|].
    by eapply findAuthor_found_not_inherited.
  - exists a2. split; [apply list_lookup_insert_eq; by eapply lookup_lt_Some|].
    split; [|by intros c' [= <-]].
    unfold settled in *. by rewrite Htopics.
Qed.

(** Saving again what has been saved changes nothing in the document. *)
Lemma indexUpdate_again kb platform authorData contentData tags kb' summary :
  platform ∈ platforms →
  ServiceWorker.getAuthorIdentifier platform authorData ≠ IdUndefined →
  NoDup (default [] (topics authorData)) →
  plain (default [] (topic_index kb)) →
  indexUpdate parseURL now kb platform authorData contentData tags = (kb', Ok summary) →
  indexUpdate parseURL now kb' platform authorData contentData tags
  = (kb', Ok match contentData with
              | Some _ => mkSaveSummary false false true
              | None => mkSaveSummary false true false
              end).
Proof.
  intros Hp Hid Hnd Hplain. unfold indexUpdate at 1.
  destruct (ServiceWorker.addOrUpdateAuthor parseURL kb platform authorData)
    as [kb1 [[i isNew]|e]] eqn:Hup; [|done].
  assert ((ServiceWorker.addOrUpdateAuthor parseURL kb platform authorData).2 = Ok (i, isNew))
    as Hup2 by by rewrite Hup.
  pose proof (indexUpdate_author_and_item kb platform authorData contentData tags i isNew
                Hp Hid Hnd Hup2) as Hstate.
  cbv zeta in Hstate. rewrite Hup in Hstate. simpl in Hstate.
  destruct (match contentData with
            | Some c => Worker.addContentAt parseURL now kb1 platform i
                          (set_content_topics c tags)
            | None => (kb1, Ok (mkOutcome true None))
            end) as [kb2 step2] eqn:Hstep.
  simpl in Hstate. destruct Hstate as ([outcome ->] & Hti & Hfound & stored & Hi & Hset & Hex).
  rewrite Hi. simpl.
  assert (∀ kb3, favorite_authors kb3 = favorite_authors kb2 →
            ServiceWorker.addOrUpdateAuthor parseURL kb3 platform authorData
              = (kb3, Ok (i, false)) ∧
            authorsAt kb3 platform !! i = Some stored ∧
            match contentData with
            | Some c => Worker.addContentAt parseURL now kb3 platform i
                          (set_content_topics c tags)
            | None => (kb3, Ok (mkOutcome true None))
            end = (kb3, Ok match contentData with
                           | Some _ => mkOutcome false (Some "duplicate")
                           | None => mkOutcome true None
                           end)) as Hagain.
  { intros kb3 Hfa.
    assert (authorsAt kb3 platform !! i = Some stored) as Hi3
      by (unfold authorsAt in *; by rewrite Hfa).
    split; [|split; [done|]].
    - apply (addOrUpdateAuthor_settled kb3 platform authorData i stored); [|done..].
      by rewrite (findAuthor_same_authors parseURL kb3 kb2).
    - destruct contentData as [c|]; [|done].
      apply (addContentAt_stored kb3 platform i stored); [done|]. exact (Hex c eq_refl). }
  destruct tags as [[|t ts]|].
  - intros [= <- <-]. unfold indexUpdate.
    destruct (Hagain kb2 eq_refl) as (-> & _ & ->). by destruct contentData.
  - destruct (ServiceWorker.updateTopicIndex kb2 (t :: ts)
                (ServiceWorker.getAuthorRef platform stored)) as [kb3 [[]|e]] eqn:Hupd; [|done].
    intros [= <- <-]. unfold indexUpdate.
    assert (favorite_authors kb3 = favorite_authors kb2) as Hfa.
    { pose proof (updateTopicIndex_favorite_authors kb2 (t :: ts)
                    (ServiceWorker.getAuthorRef platform stored)) as H. by rewrite Hupd in H. }
    destruct (Hagain kb3 Hfa) as (-> & Hi3 & ->). rewrite Hi3. simpl.
    pose proof (updateTopicIndex_again kb2 (t :: ts)
                  (ServiceWorker.getAuthorRef platform stored)) as Htwice.
    rewrite Hupd in Htwice. simpl in Htwice.
    rewrite Htwice; [by destruct contentData| |done]. by rewrite Hti.
  - intros [= <- <-]. unfold indexUpdate.
    destruct (Hagain kb2 eq_refl) as (-> & _ & ->). by destruct contentData.
Qed.

End save_again.

(** X20. Saving again what has been saved changes nothing.  When the
    document that the host hands out is the result of an earlier update
    with the same author, item and topics (on one of the four platforms,
    with the field identifying the author and no topic of the author given
    twice), [saveToKB] sends that very document back, and on an accepted
    write it reports no new author and, for an item, a duplicate. *)
Theorem saveToKB_again
    (Host : Type) (native : Host → Request → Host * Reply)
    (parseURL : string → option URL) (now : Date)
    (filePath platform : string) (authorData : Author) (contentData : option Content)
    (tags : option (list string)) (w : Worker.World Host)
    (before saved : KB) (earlier : SaveSummary) (response : Response) :
  platform ∈ platforms →
  ServiceWorker.getAuthorIdentifier platform authorData ≠ IdUndefined →
  NoDup (default [] (topics authorData)) →
  plain (default [] (topic_index before)) →
  indexUpdate parseURL now before platform authorData contentData tags = (saved, Ok earlier) →
  (native (Worker.host Host w) (ReqRead filePath)).2 = Replied response →
  r_success response = true → r_data response = Some saved →
  let r := Worker.saveToKB Host native parseURL now filePath platform authorData
             contentData tags w in
  Worker.sent Host r.1 = Worker.sent Host w ++ [ReqRead filePath; ReqWrite filePath saved] ∧
  Worker.kbCache Host r.1 = Some saved ∧
  ∀ written,
    (native (native (Worker.host Host w) (ReqRead filePath)).1 (ReqWrite filePath saved)).2
      = Replied written →
    r_success written = true →
    r.2 = Ok match contentData with
             | Some _ => mkSaveSummary false false true
             | None => mkSaveSummary false true false
             end.
Proof.
  intros Hp Hid Hnd Hplain Hfirst Hread Hok Hdata r. subst r.
  pose proof (indexUpdate_again parseURL now before platform authorData contentData tags
                saved earlier Hp Hid Hnd Hplain Hfirst) as Hagain.
  rewrite saveToKB_unfold. cbv zeta. rewrite Hread, Hok, Hdata, Hagain. simpl.
  destruct ((native _ (ReqWrite filePath saved)).2) as [written|message] eqn:Hwrite; simpl.
  - destruct (r_success written) eqn:Hw; simpl; rewrite <- app_assoc;
      (split; [done|]); (split; [done|]); intros written' [= <-]; congruence.
  - rewrite <- app_assoc. by repeat split.
Qed.

Definition savedOnce : KB :=
  (indexUpdate parseHttpUrl aDay emptyKB "generic_web" (anAuthor "Ada")
     (Some aPost) (Some ["ai"])).1.

Lemma saveToKB_again_witness :
  let r := Worker.saveToKB (option KB) fileHost parseHttpUrl aDay indexPath "generic_web"
             (anAuthor "Ada") (Some aPost) (Some ["ai"]) (worldWith (Some savedOnce)) in
  r.2 = Ok (mkSaveSummary false false true) ∧
  Worker.host (option KB) r.1 = Some savedOnce ∧
  Worker.kbCache (option KB) r.1 = Some savedOnce.
Proof.
  intros r.
  destruct (saveToKB_again (option KB) fileHost parseHttpUrl aDay indexPath "generic_web"
              (anAuthor "Ada") (Some aPost) (Some ["ai"]) (worldWith (Some savedOnce))
              emptyKB savedOnce (mkSaveSummary true true false)
              (mkResponse true None (Some savedOnce) None None))
    as (_ & Hcache & Hr).
  - apply (bool_decide_unpack _). vm_compute. exact I.
  - discriminate.
  - apply (bool_decide_unpack _). vm_compute. exact I.
  - reflexivity.
  - vm_compute. reflexivity.
  - reflexivity.
  - reflexivity.
  - reflexivity.
  - split; [exact (Hr _ eq_refl eq_refl)|]. split; [vm_compute; reflexivity|exact Hcache].
Defined.

(** ** The matching functions of utils/deduplication.js *)

Module Dedup.

(** The text after [pat], when [s] begins with it. *)
Fixpoint afterPrefix (pat s : string) : option string :=
  match pat, s with
  | EmptyString, _ => Some s
  | String a pat', String b s' => if Ascii.eqb a b then afterPrefix pat' s' else None
  | String _ _, EmptyString => None
  end.

(** One alternative [t\.?] of the title pattern followed by [\s+], at the
    start of [s]: the text after the match.  The dot is taken when the
    white space follows it. *)
Definition afterTitle (t s : string) : option string :=
  r ← afterPrefix t s;
  let r := match r with
           | String "." r' => r'
           | _ => r
           end in
  match r with
  | String c _ => if is_ws c then Some (trimStart r) else None
  | EmptyString => None
  end.

Definition titles : list string := ["dr"; "mr"; "mrs"; "ms"; "prof"].

Fixpoint firstTitle (ts : list string) (s : string) : option string :=
  match ts with
  | [] => None
  | t :: ts =>
      match afterTitle t s with
      | Some r => Some r
      | None => firstTitle ts s
      end
  end.

(** [s.replace(/^(dr\.?|mr\.?|mrs\.?|ms\.?|prof\.?)\s+/i, '')] on a
    lower-cased string: the alternatives are tried in their order. *)
Definition stripTitle (s : string) : string := default s (firstTitle titles s).

(** [s.replace(/\s+/g, ' ')]; [inRun] tells that the run of white space
    has already been replaced. *)
Fixpoint collapseSpaces (inRun : bool) (s : string) : string :=
  match s with
  | EmptyString => EmptyString
  | String c r =>
      if is_ws c then
        if inRun then collapseSpaces true r else String " " (collapseSpaces true r)
      else String c (collapseSpaces false r)
  end.

(** [normalizeAuthorName]; a missing or empty name is falsy. *)
Definition normalizeAuthorName (name : option string) : string :=
  match name with
  | None | Some EmptyString => ""
  | Some n => collapseSpaces false (stripTitle (trim (toLowerCase n)))
  end.

(** The longest prefix of characters that pass [p]. *)
Fixpoint takeWhile (p : ascii → bool) (s : string) : string :=
  match s with
  | EmptyString => EmptyString
  | String c r => if p c then String c (takeWhile p r) else EmptyString
  end.

(** The group of [s.match(/marker([^stop]+)/)]: at the leftmost place
    where [marker] is followed by a character outside [stop], the longest
    run of such characters. *)
Fixpoint capture (marker : string) (stop : ascii → bool) (s : string) : option string :=
  let here := match afterPrefix marker s with
              | Some r => match takeWhile (fun c => negb (stop c)) r with
                          | EmptyString => None
                          | group => Some group
                          end
              | None => None
              end in
  match here, s with
  | Some group, _ => Some group
  | None, String _ r => capture marker stop r
  | None, EmptyString => None
  end.

Section with_parser.

Variable parseURL : string → option URL.

Definition normalizeUrl : option string → string := DedupUrl.normalizeUrl parseURL.
Definition normalizeHandle : option string → string := DedupHandle.normalizeHandle.

(** [urlsMatch], [handlesMatch] and [namesMatch] *)
Definition urlsMatch (url1 url2 : option string) : bool :=
  String.eqb (normalizeUrl url1) (normalizeUrl url2).
Definition handlesMatch (handle1 handle2 : option string) : bool :=
  String.eqb (normalizeHandle handle1) (normalizeHandle handle2).
Definition namesMatch (name1 name2 : option string) : bool :=
  String.eqb (normalizeAuthorName name1) (normalizeAuthorName name2).

(** An identifier handed to a function that expects a string:
    [undefined] and [null] are falsy, an object has neither [replace] nor
    [toLowerCase]. *)
Definition asText (id : identifier) : result (option string) :=
  match id with
  | IdString s => Ok (Some s)
  | IdUndefined | IdNull => Ok None
  | IdObject _ _ => Throw TypeError
  end.

(** The test of one author in the loop of [findAuthor]. *)
Definition sameAuthor (platform : string) (a : Author) (id : identifier) : result bool :=
  if String.eqb platform "x" then
    text ← asText id; Ok (handlesMatch (handle a) text)
  else if String.eqb platform "linkedin" then
    text ← asText id; Ok (urlsMatch (profile_url a) text)
  else if String.eqb platform "substack" then
    text ← asText id; Ok (urlsMatch (url a) text)
  else if String.eqb platform "generic_web" then
    match id with
    | IdObject n s =>
        Ok (namesMatch (name a) n
            && String.eqb (normalizeAuthorName (source a)) (normalizeAuthorName s))
    | IdNull => Throw TypeError
    | IdString _ | IdUndefined => Ok false
    end
  else Ok false.

Fixpoint findIn (platform : string) (id : identifier) (authors : list Author)
  : result (option Author) :=
  match authors with
  | [] => Ok None
  | a :: rest =>
      match sameAuthor platform a id with
      | Ok true => Ok (Some a)
      | Ok false => findIn platform id rest
      | Throw e => Throw e
      end
  end.

(** [findAuthor]; [authors] may be missing. *)
Definition findAuthor (authors : option (list Author)) (platform : string) (id : identifier)
  : result (option Author) :=
  match authors with
  | None => Ok None
  | Some l => findIn platform id l
  end.

(** [contentExists]; the author and the address may be missing. *)
Definition contentExists (author : option Author) (url : option string) (platform : string)
  : bool :=
  match author with
  | None => false
  | Some a =>
      match ServiceWorker.contentOf platform a with
      | None => false
      | Some savedContent =>
          let normalizedUrl := normalizeUrl url in
          existsb (fun item => String.eqb (normalizeUrl (Some (c_url item))) normalizedUrl)
                  savedContent
      end
  end.

End with_parser.

Definition is_slash (c : ascii) : bool := Ascii.eqb c "/".
Definition is_slash_or_question (c : ascii) : bool := Ascii.eqb c "/" || Ascii.eqb c "?".

(** [generateAuthorId] *)
Definition generateAuthorId (platform : string) (a : Author) : string :=
  if String.eqb platform "x" then "x:" +:+ DedupHandle.normalizeHandle (handle a)
  else if String.eqb platform "linkedin" then
    "linkedin:" +:+
    match profile_url a ≫= capture "/in/" is_slash_or_question with
    | Some group => toLowerCase group
    | None => ""
    end
  else if String.eqb platform "substack" then
    "substack:" +:+
    match url a ≫= capture "//" is_slash with
    | Some group => toLowerCase group
    | None => ""
    end
  else if String.eqb platform "generic_web" then
    "web:" +:+ normalizeAuthorName (source a) +:+ ":" +:+ normalizeAuthorName (name a)
  else "".

End Dedup.

Example normalizeAuthorName_ex :
  Dedup.normalizeAuthorName (Some "  Prof.   Ada   LOVELACE ") = "ada lovelace" ∧
  Dedup.normalizeAuthorName (Some "Mrs Hopper") = "hopper" ∧
  Dedup.normalizeAuthorName (Some "Drake") = "drake" ∧
  Dedup.normalizeAuthorName (Some "Dr.") = "dr." ∧
  Dedup.normalizeAuthorName None = "".
Proof. vm_compute. done. Qed.

(** Only one title is removed: the function is not idempotent. *)
Example normalizeAuthorName_twice :
  Dedup.normalizeAuthorName (Some "Dr Dr Who") = "dr who" ∧
  Dedup.normalizeAuthorName (Some "dr who") = "who".
Proof. vm_compute. done. Qed.

Example generateAuthorId_ex :
  Dedup.generateAuthorId "linkedin" (ada "https://www.linkedin.com/in/Ada-Lovelace/?trk=x" [])
    = "linkedin:ada-lovelace" ∧
  Dedup.generateAuthorId "substack"
    (mkAuthor None None (Some "https://Ada.substack.com/p/notes") None None None None None None)
    = "substack:ada.substack.com" ∧
  Dedup.generateAuthorId "x" alice = "x:alice" ∧
  Dedup.generateAuthorId "mastodon" alice = "".
Proof. vm_compute. done. Qed.

Section name_facts.

Implicit Types (s r : string) (c : ascii) (b : bool).

Definition firstNonWs s : bool :=
  match s with
  | EmptyString => true
  | String c _ => negb (is_ws c)
  end.

Definition lastNonWs s : bool :=
  match lastChar s with
  | None => true
  | Some c => negb (is_ws c)
  end.

Definition noUpper s : bool := all_chars (fun c => negb (is_upper c)) s.

Lemma lastChar_cons c s : s ≠ "" → lastChar (String c s) = lastChar s.
Proof. by destruct s. Qed.

Lemma lastNonWs_tail c s : lastNonWs (String c s) = true → lastNonWs s = true.
Proof. unfold lastNonWs. destruct s as [|d s]; [done|]. by rewrite lastChar_cons. Qed.

Lemma trimStart_fix s : firstNonWs s = true → trimStart s = s.
Proof. destruct s as [|c s]; simpl; [done|]. by destruct (is_ws c). Qed.

Lemma trimEnd_fix s : lastNonWs s = true → trimEnd s = s.
Proof.
  induction s as [|c s IH]; [done|]. intros H. cbn [trimEnd].
  destruct s as [|d s].
  - simpl. unfold lastNonWs in H. simpl in H. by destruct (is_ws c).
  - rewrite IH by by eapply lastNonWs_tail. done.
Qed.

Lemma firstNonWs_trimStart s : firstNonWs (trimStart s) = true.
Proof.
  induction s as [|c s IH]; simpl; [done|].
  destruct (is_ws c) eqn:Hc; [done|]. simpl. by rewrite Hc.
Qed.

Lemma lastNonWs_trimStart s : lastNonWs s = true → lastNonWs (trimStart s) = true.
Proof.
  induction s as [|c s IH]; simpl; [done|]. intros H.
  destruct (is_ws c); [|done]. by eapply IH, lastNonWs_tail.
Qed.

Lemma lastNonWs_trimEnd s : lastNonWs (trimEnd s) = true.
Proof.
  induction s as [|c s IH]; [done|]. cbn [trimEnd].
  destruct (trimEnd s) as [|d r] eqn:E.
  - destruct (is_ws c) eqn:Hc; [done|]. unfold lastNonWs. simpl. by rewrite Hc.
  - unfold lastNonWs in *. by rewrite lastChar_cons.
Qed.

Lemma firstNonWs_trimEnd s : firstNonWs s = true → firstNonWs (trimEnd s) = true.
Proof.
  destruct s as [|c s]; [done|]. cbn [firstNonWs trimEnd]. intros Hc.
  destruct (trimEnd s); [|done].
  destruct (is_ws c) eqn:E; [done|]. cbn [firstNonWs]. by rewrite E.
Qed.

Lemma afterPrefix_app pat s r : Dedup.afterPrefix pat s = Some r → s = pat +:+ r.
Proof.
  unfold String.app. revert s. induction pat as [|a pat IH]; intros [|b s]; simpl; try done.
  - by intros [= ->].
  - by intros [= ->].
  - destruct (Ascii.eqb_spec a b) as [->|]; [|done]. intros H. by rewrite (IH s H).
Qed.

Lemma lastNonWs_suffix pat s : lastNonWs (pat +:+ s) = true → lastNonWs s = true.
Proof.
  unfold String.app. induction pat as [|a pat IH]; simpl; [done|].
  intros H. by eapply IH, lastNonWs_tail.
Qed.

Lemma noUpper_suffix pat s : noUpper (pat +:+ s) = true → noUpper s = true.
Proof. unfold noUpper. rewrite all_chars_app. by intros [_ ?]%andb_prop. Qed.

Lemma noUpper_trimStart s : noUpper s = true → noUpper (trimStart s) = true.
Proof.
  unfold noUpper. induction s as [|c s IH]; simpl; [done|].
  intros [Hc Hs]%andb_prop. destruct (is_ws c); [by apply IH|]. simpl. by rewrite Hc, Hs.
Qed.

Lemma noUpper_trimEnd s : noUpper s = true → noUpper (trimEnd s) = true.
Proof.
  unfold noUpper. induction s as [|c s IH]; simpl; [done|].
  intros [Hc Hs]%andb_prop. specialize (IH Hs).
  destruct (trimEnd s); simpl in *.
  - destruct (is_ws c); simpl; [done|by rewrite Hc].
  - by rewrite Hc, IH.
Qed.

Lemma lower_char_not_upper c : is_upper (lower_char c) = false.
Proof. destruct c as [[] [] [] [] [] [] [] []]; by vm_compute. Qed.

Lemma lower_char_fix c : is_upper c = false → lower_char c = c.
Proof. unfold lower_char. by intros ->. Qed.

Lemma is_ws_lower_char c : is_ws (lower_char c) = is_ws c.
Proof. destruct c as [[] [] [] [] [] [] [] []]; by vm_compute. Qed.

Lemma is_ws_not_upper c : is_ws c = true → is_upper c = false.
Proof. destruct c as [[] [] [] [] [] [] [] []]; by vm_compute. Qed.

Lemma noUpper_toLowerCase s : noUpper (toLowerCase s) = true.
Proof.
  unfold noUpper. induction s as [|c s IH]; simpl; [done|].
  by rewrite lower_char_not_upper, IH.
Qed.

Lemma toLowerCase_fix s : noUpper s = true → toLowerCase s = s.
Proof.
  unfold noUpper. induction s as [|c s IH]; simpl; [done|].
  intros [Hc Hs]%andb_prop. apply negb_true_iff in Hc.
  by rewrite lower_char_fix, IH.
Qed.

(** What the title pattern leaves is an end of the string. *)
Lemma afterTitle_facts t s r :
  Dedup.afterTitle t s = Some r →
  firstNonWs r = true ∧ (lastNonWs s = true → lastNonWs r = true) ∧
  (noUpper s = true → noUpper r = true).
Proof.
  unfold Dedup.afterTitle. destruct (Dedup.afterPrefix t s) as [r0|] eqn:E; [|done]. simpl.
  apply afterPrefix_app in E as ->.
  assert (∀ r1, (lastNonWs r0 = true → lastNonWs r1 = true) →
                (noUpper r0 = true → noUpper r1 = true) →
                match r1 with
                | String c _ => if is_ws c then Some (trimStart r1) else None
                | EmptyString => None
                end = Some r →
                firstNonWs r = true ∧ (lastNonWs (t +:+ r0) = true → lastNonWs r = true) ∧
                (noUpper (t +:+ r0) = true → noUpper r = true)) as Hrest.
  { intros r1 Hlast Hup. destruct r1 as [|c r1]; [done|].
    destruct (is_ws c); [|done]. intros Heq.
    assert (r = trimStart (String c r1)) as -> by congruence.
    split; [apply firstNonWs_trimStart|]. split.
    - intros H. by apply lastNonWs_trimStart, Hlast, (lastNonWs_suffix t).
    - intros H. by apply noUpper_trimStart, Hup, (noUpper_suffix t). }
  destruct r0 as [|c r0]; [done|].
  destruct (Ascii.eqb_spec c ".") as [->|Hne].
  - intros H. apply (Hrest r0); [apply lastNonWs_tail| |exact H].
    unfold noUpper. by intros [_ ?]%andb_prop.
  - assert (match String c r0 with
            | String "." r' => r'
            | _ => String c r0
            end = String c r0) as ->.
    { destruct c as [[] [] [] [] [] [] [] []]; done. }
    intros H. by apply (Hrest (String c r0)).
Qed.

Lemma stripTitle_facts s :
  firstNonWs s = true →
  firstNonWs (Dedup.stripTitle s) = true ∧
  (lastNonWs s = true → lastNonWs (Dedup.stripTitle s) = true) ∧
  (noUpper s = true → noUpper (Dedup.stripTitle s) = true).
Proof.
  intros Hfirst. unfold Dedup.stripTitle.
  generalize Dedup.titles. intros ts. induction ts as [|t ts IH]; simpl; [done|].
  destruct (Dedup.afterTitle t s) as [r|] eqn:E; [|done].
  simpl. by eapply afterTitle_facts.
Qed.

Lemma collapseSpaces_twice b s :
  Dedup.collapseSpaces b (Dedup.collapseSpaces b s) = Dedup.collapseSpaces b s.
Proof.
  revert b. induction s as [|c s IH]; intros b; simpl; [done|].
  destruct (is_ws c) eqn:Hc.
  - destruct b; [apply IH|]. simpl. by rewrite IH.
  - simpl. by rewrite Hc, IH.
Qed.

Lemma noUpper_collapseSpaces b s :
  noUpper s = true → noUpper (Dedup.collapseSpaces b s) = true.
Proof.
  unfold noUpper. revert b. induction s as [|c s IH]; intros b; simpl; [done|].
  intros [Hc Hs]%andb_prop. destruct (is_ws c).
  - destruct b; [by apply IH|]. simpl. by apply IH.
  - simpl. by rewrite Hc, IH.
Qed.

Lemma firstNonWs_collapseSpaces s :
  firstNonWs s = true → firstNonWs (Dedup.collapseSpaces false s) = true.
Proof.
  destruct s as [|c s]; simpl; [done|]. destruct (is_ws c) eqn:Hc; [done|]. simpl. by rewrite Hc.
Qed.

Lemma lastChar_collapseSpaces b s :
  s ≠ "" → lastNonWs s = true →
  ∃ c, lastChar (Dedup.collapseSpaces b s) = Some c ∧ is_ws c = false.
Proof.
  revert b. induction s as [|c s IH]; intros b; [done|]. intros _ Hlast.
  destruct (decide (s = "")) as [->|Hne].
  - unfold lastNonWs in Hlast. simpl in *. apply negb_true_iff in Hlast. rewrite Hlast.
    by exists c.
  - pose proof (lastNonWs_tail _ _ Hlast) as Hlast'.
    assert (∀ b' x, (∃ y, lastChar (Dedup.collapseSpaces b' s) = Some y ∧ is_ws y = false) →
                    ∃ y, lastChar (String x (Dedup.collapseSpaces b' s)) = Some y
                         ∧ is_ws y = false) as Hcons.
    { intros b' x (y & Hy & Hws). exists y. split; [|done].
      rewrite lastChar_cons; [done|]. intros Heq. by rewrite Heq in Hy. }
    cbn [Dedup.collapseSpaces]. destruct (is_ws c).
    + destruct b; [by apply IH|]. by apply Hcons, IH.
    + by apply Hcons, IH.
Qed.

Lemma lastNonWs_collapseSpaces b s :
  lastNonWs s = true → lastNonWs (Dedup.collapseSpaces b s) = true.
Proof.
  intros H. destruct s as [|c s]; [done|].
  destruct (lastChar_collapseSpaces b (String c s)) as (x & Hx & Hws); [done..|].
  unfold lastNonWs. by rewrite Hx, Hws.
Qed.

End name_facts.

(** X21. A name normalised by [normalizeAuthorName] is in lower case, has
    no white space at its ends, and has single spaces for white space:
    lower-casing it, trimming it or collapsing its white space again
    changes nothing. *)
Theorem normalizeAuthorName_normal (name : option string) :
  let r := Dedup.normalizeAuthorName name in
  toLowerCase r = r ∧ trim r = r ∧ Dedup.collapseSpaces false r = r.
Proof.
  intros r. subst r. unfold Dedup.normalizeAuthorName.
  destruct name as [[|c n]|]; [done| |done].
  set (t := trim (toLowerCase (String c n))).
  assert (firstNonWs t = true ∧ lastNonWs t = true ∧ noUpper t = true) as (Hf & Hl & Hu).
  { subst t. unfold trim. split; [apply firstNonWs_trimEnd, firstNonWs_trimStart|].
    split; [apply lastNonWs_trimEnd|].
    apply noUpper_trimEnd, noUpper_trimStart, noUpper_toLowerCase. }
  destruct (stripTitle_facts t Hf) as (Hf' & Hl' & Hu').
  split; [|split].
  - by apply toLowerCase_fix, noUpper_collapseSpaces, Hu'.
  - unfold trim. rewrite trimStart_fix by by apply firstNonWs_collapseSpaces.
    by apply trimEnd_fix, lastNonWs_collapseSpaces, Hl'.
  - apply collapseSpaces_twice.
Qed.

(** The ways of writing a title, in lower case. *)
Definition writtenTitles : list string :=
  ["dr"; "dr."; "mr"; "mr."; "mrs"; "mrs."; "ms"; "ms."; "prof"; "prof."].

Lemma firstTitle_written (t rest : string) :
  t ∈ writtenTitles → rest ≠ "" → firstNonWs rest = true →
  Dedup.firstTitle Dedup.titles (t +:+ " " +:+ rest) = Some rest.
Proof.
  intros Ht Hne Hfirst.
  assert (trimStart (String " " rest) = rest) as Htrim.
  { change (trimStart (String " " rest)) with (trimStart rest). by apply trimStart_fix. }
  unfold writtenTitles in Ht. rewrite !elem_of_cons, elem_of_nil in Ht.
  destruct Ht as [->|[->|[->|[->|[->|[->|[->|[->|[->|[->|[]]]]]]]]]]];
    unfold String.app; cbn -[trimStart]; by rewrite Htrim.
Qed.

(** X22. [normalizeAuthorName] removes one leading title: for a title
    written in any letter case, with or without its dot, and a name without
    white space at its ends, the result is the name in lower case with its
    white space collapsed.  So a name that begins with no title itself
    matches the same name with a title before it. *)
Theorem normalizeAuthorName_title (title name : string) :
  toLowerCase title ∈ writtenTitles →
  name ≠ "" → firstNonWs name = true → lastNonWs name = true →
  Dedup.normalizeAuthorName (Some (title +:+ " " +:+ name))
    = Dedup.collapseSpaces false (toLowerCase name) ∧
  (Dedup.stripTitle (toLowerCase name) = toLowerCase name →
   Dedup.namesMatch (Some (title +:+ " " +:+ name)) (Some name) = true).
Proof.
  intros Ht Hne Hfirst Hlast.
  assert (toLowerCase name ≠ "") as Hne' by by destruct name.
  assert (firstNonWs (toLowerCase name) = true) as Hfirst'.
  { destruct name as [|c n]; [done|]. simpl in *. by rewrite is_ws_lower_char. }
  assert (lastNonWs (toLowerCase name) = true) as Hlast'.
  { unfold lastNonWs in *.
    assert (lastChar (toLowerCase name) = lower_char <$> lastChar name) as ->.
    { clear. induction name as [|c n IH]; [done|].
      destruct n as [|d n]; [done|]. cbn [toLowerCase]. rewrite lastChar_cons by done.
      cbn [toLowerCase] in IH. rewrite IH. by rewrite (lastChar_cons c (String d n)). }
    destruct (lastChar name) as [x|]; [|done].
    change (negb (is_ws (lower_char x)) = true). by rewrite is_ws_lower_char. }
  assert (Dedup.normalizeAuthorName (Some (title +:+ " " +:+ name))
          = Dedup.collapseSpaces false (toLowerCase name)) as Hnorm.
  { unfold Dedup.normalizeAuthorName.
    destruct (title +:+ " " +:+ name) as [|c0 s0] eqn:Hs.
    { exfalso. destruct title; [|done].
      revert Ht. unfold writtenTitles. rewrite !elem_of_cons, elem_of_nil. simpl. naive_solver. }
    rewrite <- Hs, !toLowerCase_app.
    change (toLowerCase " ") with " ".
    assert (trim (toLowerCase title +:+ " " +:+ toLowerCase name)
            = toLowerCase title +:+ " " +:+ toLowerCase name) as ->.
    { unfold trim. rewrite trimStart_fix.
      - apply trimEnd_fix.
        assert (∀ a : string, lastNonWs (a +:+ " " +:+ toLowerCase name) = true) as H; [|apply H].
        intros a. unfold String.app. induction a as [|x a IH]; simpl.
        + unfold lastNonWs in *. rewrite lastChar_cons by done. done.
        + unfold lastNonWs in *. rewrite lastChar_cons; [done|]. by destruct a.
      - revert Ht. unfold writtenTitles. rewrite !elem_of_cons, elem_of_nil.
        by intros [->|[->|[->|[->|[->|[->|[->|[->|[->|[->|[]]]]]]]]]]]. }
    unfold Dedup.stripTitle. by rewrite firstTitle_written. }
  split; [done|]. intros Hnone.
  unfold Dedup.namesMatch. rewrite Hnorm. apply String.eqb_eq.
  unfold Dedup.normalizeAuthorName. destruct name as [|c n] eqn:Hn; [done|]. rewrite <- Hn in *.
  assert (trim (toLowerCase name) = toLowerCase name) as ->.
  { unfold trim. rewrite trimStart_fix by done. by apply trimEnd_fix. }
  by rewrite Hnone.
Qed.

Lemma normalizeAuthorName_title_witness :
  Dedup.normalizeAuthorName (Some "Prof. Grace  Hopper") = "grace hopper" ∧
  Dedup.namesMatch (Some "Prof. Grace  Hopper") (Some "Grace  Hopper") = true.
Proof.
  destruct (normalizeAuthorName_title "Prof." "Grace  Hopper") as [Hnorm Hmatch].
  - apply (bool_decide_unpack _). vm_compute. exact I.
  - discriminate.
  - reflexivity.
  - reflexivity.
  - split; [exact Hnorm|]. apply Hmatch. reflexivity.
Defined.

Section dedup_find.

Variable parseURL : string → option URL.

Lemma sameAuthor_x_agrees (a : Author) (h : string) :
  handle a ≠ None →
  Dedup.sameAuthor parseURL "x" a (IdString h)
  = ServiceWorker.sameAuthor parseURL "x" a (IdString h).
Proof.
  intros Hh. unfold Dedup.sameAuthor, ServiceWorker.sameAuthor. simpl.
  destruct (handle a) as [ha|]; [|done]. simpl.
  unfold Dedup.handlesMatch, Dedup.normalizeHandle.
  by rewrite !dedup_normalizeHandle_string.
Qed.

Lemma findIn_x_agrees (l : list Author) (h : string) (k : nat) :
  Forall (fun a => handle a ≠ None) l →
  ∃ found,
    ServiceWorker.findFrom parseURL "x" (IdString h) l k = Ok found ∧
    Dedup.findIn parseURL "x" (IdString h) l = Ok (found ≫= fun i => l !! (i - k)).
Proof.
  intros Hall. revert k. induction Hall as [|a l Ha _ IH]; intros k.
  - by exists None.
  - cbn [ServiceWorker.findFrom Dedup.findIn]. rewrite (sameAuthor_x_agrees a h Ha).
    destruct (ServiceWorker.sameAuthor parseURL "x" a (IdString h)) as [[|]|e] eqn:E.
    + exists (Some k). split; [done|]. simpl. by rewrite Nat.sub_diag.
    + destruct (IH (S k)) as (found & Hsw & Hdedup). exists found. split; [done|].
      rewrite Hdedup. destruct found as [i|]; [|done]. simpl.
      assert (S k ≤ i) as Hle.
      { rewrite findFrom_firstTrue in Hsw. by apply firstTrue_Some in Hsw as [? _]. }
      replace (i - k) with (S (i - S k)) by lia. done.
    + exfalso. unfold ServiceWorker.sameAuthor in E. simpl in E.
      by destruct (handle a).
Qed.

End dedup_find.

(** X23. On the platform [x], for authors that all have a handle and a
    string to look for, [findAuthor] of the deduplication utility and
    [findAuthor] of the service worker find the same author: neither
    throws, and the utility returns the record at the position that the
    service worker reports. *)
Theorem findAuthor_x_agrees
    (parseURL : string → option URL) (kb : KB) (authors : list Author) (h : string) :
  own (default [] (favorite_authors kb)) "x" = Some authors →
  Forall (fun a => handle a ≠ None) authors →
  ∃ found,
    ServiceWorker.findAuthor parseURL kb "x" (IdString h) = Ok found ∧
    Dedup.findAuthor parseURL (Some authors) "x" (IdString h) = Ok (found ≫= (authors !!.)).
Proof.
  intros Hown Hall.
  destruct (findIn_x_agrees parseURL authors h 0 Hall) as (found & Hsw & Hdedup).
  exists found. split.
  - rewrite findAuthor_authorsAt.
    + unfold authorsAt. by rewrite Hown.
    + unfold get. by rewrite Hown.
  - simpl. rewrite Hdedup. destruct found as [i|]; [|done]. simpl. by rewrite Nat.sub_0_r.
Qed.

Lemma findAuthor_x_agrees_witness :
  Dedup.findAuthor parseHttpUrl (Some [alice]) "x" (IdString "@Alice") = Ok (Some alice) ∧
  ServiceWorker.findAuthor parseHttpUrl
    (mkKB None None (Some [("x", [alice])]) None) "x" (IdString "@Alice") = Ok (Some 0).
Proof.
  destruct (findAuthor_x_agrees parseHttpUrl (mkKB None None (Some [("x", [alice])]) None)
              [alice] "@Alice" eq_refl) as (found & Hsw & Hdedup).
  - by repeat constructor.
  - assert (found = Some 0) as -> by (vm_compute in Hsw; congruence).
    split; [exact Hdedup|exact Hsw].
Defined.

Lemma takeWhile_app (p : ascii → bool) (group rest : string) :
  all_chars p group = true →
  match rest with
  | EmptyString => True
  | String c _ => p c = false
  end →
  Dedup.takeWhile p (group +:+ rest) = group.
Proof.
  intros Hgroup Hrest. unfold String.app. induction group as [|c group IH]; simpl.
  - destruct rest as [|c r]; [done|]. simpl. by rewrite Hrest.
  - simpl in Hgroup. apply andb_prop in Hgroup as [Hc Hg]. by rewrite Hc, IH.
Qed.

(** X24. For a LinkedIn profile address, [generateAuthorId] is
    [linkedin:] followed by the name of the profile in lower case: what
    comes after the name (a slash, a query) and the letter case of the
    name do not count. *)
Theorem generateAuthorId_linkedin (a : Author) (profile rest : string) :
  profile_url a = Some ("https://www.linkedin.com/in/" +:+ profile +:+ rest) →
  profile ≠ "" →
  all_chars (fun c => negb (Dedup.is_slash_or_question c)) profile = true →
  match rest with
  | EmptyString => True
  | String c _ => Dedup.is_slash_or_question c = true
  end →
  Dedup.generateAuthorId "linkedin" a = "linkedin:" +:+ toLowerCase profile.
Proof.
  intros Hurl Hne Hprofile Hrest. unfold Dedup.generateAuthorId. rewrite Hurl. simpl.
  assert (Dedup.takeWhile (fun c => negb (Dedup.is_slash_or_question c)) (profile +:+ rest)
          = profile) as Htake.
  { apply takeWhile_app; [done|]. destruct rest as [|c r]; [done|]. by rewrite Hrest. }
  unfold String.app in *. cbn -[Dedup.takeWhile]. rewrite Htake.
  by destruct profile.
Qed.

Lemma generateAuthorId_linkedin_witness :
  Dedup.generateAuthorId "linkedin" (ada "https://www.linkedin.com/in/Ada-Lovelace/?trk=x" [])
  = "linkedin:ada-lovelace".
Proof.
  apply (generateAuthorId_linkedin _ "Ada-Lovelace" "/?trk=x"); try reflexivity.
  discriminate.
Defined.

(** ** What a save leaves in the index and in the recent additions *)

Section save_effects.

Variable Host : Type.
Variable native : Host → Request → Host * Reply.
Variable parseURL : string → option URL.
Variable parseDate : string → option Date.
Variable htmlToMarkdown : string → string.
Variable now : Date.

Lemma saveToKB_recentAdditions filePath platform authorData contentData tags
    (w : Worker.World Host) :
  Worker.recentAdditions Host
    (Worker.saveToKB Host native parseURL now filePath platform authorData contentData tags w).1
  = Worker.recentAdditions Host w.
Proof.
  rewrite saveToKB_unfold. cbv zeta.
  destruct ((native (Worker.host Host w) (ReqRead filePath)).2) as [response|message]; [|done].
  destruct (r_success response); [|done].
  destruct (r_data response) as [kb|]; [|done].
  destruct (indexUpdate parseURL now kb platform authorData contentData tags)
    as [kb' [summary|e]]; [|done].
  destruct ((native _ (ReqWrite filePath kb')).2) as [written|message]; [|done].
  by destruct (r_success written).
Qed.

(** X25. [saveBookmark] records the bookmark in the recent additions
    exactly when the host has created the folder: the new item comes first,
    with the slug of the result, before the nine most recent of the others,
    whether the index update went through or not.  When the folder is
    refused the list is as before. *)
Theorem saveBookmark_recent_additions
    (filePath platform : string) (authorData : Author) (contentData : option Content)
    (tags : option (list string)) (fullContentHtml : option string) (w : Worker.World Host) :
  let r := Worker.saveBookmark Host native parseURL parseDate htmlToMarkdown now
             filePath platform authorData contentData tags fullContentHtml w in
  match r.2 with
  | Ok result =>
      ∃ item,
        Worker.recentAdditions Host r.1
          = item :: List.firstn 9 (Worker.recentAdditions Host w) ∧
        ri_slug item = br_slug result ∧ ri_platform item = platform ∧
        ri_hasFullContent item = br_hasFullContent result ∧
        length (Worker.recentAdditions Host r.1) ≤ 10
  | Throw _ => Worker.recentAdditions Host r.1 = Worker.recentAdditions Host w
  end.
Proof.
  intros r. subst r. unfold Worker.saveBookmark.
  destruct (if String.eqb platform "substack" then _ else _) as [authorName sourceName].
  cbv zeta. rewrite bind_unfold, sendNativeMessage_eq.
  destruct ((native (Worker.host Host w) _).2) as [createResult|message]; [|reflexivity].
  destruct (r_success createResult); simpl; [|reflexivity].
  rewrite !bind_unfold. unfold Worker.tryCatch. rewrite bind_unfold.
  lazymatch goal with
  | |- context [Worker.saveToKB Host native parseURL now ?f ?p ?a ?c ?t ?w1] =>
      pose proof (saveToKB_recentAdditions f p a c t w1) as Hrecent;
      destruct (Worker.saveToKB Host native parseURL now f p a c t w1) as [w2 [summary|e]]
  end; simpl in *; eexists; rewrite Hrecent; (repeat split);
    rewrite length_firstn; lia.
Qed.

Lemma indexUpdate_indexed
    (kb : KB) (platform : string) (authorData : Author) (contentData : option Content)
    (tags : list string) (kb' : KB) (summary : SaveSummary) :
  plain (default [] (topic_index kb)) →
  tags ≠ [] →
  indexUpdate parseURL now kb platform authorData contentData (Some tags) = (kb', Ok summary) →
  ∃ i isNew,
    (ServiceWorker.addOrUpdateAuthor parseURL kb platform authorData).2 = Ok (i, isNew) ∧
    ∀ topic, topic ∈ tags →
      ∃ refs, refsOf kb' topic = Some refs ∧
              ServiceWorker.getAuthorRef platform
                (default authorData (authorsAt kb' platform !! i)) ∈ refs.
Proof.
  intros Hplain Hne. unfold indexUpdate.
  pose proof (addOrUpdateAuthor_topic_index parseURL kb platform authorData) as Hti1.
  destruct (ServiceWorker.addOrUpdateAuthor parseURL kb platform authorData)
    as [kb1 [[i isNew]|e]]; [|done]. simpl in Hti1.
  assert (∃ kb2 outcome,
            match contentData with
            | Some c => Worker.addContentAt parseURL now kb1 platform i
                          (set_content_topics c (Some tags))
            | None => (kb1, Ok (mkOutcome true None))
            end = (kb2, outcome) ∧ topic_index kb2 = topic_index kb1) as (kb2 & outcome & -> & Hti2).
  { destruct contentData as [c|]; [|by eauto]. unfold Worker.addContentAt.
    destruct (_ !! i); [|by eauto].
    destruct (ServiceWorker.addContent _ _ _ _ _). by eauto. }
  destruct outcome as [outcome|e]; [|done].
  destruct tags as [|t ts]; [done|].
  set (ref := ServiceWorker.getAuthorRef platform
                (default authorData (authorsAt kb2 platform !! i))).
  unfold ServiceWorker.updateTopicIndex.
  destruct (ServiceWorker.addReferences ref (default [] (topic_index kb2)) (t :: ts))
    as [ti [[]|e]] eqn:E; [|done].
  intros [= <- <-]. exists i, isNew. split; [done|].
  intros topic Hin. unfold refsOf. simpl.
  assert (plain (default [] (topic_index kb2))) as Hplain2 by by rewrite Hti2, Hti1.
  rewrite own_sortKeys by by eapply addReferences_plain.
  change (authorsAt (set_topic_index kb2 (ServiceWorker.sortKeys ti)) platform)
    with (authorsAt kb2 platform).
  by eapply addReferences_adds.
Qed.

(** X26. When the update of the document completes for a list of topics
    that is not empty, every topic of the list is in the topic index of the
    resulting document and lists the reference of the author that was
    stored or updated. *)
Theorem indexUpdate_indexes_author
    (kb : KB) (platform : string) (authorData : Author) (contentData : option Content)
    (tags : list string) (kb' : KB) (summary : SaveSummary) :
  plain (default [] (topic_index kb)) →
  tags ≠ [] →
  indexUpdate parseURL now kb platform authorData contentData (Some tags) = (kb', Ok summary) →
  ∃ i isNew,
    (ServiceWorker.addOrUpdateAuthor parseURL kb platform authorData).2 = Ok (i, isNew) ∧
    ∀ topic, topic ∈ tags →
      ∃ refs, refsOf kb' topic = Some refs ∧
              ServiceWorker.getAuthorRef platform
                (default authorData (authorsAt kb' platform !! i)) ∈ refs.
Proof. apply indexUpdate_indexed. Qed.

(** X27. The topics of a save are offered from then on.  When [saveToKB]
    has returned for a list of topics, [getTopics] answers with a list that
    holds each of them.  It answers from the cache: no message goes to the
    host, whatever path is configured. *)
Theorem saveToKB_then_getTopics
    filePath platform authorData contentData tags (w : Worker.World Host)
    response kb summary configured otherPath :
  (native (Worker.host Host w) (ReqRead filePath)).2 = Replied response →
  r_data response = Some kb →
  plain (default [] (topic_index kb)) →
  Worker.truthy configured = Some otherPath →
  let saved := Worker.saveToKB Host native parseURL now
                 filePath platform authorData contentData (Some tags) w in
  saved.2 = Ok summary →
  ∃ offered,
    Handler.getTopics Host native configured saved.1 = (saved.1, Ok (TopicsAnswer offered)) ∧
    ∀ t, t ∈ tags → t ∈ offered.
Proof.
  intros Hread Hdata Hplain Hpath saved. subst saved.
  rewrite saveToKB_unfold. cbv zeta. rewrite Hread, Hdata.
  destruct (r_success response); [|done].
  destruct (indexUpdate parseURL now kb platform authorData contentData (Some tags))
    as [kb' [summary'|e]] eqn:Hupdate; [|done].
  destruct ((native _ (ReqWrite filePath kb')).2) as [written|message]; [|done].
  destruct (r_success written); [|done]. simpl. intros _.
  exists (Topics.getExistingTopics kb'). split.
  - unfold Handler.getTopics, Handler.caught, Worker.tryCatch. rewrite Hpath.
    rewrite bind_unfold. unfold Handler.cachedOrRead. reflexivity.
  - intros t Hin. apply elem_of_getExistingTopics. left.
    assert (tags ≠ []) as Hne by (intros ->; by apply elem_of_nil in Hin).
    destruct (indexUpdate_indexed kb platform authorData contentData tags kb' summary'
                Hplain Hne Hupdate) as (i & isNew & _ & Hidx).
    destruct (Hidx t Hin) as (refs & Hrefs & _).
    apply own_Some_keys. by exists refs.
Qed.

End save_effects.

Lemma indexUpdate_indexes_author_witness :
  ∃ refs,
    refsOf (indexUpdate parseHttpUrl aDay withAda "linkedin"
              (ada "https://www.linkedin.com/in/Ada-Lovelace/" ["engines"]) None
              (Some ["engines"; "ai"])).1 "ai" = Some refs ∧
    Some "Ada Lovelace" ∈ refs.
Proof.
  destruct (indexUpdate_indexes_author parseHttpUrl aDay withAda "linkedin"
              (ada "https://www.linkedin.com/in/Ada-Lovelace/" ["engines"]) None
              ["engines"; "ai"]
              (indexUpdate parseHttpUrl aDay withAda "linkedin"
                 (ada "https://www.linkedin.com/in/Ada-Lovelace/" ["engines"]) None
                 (Some ["engines"; "ai"])).1
              (mkSaveSummary false true false))
    as (i & isNew & Hup & Hidx).
  - reflexivity.
  - discriminate.
  - vm_compute. reflexivity.
  - assert (i = 0) as -> by (vm_compute in Hup; congruence).
    apply Hidx. apply (bool_decide_unpack _). vm_compute. exact I.
Defined.

Lemma saveToKB_then_getTopics_witness :
  let saved := Worker.saveToKB (option KB) fileHost parseHttpUrl aDay indexPath "generic_web"
                 (anAuthor "Ada") (Some aPost) (Some ["rocq"; "ai"]) (worldWith (Some emptyKB)) in
  ∃ offered,
    Handler.getTopics (option KB) fileHost (Some "/tmp/other.yaml") saved.1
      = (saved.1, Ok (TopicsAnswer offered)) ∧
    ∀ t, t ∈ ["rocq"; "ai"] → t ∈ offered.
Proof.
  apply (saveToKB_then_getTopics (option KB) fileHost parseHttpUrl aDay indexPath
           "generic_web" (anAuthor "Ada") (Some aPost) ["rocq"; "ai"] (worldWith (Some emptyKB))
           (mkResponse true None (Some emptyKB) None None) emptyKB
           (mkSaveSummary true true false) (Some "/tmp/other.yaml") "/tmp/other.yaml").
  - reflexivity.
  - reflexivity.
  - reflexivity.
  - reflexivity.
  - vm_compute. reflexivity.
Defined.

(** ** Tracking parameters and duplicates *)

(** X28. Tracking parameters do not hide a duplicate from the service
    worker: an item is found under every address that parses to the same
    parts as its own apart from the parameters [utm_source], [ref],
    [fbclid] and the like. *)
Theorem contentExists_ignores_tracking
    (parseURL : string → option URL) (a : Author) (platform url : string)
    (item : Content) (p1 p2 : URL) :
  item ∈ default [] (ServiceWorker.contentOf platform a) →
  parseURL (c_url item) = Some p1 → parseURL url = Some p2 →
  same_but_params ServiceWorkerUrl.trackingParams p1 p2 →
  ServiceWorker.contentExists parseURL a url platform = true.
Proof.
  intros Hin H1 H2 Hsame. apply contentExists_iff. exists item. split; [done|].
  by eapply sw_normalizeUrl_tracking.
Qed.

Lemma contentExists_ignores_tracking_witness :
  ServiceWorker.contentExists parseHttpUrl
    (mkAuthor (Some "alice") None None None None None None
       (Some [tweet "https://x.com/alice/status/1?utm_source=share&lang=en"]) None)
    "https://x.com/alice/status/1?lang=en&fbclid=zz&ref=home" "x" = true.
Proof.
  eapply (contentExists_ignores_tracking parseHttpUrl _ "x" _
            (tweet "https://x.com/alice/status/1?utm_source=share&lang=en")).
  - by left.
  - vm_compute. reflexivity.
  - vm_compute. reflexivity.
  - repeat split.
Defined.

(** X29. Tracking parameters do not hide a duplicate from [contentExists]
    of utils/deduplication.js either: an item with an address that is not
    empty is found under every such address that parses to the same parts
    as its own apart from the parameters of [TRACKING_PARAMS]. *)
Theorem dedup_contentExists_ignores_tracking
    (parseURL : string → option URL) (a : Author) (platform url : string)
    (item : Content) (items : list Content) (p1 p2 : URL) :
  ServiceWorker.contentOf platform a = Some items → item ∈ items →
  c_url item ≠ "" → url ≠ "" →
  parseURL (c_url item) = Some p1 → parseURL url = Some p2 →
  same_but_params DedupUrl.TRACKING_PARAMS p1 p2 →
  Dedup.contentExists parseURL (Some a) (Some url) platform = true.
Proof.
  intros Hitems Hin Hn1 Hn2 H1 H2 Hsame. unfold Dedup.contentExists. rewrite Hitems.
  cbv zeta. apply existsb_exists. exists item. split; [by apply list_elem_of_In|].
  apply String.eqb_eq. unfold Dedup.normalizeUrl. by eapply dedup_normalizeUrl_tracking.
Qed.

Lemma dedup_contentExists_ignores_tracking_witness :
  Dedup.contentExists parseHttpUrl
    (Some (mkAuthor None (Some "https://www.linkedin.com/in/ada") None None None None None
             (Some [tweet "https://www.linkedin.com/pulse/engines?trk=feed&id=7"]) None))
    (Some "https://www.linkedin.com/pulse/engines?id=7&mc_cid=1") "linkedin" = true.
Proof.
  eapply (dedup_contentExists_ignores_tracking parseHttpUrl _ "linkedin" _
            (tweet "https://www.linkedin.com/pulse/engines?trk=feed&id=7")).
  - reflexivity.
  - by left.
  - discriminate.
  - discriminate.
  - vm_compute. reflexivity.
  - vm_compute. reflexivity.
  - repeat split.
Defined.
